(** * mollama: prompt assembly, response clean-up, message ids and model provisioning

    A shallow embedding of the non-UI logic of the chat application:
    - [src/llama/llama.config.ts]   ([cleanResponse], [sendMessage]),
    - [src/components/Chat.tsx]     ([generateId], [createCompletion],
      [handleSend], [getSystemPrompt], [renderTextWithThinking]),
    - the [App] screens             ([downloadModel], [downloadResumable],
      [validateModelSelection], [switchModel]),
    - [src/mollama/src/utils/modelDownloader.ts] (the [ModelDownloader]),
    - the inference engine, the chat screen and the models screen that use
      it.

    JavaScript strings are sequences of UTF-16 code units; the regular
    expressions of the program carry no [u] flag, so they work on code units
    too.  A string is therefore a [list N]. *)

From Stdlib Require Import Ascii String.
From Stdlib Require Import DecimalString DecimalN DecimalZ.
From Stdlib Require Import Floats.
From Stdlib Require Import NArith ZArith Bool Lia Arith List.
Import ListNotations.

(* ------------------------------------------------------------------ *)
(** ** JavaScript strings *)

Module JS.

Definition cu := N.
Definition jstring := list cu.

(** An ASCII literal as a JavaScript string. *)
Definition str (s : string) : jstring :=
  map N_of_ascii (list_ascii_of_string s).
Arguments str s%_string.

Definition LF : cu := 10%N.
Definition TAB : cu := 9%N.
Definition SP : cu := 32%N.
(** U+FF5C FULLWIDTH VERTICAL LINE, the bar of the patterns of
    [cleanResponse] that are not written with the ASCII bar. *)
Definition FWBAR : cu := 65372%N.

Definition UNDERSCORE : cu := 95%N.

Definition jeqb (a b : jstring) : bool :=
  if list_eq_dec N.eq_dec a b then true else false.

(** [s.startsWith(w)] *)
Fixpoint starts_with (w s : jstring) : bool :=
  match w, s with
  | [], _ => true
  | _ :: _, [] => false
  | a :: w', c :: t => (a =? c)%N && starts_with w' t
  end.

(** [LineTerminator] of ECMAScript: LF, CR, LS, PS. *)
Definition is_line_terminator (c : cu) : bool :=
  (c =? 10)%N || (c =? 13)%N || (c =? 8232)%N || (c =? 8233)%N.

(** The class [\s], which is also what [String.prototype.trim] strips:
    [WhiteSpace] (TAB, VT, FF, SP, NBSP, ZWNBSP and the category Zs) together
    with [LineTerminator]. *)
Definition is_ws (c : cu) : bool :=
  ((9 <=? c) && (c <=? 13))%N || (c =? 32)%N || (c =? 160)%N ||
  (c =? 5760)%N || ((8192 <=? c) && (c <=? 8202))%N ||
  (c =? 8232)%N || (c =? 8233)%N || (c =? 8239)%N || (c =? 8287)%N ||
  (c =? 12288)%N || (c =? 65279)%N.

(** [.] without the [s] flag, and with it. *)
Definition dot (c : cu) : bool := negb (is_line_terminator c).
Definition any (c : cu) : bool := true.

(** [[ \t]] *)
Definition is_hspace (c : cu) : bool := (c =? 32)%N || (c =? 9)%N.

Fixpoint dropWhile (p : cu -> bool) (s : jstring) : jstring :=
  match s with
  | [] => []
  | c :: t => if p c then dropWhile p t else s
  end.

Definition trimStart (s : jstring) : jstring := dropWhile is_ws s.
Definition trimEnd (s : jstring) : jstring := rev (dropWhile is_ws (rev s)).
(** [String.prototype.trim] *)
Definition trim (s : jstring) : jstring := trimEnd (trimStart s).

(** A string is truthy when it is not empty. *)
Definition truthy (s : jstring) : bool :=
  match s with [] => false | _ => true end.

Definition nonempty {A} (l : list A) : bool :=
  match l with [] => false | _ => true end.

(** [Array.prototype.join] on strings. *)
Fixpoint join (sep : jstring) (l : list jstring) : jstring :=
  match l with
  | [] => []
  | [x] => x
  | x :: t => x ++ sep ++ join sep t
  end.

(** [Array.prototype.slice(-n)] for a positive [n]: the start index is
    [max (length - n) 0]. *)
Definition slice_last {A} (n : nat) (l : list A) : list A :=
  skipn (length l - n) l.

(** [`${k}`] for an integer-valued number, in the range where the decimal
    form is used (below 1e21). *)
Fixpoint uint_chars (u : Decimal.uint) : jstring :=
  match u with
  | Decimal.Nil => []
  | Decimal.D0 u => 48%N :: uint_chars u
  | Decimal.D1 u => 49%N :: uint_chars u
  | Decimal.D2 u => 50%N :: uint_chars u
  | Decimal.D3 u => 51%N :: uint_chars u
  | Decimal.D4 u => 52%N :: uint_chars u
  | Decimal.D5 u => 53%N :: uint_chars u
  | Decimal.D6 u => 54%N :: uint_chars u
  | Decimal.D7 u => 55%N :: uint_chars u
  | Decimal.D8 u => 56%N :: uint_chars u
  | Decimal.D9 u => 57%N :: uint_chars u
  end.

Definition dec_N (n : N) : jstring := uint_chars (N.to_uint n).

Definition dec_Z (z : Z) : jstring :=
  match Z.to_int z with
  | Decimal.Pos u => uint_chars u
  | Decimal.Neg u => 45%N :: uint_chars u
  end.

(** [x.toFixed(1)] for a binary64 [x].  A finite [x] is [m * 2^e] up to its
    sign; the digits are those of the integer [n] for which [n / 10] is
    nearest to it, the larger one of two. *)
Definition round_tenths (m : positive) (e : Z) : N :=
  if (0 <=? e)%Z then (10 * Npos m * 2 ^ Z.to_N e)%N
  else ((20 * Npos m + 2 ^ Z.to_N (- e)) / 2 ^ (Z.to_N (- e) + 1))%N.



Definition fixed1_digits (n : N) : jstring :=
  dec_N (n / 10) ++ 46%N :: dec_N (n mod 10).

Section ToFixed.

(** [Number::toString], which [toFixed] uses from 1e21 on. *)
Variable number_text : float -> jstring.

Definition toFixed1 (x : float) : jstring :=
  match Prim2SF x with
  | S754_nan => [78; 97; 78]%N
  | S754_infinity false => [73; 110; 102; 105; 110; 105; 116; 121]%N
  | S754_infinity true => [45; 73; 110; 102; 105; 110; 105; 116; 121]%N
  | S754_zero _ => [48; 46; 48]%N
  | S754_finite s m e =>
      if (1e21 <=? abs x)%float then number_text x
      else (if s then [45%N] else []) ++ fixed1_digits (round_tenths m e)
  end.

End ToFixed.

End JS.
Import JS.

(* ------------------------------------------------------------------ *)
(** ** Regular expressions

    The patterns of the program are built from literal runs, one-character
    classes, lazy and greedy stars of such classes, sequence, alternation,
    one capturing group and the two anchors.  [matches] lists, for a pattern
    and the text at the current position, every way the pattern can match
    there, in the order in which a backtracking matcher tries them; the head
    of the list is the match JavaScript reports. *)

Module Regex.

Inductive regex : Type :=
| Bos                                   (* ^ without the m flag *)
| Eos                                   (* $ without the m flag *)
| Lit (w : jstring)                     (* a run of pattern characters *)
| Cls (p : cu -> bool)                  (* . \s [ \t] *)
| StarLazy (p : cu -> bool)             (* C*? *)
| StarGreedy (p : cu -> bool)           (* C* *)
| Seq (r1 r2 : regex)
| Alt (r1 r2 : regex)
| Grp (r : regex).                      (* ( ... ) *)

(** [C+] *)
Definition PlusGreedy (p : cu -> bool) : regex := Seq (Cls p) (StarGreedy p).

Record mres : Type := MRes {
  m_text : jstring;          (* the matched substring *)
  m_caps : list jstring;     (* the captures, leftmost parenthesis first *)
  m_rest : jstring           (* the text after the match *)
}.

(** [Canonicalize] of a pattern without the [u] flag, on the characters the
    patterns of this program contain (ASCII and U+FF5C): an ASCII letter is
    compared by its upper-case form, and no character outside ASCII
    canonicalizes to an ASCII character or to U+FF5C. *)
Definition canonicalize (c : cu) : cu :=
  if ((97 <=? c) && (c <=? 122))%N then (c - 32)%N else c.

Definition chr_eqb (ignoreCase : bool) (a b : cu) : bool :=
  if ignoreCase then (canonicalize a =? canonicalize b)%N else (a =? b)%N.

(** The literal [w] at the head of [s]: the matched text and what follows. *)
Fixpoint lit_prefix (ic : bool) (w s : jstring) : option (jstring * jstring) :=
  match w with
  | [] => Some ([], s)
  | a :: w' =>
      match s with
      | [] => None
      | c :: t =>
          if chr_eqb ic a c then
            match lit_prefix ic w' t with
            | Some (m, r) => Some (c :: m, r)
            | None => None
            end
          else None
      end
  end.

Definition cons_fst (c : cu) (x : jstring * jstring) : jstring * jstring :=
  (c :: fst x, snd x).

(** The splits of [s] by [C*?], shortest first. *)
Fixpoint star_lazy (p : cu -> bool) (s : jstring) : list (jstring * jstring) :=
  ([], s) ::
  match s with
  | [] => []
  | c :: t => if p c then map (cons_fst c) (star_lazy p t) else []
  end.

(** The splits of [s] by [C*], longest first. *)
Fixpoint star_greedy (p : cu -> bool) (s : jstring) : list (jstring * jstring) :=
  match s with
  | [] => []
  | c :: t => if p c then map (cons_fst c) (star_greedy p t) else []
  end ++ [([], s)].

Definition is_nil (s : jstring) : bool :=
  match s with [] => true | _ => false end.

Definition of_split (x : jstring * jstring) : mres := MRes (fst x) [] (snd x).

(** [bos] tells whether the current position is the start of the input. *)
Fixpoint matches (ic : bool) (r : regex) (bos : bool) (s : jstring) : list mres :=
  match r with
  | Bos => if bos then [MRes [] [] s] else []
  | Eos => if is_nil s then [MRes [] [] s] else []
  | Lit w =>
      match lit_prefix ic w s with
      | Some (m, rest) => [MRes m [] rest]
      | None => []
      end
  | Cls p =>
      match s with
      | c :: t => if p c then [MRes [c] [] t] else []
      | [] => []
      end
  | StarLazy p => map of_split (star_lazy p s)
  | StarGreedy p => map of_split (star_greedy p s)
  | Seq r1 r2 =>
      flat_map
        (fun m1 =>
           map (fun m2 => MRes (m_text m1 ++ m_text m2)
                               (m_caps m1 ++ m_caps m2) (m_rest m2))
               (matches ic r2 (bos && is_nil (m_text m1)) (m_rest m1)))
        (matches ic r1 bos s)
  | Alt r1 r2 => matches ic r1 bos s ++ matches ic r2 bos s
  | Grp r1 =>
      map (fun m => MRes (m_text m) (m_text m :: m_caps m) (m_rest m))
          (matches ic r1 bos s)
  end.

(** The match at the current position, if any. *)
Definition match_here (ic : bool) (r : regex) (bos : bool) (s : jstring)
  : option mres := hd_error (matches ic r bos s).

(** [RegExpBuiltinExec]: the leftmost position at which the pattern matches;
    the result carries the text skipped before the match. *)
Fixpoint search (ic : bool) (r : regex) (bos : bool) (s : jstring)
  : option (jstring * mres) :=
  match match_here ic r bos s with
  | Some m => Some ([], m)
  | None =>
      match s with
      | [] => None
      | c :: t =>
          match search ic r false t with
          | Some (pre, m) => Some (c :: pre, m)
          | None => None
          end
      end
  end.

(** [RegExp.prototype.test] on a pattern without the [g] flag. *)
Definition test (ic : bool) (r : regex) (s : jstring) : bool :=
  match search ic r true s with Some _ => true | None => false end.

(** [String.prototype.replace] with a pattern that has the [g] flag and a
    replacement function.  After an empty match the scan moves one code unit
    on.  Every round consumes at least one code unit, so [length s + 1]
    rounds are enough. *)
Fixpoint replace_loop (fuel : nat) (ic : bool) (r : regex)
    (f : mres -> jstring) (bos : bool) (s : jstring) : jstring :=
  match fuel with
  | O => s
  | S fuel' =>
      match search ic r bos s with
      | None => s
      | Some (pre, m) =>
          pre ++ f m ++
          match m_text m with
          | [] =>
              match m_rest m with
              | [] => []
              | c :: t => c :: replace_loop fuel' ic r f false t
              end
          | _ :: _ => replace_loop fuel' ic r f false (m_rest m)
          end
      end
  end.

(** The scan from a position that is ([bos]) or is not the start of the
    input. *)
Definition replace_from (ic : bool) (r : regex) (f : mres -> jstring)
    (bos : bool) (s : jstring) : jstring :=
  replace_loop (S (length s)) ic r f bos s.

Definition replace_fun (ic : bool) (r : regex) (f : mres -> jstring)
    (s : jstring) : jstring :=
  replace_from ic r f true s.

(** ... and with a replacement string (none of the replacement strings of the
    program contains a [$]). *)
Definition replace (ic : bool) (r : regex) (by_ : jstring) (s : jstring)
  : jstring := replace_fun ic r (fun _ => by_) s.

(** A match that starts one character earlier. *)
Definition prepend (c : cu) (m : mres) : mres :=
  MRes (c :: m_text m) (m_caps m) (m_rest m).

(** A match after the literal text [w]. *)
Definition after_lit (w : jstring) (m : mres) : mres :=
  MRes (w ++ m_text m) (m_caps m) (m_rest m).

(** A match of [(C*?)R] whose star took nothing, and one whose star took one
    character more. *)
Definition capture_none (m : mres) : mres :=
  MRes (m_text m) ([] :: m_caps m) (m_rest m).

Definition prepend_captured (c : cu) (m : mres) : mres :=
  MRes (c :: m_text m)
       (match m_caps m with
        | x :: l => (c :: x) :: l
        | [] => []
        end)
       (m_rest m).

(** A pattern without [^] matches the same way at every position. *)
Fixpoint no_bos (r : regex) : bool :=
  match r with
  | Bos => false
  | Seq r1 r2 | Alt r1 r2 => no_bos r1 && no_bos r2
  | Grp r1 => no_bos r1
  | _ => true
  end.

End Regex.
Import Regex.

(* ------------------------------------------------------------------ *)
(** ** [src/llama/llama.config.ts] *)

Module LlamaConfig.

Definition THINK_OPEN : jstring := str "<think>".
Definition THINK_CLOSE : jstring := str "</think>".
Definition REDACTED : jstring := str "REDACTED_SPECIAL_TOKEN".
Definition ELLIPSIS : jstring := str "...".

(** [/<think>(.*?)<\/think>/gs] *)
Definition re_think_capture : regex :=
  Seq (Lit THINK_OPEN) (Seq (Grp (StarLazy any)) (Lit THINK_CLOSE)).
(** [/<think>.*?<\/think>/gs] *)
Definition re_think : regex :=
  Seq (Lit THINK_OPEN) (Seq (StarLazy any) (Lit THINK_CLOSE)).
(** [/REDACTED_SPECIAL_TOKEN/g] *)
Definition re_redacted : regex := Lit REDACTED.
(** [/<\|.*?\|>/g] *)
Definition re_special : regex :=
  Seq (Lit (str "<|")) (Seq (StarLazy dot) (Lit (str "|>"))).
(** [/< \|end_of_sentence\|>/gi] with each bar the fullwidth U+FF5C (a
    backslash before it is an identity escape) *)
Definition re_end_of_sentence : regex :=
  Lit (str "< " ++ FWBAR :: str "end_of_sentence" ++ FWBAR :: str ">").
(** [/<\|.*?end.*?\|>/gi], again with the fullwidth bar U+FF5C *)
Definition re_end : regex :=
  Seq (Lit (str "<" ++ [FWBAR]))
      (Seq (StarLazy dot)
           (Seq (Lit (str "end"))
                (Seq (StarLazy dot) (Lit (FWBAR :: str ">"))))).
(** [/\n\s*\n\s*\n/g] *)
Definition re_newlines : regex :=
  Seq (Lit [LF])
      (Seq (StarGreedy is_ws)
           (Seq (Lit [LF]) (Seq (StarGreedy is_ws) (Lit [LF])))).
(** [/[ \t]+/g] *)
Definition re_hspace : regex := PlusGreedy is_hspace.

(** The replacement function of the first pass: [thinkingContent] is the
    first capture. *)
Definition limit_callback (m : mres) : jstring :=
  let thinkingContent := nth 0 (m_caps m) [] in
  if 200 <? length thinkingContent
  then THINK_OPEN ++ firstn 200 thinkingContent ++ ELLIPSIS ++ THINK_CLOSE
  else m_text m.

Definition limitThinking (text : jstring) : jstring :=
  replace_fun false re_think_capture limit_callback text.

(** The passes of the chain, in the order of the source. *)
Definition strip_think (s : jstring) : jstring := replace false re_think [] s.
Definition strip_redacted (s : jstring) : jstring := replace false re_redacted [] s.
Definition strip_special (s : jstring) : jstring := replace false re_special [] s.
Definition strip_end_of_sentence (s : jstring) : jstring :=
  replace true re_end_of_sentence [] s.
Definition strip_end (s : jstring) : jstring := replace true re_end [] s.
Definition collapse_newlines (s : jstring) : jstring :=
  replace false re_newlines [LF; LF] s.
Definition collapse_hspace (s : jstring) : jstring :=
  replace false re_hspace [SP] s.

(** The text after the marker passes, before the white-space passes. *)
Definition strip_markers (text : jstring) : jstring :=
  strip_end (strip_end_of_sentence (strip_special (strip_redacted
    (strip_think (limitThinking text))))).

Definition cleanResponse (text : jstring) : jstring :=
  trim (collapse_hspace (collapse_newlines (strip_markers text))).

(** None of the patterns of the six marker passes matches anywhere in
    [t]. *)
Definition markers_absent (t : jstring) : bool :=
  negb (test false re_think_capture t) && negb (test false re_think t) &&
  negb (test false re_redacted t) && negb (test false re_special t) &&
  negb (test true re_end_of_sentence t) && negb (test true re_end t).

Definition NO_RESPONSE : jstring := str "No response generated".

(** What [sendMessage] returns when [context.completion] resolves with
    [msgResult]: [cleanResponse] of [msgResult.text], or of the empty string
    when that is missing or empty, and the placeholder when the cleaned text
    is empty. *)
Definition sendMessage_result (msgResult_text : option jstring) : jstring :=
  let cleanedText :=
    cleanResponse (match msgResult_text with
                   | Some t => if truthy t then t else []
                   | None => []
                   end) in
  if truthy cleanedText then cleanedText else NO_RESPONSE.

(** The earlier [cleanResponse] (the [llama.config] whose [sendMessage] takes
    no token callback): no truncation pass, and one white-space pass
    [/\s+/g] to a single space. *)
Module Basic.

Definition re_ws : regex := PlusGreedy is_ws.

Definition collapse_ws (s : jstring) : jstring := replace false re_ws [SP] s.

(** The text after the marker passes. *)
Definition strip_markers (text : jstring) : jstring :=
  strip_end (strip_end_of_sentence (strip_special (strip_redacted
    (strip_think text)))).

Definition cleanResponse (text : jstring) : jstring :=
  trim (collapse_ws (strip_markers text)).

Definition markers_absent (t : jstring) : bool :=
  negb (test false re_think t) &&
  negb (test false re_redacted t) && negb (test false re_special t) &&
  negb (test true re_end_of_sentence t) && negb (test true re_end t).

End Basic.

End LlamaConfig.

(* ------------------------------------------------------------------ *)
(** ** [src/components/Chat.tsx] *)

Module Chat.

Record Message : Type := mkMessage {
  id : jstring;
  text : jstring;
  isUser : bool;
  timestamp : Z
}.

(** [`msg_${Date.now()}_${++messageIdCounter}`] with the counter already
    incremented. *)
Definition make_id (now : Z) (counter : N) : jstring :=
  str "msg_" ++ dec_Z now ++ str "_" ++ dec_N counter.

(** The counter is a JavaScript number, an IEEE binary64 value, that holds a
    non-negative integer.  Up to [COUNTER_LIMIT], 2^53, every integer is
    such a value and [x + 1] is exact. *)
Definition COUNTER_LIMIT : N := 9007199254740992.

(** [++messageIdCounter]: the sum [x + 1] rounded to the nearest binary64
    value, to the even significand on a tie.  From 2^53 to 2^54 the values
    are the even integers, so [x + 1] is a tie; from 2^54 on [x + 1] is
    nearer to [x] than to any other value. *)
Definition increment (c : N) : N :=
  if (c <? COUNTER_LIMIT)%N then (c + 1)%N
  else if ((c <? 2 * COUNTER_LIMIT) && N.odd (c / 2))%N then (c + 2)%N
  else c.

(** [generateId]: the id and the new value of [messageIdCounter]. *)
Definition generateId (now : Z) (messageIdCounter : N) : jstring * N :=
  let counter := increment messageIdCounter in
  (make_id now counter, counter).

(** The ids of successive calls, one per clock reading. *)
Fixpoint generate_ids (clocks : list Z) (messageIdCounter : N) : list jstring :=
  match clocks with
  | [] => []
  | now :: rest =>
      let '(i, c) := generateId now messageIdCounter in
      i :: generate_ids rest c
  end.

Definition greeting_words : list jstring :=
  [str "hey"; str "hello"; str "hi"; str "sup"; str "yo"; str "greetings"].

(** [/^(hey|hello|hi|sup|yo|greetings)$/i] *)
Definition re_greeting : regex :=
  Seq Bos
    (Seq (Grp (Alt (Lit (str "hey"))
              (Alt (Lit (str "hello"))
              (Alt (Lit (str "hi"))
              (Alt (Lit (str "sup"))
              (Alt (Lit (str "yo")) (Lit (str "greetings"))))))))
         Eos).

Definition isSimpleGreeting (message : jstring) : bool :=
  test true re_greeting (trim message).

(** The greeting rule in the words of the specification: the trimmed
    message, letters A-Z folded to lower case, is one of the greeting
    words. *)
Definition lower (c : cu) : cu :=
  if ((65 <=? c) && (c <=? 90))%N then (c + 32)%N else c.

Definition greeting_spec (message : jstring) : bool :=
  existsb (jeqb (map lower (trim message))) greeting_words.

(** Whether a literal of lower-case letters matches the whole text, case
    ignored. *)
Definition whole_ci (w s : jstring) : bool :=
  match lit_prefix true w s with
  | Some (_, []) => true
  | _ => false
  end.

Definition lowercase_word (w : jstring) : Prop :=
  Forall (fun a => (97 <= a <= 122)%N) w.

(** [`${msg.isUser ? 'User' : 'Assistant'}: ${msg.text}`] *)
Definition format_message (msg : Message) : jstring :=
  (if isUser msg then str "User" else str "Assistant") ++ str ": " ++ text msg.

(** The prompt [createCompletion] assembles from the system prompt, the
    message list of the render it was created in, and the new message. *)
Definition fullPrompt (systemPrompt : jstring) (messages : list Message)
    (message : jstring) : jstring :=
  if isSimpleGreeting message then
    systemPrompt ++ [LF; LF] ++ str "User: " ++ message
  else
    let recentMessages := slice_last 4 messages in
    let conversationHistory := join [LF] (map format_message recentMessages) in
    systemPrompt ++ [LF; LF] ++ conversationHistory ++ [LF] ++
    str "User: " ++ message.

(** What [context.completion] can do: call the token callback some number of
    times, then resolve with a result or reject. *)
Inductive thrown : Type :=
| ErrorObject (message : jstring)     (* an instance of Error *)
| OtherValue.                         (* anything else *)

Inductive settled : Type :=
| Resolves (msgResult_text : option jstring)
| Rejects (e : thrown).

Record completion : Type := mkCompletion {
  tokens : list jstring;              (* [data.token] of each callback call *)
  outcome : settled
}.

(** The component state, with the module-level counter. *)
Record State : Type := mkState {
  messages : list Message;
  isLoading : bool;
  error : option jstring;
  systemPrompt : jstring;
  messageIdCounter : N
}.

Definition setMessages (f : list Message -> list Message) (st : State) : State :=
  mkState (f (messages st)) (isLoading st) (error st) (systemPrompt st)
          (messageIdCounter st).
Definition setIsLoading (b : bool) (st : State) : State :=
  mkState (messages st) b (error st) (systemPrompt st) (messageIdCounter st).
Definition setError (e : option jstring) (st : State) : State :=
  mkState (messages st) (isLoading st) e (systemPrompt st) (messageIdCounter st).
Definition setCounter (c : N) (st : State) : State :=
  mkState (messages st) (isLoading st) (error st) (systemPrompt st) c.

(** [Array.prototype.findIndex] *)
Fixpoint findIndex {A} (p : A -> bool) (l : list A) : option nat :=
  match l with
  | [] => None
  | x :: t => if p x then Some O
              else match findIndex p t with
                   | Some i => Some (S i)
                   | None => None
                   end
  end.

(** [a[i] = f a[i]] on a copy, for an index inside the array. *)
Fixpoint update_at {A} (i : nat) (f : A -> A) (l : list A) : list A :=
  match l, i with
  | [], _ => []
  | x :: t, O => f x :: t
  | x :: t, S j => x :: update_at j f t
  end.

Definition with_text (f : jstring -> jstring) (m : Message) : Message :=
  mkMessage (id m) (f (text m)) (isUser m) (timestamp m).

(** The updater both [setMessages] calls of [createCompletion] pass: find
    the streaming message by id and replace its text. *)
Definition update_streaming (streamingMessageId : jstring)
    (f : jstring -> jstring) (prev : list Message) : list Message :=
  match findIndex (fun msg => jeqb (id msg) streamingMessageId) prev with
  | Some streamingIndex => update_at streamingIndex (with_text f) prev
  | None => prev
  end.

(** The token callback, as [sendMessage] wraps it: an empty [data.token] is
    skipped. *)
Definition onToken (streamingMessageId : jstring) (st : State) (token : jstring)
  : State :=
  if truthy token
  then setMessages (update_streaming streamingMessageId (fun t => t ++ token)) st
  else st.

Definition EMPTY_RESPONSE : jstring := str "Empty response from AI".
Definition UNKNOWN_ERROR : jstring := str "Unknown error occurred".

(** [err instanceof Error ? err.message : "Unknown error occurred"] *)
Definition error_text (err : thrown) : jstring :=
  match err with
  | ErrorObject message => message
  | OtherValue => UNKNOWN_ERROR
  end.

(** [createCompletion]: [context] answers the prompt it is given; [clock] is
    the reading of [Date.now()] in [generateId] and [stamp] the [new Date()]
    of the streaming message.  [rendered] is the [messages] the closure
    captured, the list of the render it was created in; the updaters of
    [setMessages] work on the current state [st].  The result is the returned
    value ([None] for [null]) and the state after the [finally] block. *)
Definition createCompletion (context : jstring -> completion) (clock stamp : Z)
    (rendered : list Message) (message : jstring) (st : State)
  : option jstring * State :=
  let st1 := setError None (setIsLoading true st) in
  let prompt := fullPrompt (systemPrompt st) rendered message in
  let '(streamingMessageId, counter) := generateId clock (messageIdCounter st1) in
  let streamingMessage := mkMessage streamingMessageId [] false stamp in
  let st2 := setMessages (fun prev => prev ++ [streamingMessage])
                         (setCounter counter st1) in
  let run := context prompt in
  let st3 := fold_left (onToken streamingMessageId) (tokens run) st2 in
  let '(result, st4) :=
    match outcome run with
    | Resolves msgResult_text =>
        let response := LlamaConfig.sendMessage_result msgResult_text in
        if truthy response && truthy (trim response) then
          (Some response,
           setMessages (update_streaming streamingMessageId (fun _ => response)) st3)
        else
          (None, setError (Some (error_text (ErrorObject EMPTY_RESPONSE))) st3)
    | Rejects e => (None, setError (Some (error_text e)) st3)
    end in
  (result, setIsLoading false st4).

(** Every id in the list was issued by [generateId] at a counter value not
    above the current one. *)
Definition ids_issued (st : State) : Prop :=
  Forall (fun m => exists now c, id m = make_id now c /\
                                 (c <= messageIdCounter st)%N)
         (messages st).

(** [handleSend] is the only caller: it refuses an empty input or a second
    send while one is loading, appends the trimmed user message and asks for
    the completion of that text. *)
Definition handleSend (context : jstring -> completion)
    (clock_user stamp_user clock stamp : Z) (inputText : jstring) (st : State)
  : State :=
  if negb (truthy (trim inputText)) || isLoading st then st
  else
    let '(uid, counter) := generateId clock_user (messageIdCounter st) in
    let userMessage := mkMessage uid (trim inputText) true stamp_user in
    let st1 := setMessages (fun prev => prev ++ [userMessage])
                           (setCounter counter st) in
    snd (createCompletion context clock stamp (messages st) (text userMessage)
                          st1).

End Chat.

(* ------------------------------------------------------------------ *)
(** ** The [App] screens: model provisioning *)

Module App.

(** What is stored under a path: the bytes of a model file, kept abstract. *)
Definition content := N.
Definition filesystem := jstring -> option content.

Definition fs_remove (p : jstring) (fs : filesystem) : filesystem :=
  fun q => if jeqb q p then None else fs q.
Definition fs_write (p : jstring) (c : content) (fs : filesystem) : filesystem :=
  fun q => if jeqb q p then Some c else fs q.

(** The collaborators: the native loader, which accepts or rejects the bytes
    of a file, the remote repository, and whether the file system lets a path
    be deleted. *)
Inductive fetched : Type :=
| Fetched (c : content)      (* [downloadAsync] resolves; [res.uri] is the
                                target path, which now holds [c] *)
| NoResult                   (* it resolves without a [uri] *)
| FetchThrows (message : jstring).  (* it rejects; the text the catch shows *)

Record Env : Type := mkEnv {
  initLlama : content -> option N;        (* a context, or it throws *)
  load_error : jstring;                   (* the message of that error *)
  remote : jstring -> fetched;
  deletable : jstring -> bool
}.

Inductive event : Type :=
| GetInfo (path : jstring)
| LoadModel (path : jstring)
| DeleteFile (path : jstring)
| Download (url path : jstring).

Record Screen : Type := mkScreen {
  context : option N;
  loading : bool;
  error : option jstring;
  fs : filesystem;
  trace : list event          (* the calls made, oldest first *)
}.

Definition log (e : event) (s : Screen) : Screen :=
  mkScreen (context s) (loading s) (error s) (fs s) (trace s ++ [e]).
Definition setContext (c : N) (s : Screen) : Screen :=
  mkScreen (Some c) (loading s) (error s) (fs s) (trace s).
Definition setLoading (b : bool) (s : Screen) : Screen :=
  mkScreen (context s) b (error s) (fs s) (trace s).
Definition setError (m : jstring) (s : Screen) : Screen :=
  mkScreen (context s) (loading s) (Some m) (fs s) (trace s).
Definition setFs (f : filesystem) (s : Screen) : Screen :=
  mkScreen (context s) (loading s) (error s) f (trace s).

(** [loadModel(path)]: the context, or [None] when [initLlama] throws (also
    when there is no file). *)
Definition loadModel (env : Env) (path : jstring) (s : Screen) : option N * Screen :=
  let s' := log (LoadModel path) s in
  match fs s path with
  | Some c => (initLlama env c, s')
  | None => (None, s')
  end.

Definition DOWNLOAD_FAILED : jstring := str "Download failed - no URI returned".

(** The common tail of both [downloadModel]: download, check the [uri], load
    the downloaded file; every error ends in the outer [catch]. *)
Definition download_and_load (env : Env) (url path : jstring) (s : Screen) : Screen :=
  let s1 := log (Download url path) s in
  match remote env url with
  | FetchThrows m => setLoading false (setError m s1)
  | NoResult => setLoading false (setError DOWNLOAD_FAILED s1)
  | Fetched c =>
      let s2 := setFs (fs_write path c (fs s1)) s1 in
      match loadModel env path s2 with
      | (Some ctx, s3) => setLoading false (setContext ctx s3)
      | (None, s3) => setLoading false (setError (load_error env) s3)
      end
  end.

(** [downloadModel(model)] of the screen with the model selector: a file that
    does not load is deleted, a failing delete is logged and ignored. *)
Definition downloadModel (env : Env) (url modelPath : jstring) (s : Screen) : Screen :=
  let s1 := log (GetInfo modelPath) s in
  let isExists := match fs s1 modelPath with Some _ => true | None => false end in
  if isExists then
    match loadModel env modelPath s1 with
    | (Some ctx, s2) => setLoading false (setContext ctx s2)
    | (None, s2) =>
        let s3 := log (DeleteFile modelPath) s2 in
        let s4 := if deletable env modelPath
                  then setFs (fs_remove modelPath (fs s3)) s3
                  else s3 in
        download_and_load env url modelPath s4
    end
  else download_and_load env url modelPath s1.

(** [downloadModel()] of the single-model screen: a file that does not load
    is left in place and the download starts. *)
Module Single.

Definition downloadModel (env : Env) (downloadLink modelPath : jstring)
    (s : Screen) : Screen :=
  let s1 := log (GetInfo modelPath) s in
  let isExists := match fs s1 modelPath with Some _ => true | None => false end in
  if isExists then
    match loadModel env modelPath s1 with
    | (Some ctx, s2) => setLoading false (setContext ctx s2)
    | (None, s2) => download_and_load env downloadLink modelPath s2
    end
  else download_and_load env downloadLink modelPath s1.

End Single.

End App.

(* ------------------------------------------------------------------ *)
(** ** [src/mollama/src/utils/modelDownloader.ts] *)

Module ModelDownloader.

Record DownloadProgressData : Type := mkProgress {
  totalBytesWritten : float;
  totalBytesExpectedToWrite : float
}.



End ModelDownloader.

(* ------------------------------------------------------------------ *)
(** ** The progress callbacks of the [App] screens *)

Module DownloadResumable.
Import ModelDownloader.

(** What the callback of the screen with the model selector writes. *)
Record Shown : Type := mkShown {
  downloadProgress : float;     (* [setDownloadProgress] *)
  status : jstring              (* [setStatus] *)
}.

Section Callbacks.

Variable number_text : float -> jstring.

(** The callback of [downloadResumable(model)]. *)
Definition downloadResumable (model_name : jstring)
    (downloadProgress : DownloadProgressData) : Shown :=
  let progress := (totalBytesWritten downloadProgress /
                   totalBytesExpectedToWrite downloadProgress)%float in
  mkShown progress
          (str "Downloading " ++ model_name ++ str ": " ++
           toFixed1 number_text (progress * 100)%float ++ str "%").

End Callbacks.

(** The callback of the single-model screens: the fraction goes to the
    console, the percentage to the status line. *)
Module Single.

Section Callbacks.

Variable number_text : float -> jstring.

Definition downloadResumable (console : list float)
    (downloadProgress : DownloadProgressData) : list float * jstring :=
  let progress := (totalBytesWritten downloadProgress /
                   totalBytesExpectedToWrite downloadProgress)%float in
  (console ++ [progress],
   str "Downloading: " ++ toFixed1 number_text (progress * 100)%float ++ str "%").

End Callbacks.

End Single.

End DownloadResumable.

(* ------------------------------------------------------------------ *)
(** ** The shape of a text

    What the patterns of [cleanResponse] look for, as plain functions on the
    text; the properties relate each pass to them. *)

Module Shape.

Fixpoint takeWhile (p : cu -> bool) (s : jstring) : jstring :=
  match s with
  | [] => []
  | c :: t => if p c then c :: takeWhile p t else []
  end.

(** Whether [w] occurs in [s]. *)
Fixpoint occurs (w s : jstring) : bool :=
  match lit_prefix false w s with
  | Some _ => true
  | None => match s with [] => false | _ :: t => occurs w t end
  end.

(** The number of LF in the white-space run at the head of [s]. *)
Fixpoint lead_nl (s : jstring) : nat :=
  match s with
  | [] => 0
  | c :: t =>
      if is_ws c then (if (c =? LF)%N then 1 else 0) + lead_nl t else 0
  end.

(** The head of [s] through the last LF of its leading white-space run ... *)
Fixpoint take_nl (s : jstring) : jstring :=
  match s with
  | [] => []
  | c :: t => if is_ws c && (1 <=? lead_nl s) then c :: take_nl t else []
  end.

(** ... and what follows it. *)
Fixpoint skip_nl (s : jstring) : jstring :=
  match s with
  | [] => []
  | c :: t => if is_ws c && (1 <=? lead_nl s) then skip_nl t else s
  end.

(** No LF is followed, across white space only, by two more LF. *)
Fixpoint nl_normal (s : jstring) : bool :=
  match s with
  | [] => true
  | c :: t => negb ((c =? LF)%N && (2 <=? lead_nl t)) && nl_normal t
  end.

Definition head_is (p : cu -> bool) (s : jstring) : bool :=
  match s with c :: _ => p c | [] => false end.

Definition last_is (p : cu -> bool) (s : jstring) : bool := head_is p (rev s).

(** Every character of the class [p] is a single space that no other
    character of the class follows. *)
Fixpoint runs_normal (p : cu -> bool) (s : jstring) : bool :=
  match s with
  | [] => true
  | c :: t =>
      (if p c then (c =? SP)%N && negb (head_is p t) else true)
      && runs_normal p t
  end.

(** Every space or tab is a single space between two other characters. *)
Definition hs_normal (s : jstring) : bool := runs_normal is_hspace s.

(** The scan of a pass that replaces each run of a class by one string. *)
Definition runs_to (p : cu -> bool) (by_ : jstring) (s : jstring) : jstring :=
  replace_from false (PlusGreedy p) (fun _ => by_) false s.

(** The scan of the pass that collapses newlines. *)
Definition cns (s : jstring) : jstring :=
  replace_from false LlamaConfig.re_newlines (fun _ => [LF; LF]) false s.

(** The scan of the pass that collapses spaces and tabs. *)
Definition chs (s : jstring) : jstring := runs_to is_hspace [SP] s.

End Shape.
Import Shape.

(* ------------------------------------------------------------------ *)
(** ** Sample data *)

Module Sample.
Import Chat.

Definition welcome : Message :=
  mkMessage (make_id 1700000000000 1) (str "Welcome to Qwen3 1.7B!") false
            1700000000000.

(** The state after the welcome message was set. *)
Definition st0 : State :=
  mkState [welcome] false None (str "You are Qwen, a helpful AI assistant.") 1.

(** A completion that streams two tokens and then rejects. *)
Definition busy (prompt : jstring) : completion :=
  mkCompletion [str "Hel"; str "lo"] (Rejects (ErrorObject (str "Context is busy"))).

(** A user message and a streaming reply created in the same millisecond. *)
Definition asked : Message :=
  mkMessage (make_id 1700000000000 1) (str "hi") true 1700000000000.
Definition partial : Message :=
  mkMessage (make_id 1700000000000 2) (str "Hel") false 1700000000000.

(** Five prior messages. *)
Definition history : list Message :=
  [ welcome;
    mkMessage (make_id 1700000000100 2) (str "what is a monad") true 1700000000100;
    mkMessage (make_id 1700000000100 3) (str "A monad is a monoid.") false 1700000000100;
    mkMessage (make_id 1700000000200 4) (str "in which category") true 1700000000200;
    mkMessage (make_id 1700000000200 5) (str "Endofunctors.") false 1700000000200 ].

End Sample.

Module SampleApp.
Import App.

Definition path : jstring := str "file:///documents/model_qwen3-1.7b.gguf".
Definition url : jstring :=
  str "https://huggingface.co/unsloth/Qwen3-1.7B-GGUF/resolve/main/Qwen3-1.7B-Q5_K_M.gguf".

(** The loader rejects the bytes [0] and accepts all others; the repository
    serves the bytes [7]. *)
Definition env : Env :=
  mkEnv (fun c => if (c =? 0)%N then None else Some c)
        (str "Failed to load model") (fun _ => Fetched 7%N) (fun _ => true).

(** The same, with a repository that returns no result. *)
Definition env_offline : Env :=
  mkEnv (fun c => if (c =? 0)%N then None else Some c)
        (str "Failed to load model") (fun _ => NoResult) (fun _ => true).

(** A screen whose model file holds the bytes [0]. *)
Definition corrupt : Screen :=
  mkScreen None true None (fun q => if jeqb q path then Some 0%N else None) [].

End SampleApp.

Module Cleaning.

(** The first character of a pattern that starts with a literal. *)
Definition first_char (r : regex) : option cu :=
  match r with
  | Lit (a :: _) => Some a
  | Seq (Lit (a :: _)) _ => Some a
  | _ => None
  end.

End Cleaning.
Import Cleaning.

(* ------------------------------------------------------------------ *)
(** ** The App screens: the earliest [downloadModel] and the model selector *)

(** [downloadModel()] of the earliest screen: the load of an existing file
    is not guarded, so its error goes to the outer [catch]. *)
Module Earliest.
Import App.

Definition downloadModel (env : Env) (downloadLink modelPath : jstring)
    (s : Screen) : Screen :=
  let s1 := log (GetInfo modelPath) s in
  let isExists := match fs s1 modelPath with Some _ => true | None => false end in
  if isExists then
    match loadModel env modelPath s1 with
    | (Some ctx, s2) => setLoading false (setContext ctx s2)
    | (None, s2) => setLoading false (setError (load_error env) s2)
    end
  else download_and_load env downloadLink modelPath s1.

End Earliest.

Module Selector.
Import App.

Record ModelConfig : Type := mkModelConfig {
  id : jstring;
  name : jstring;
  description : jstring;
  url : jstring;
  sizeGB : float;
  maxParams : float;
  recommended : bool
}.

#[warnings="-inexact-float"]
Definition AVAILABLE_MODELS : list ModelConfig :=
  [ mkModelConfig (str "qwen3-1.7b") (str "Qwen3 1.7B")
      (str "Fast, efficient model good for general conversation")
      (str "https://huggingface.co/unsloth/Qwen3-1.7B-GGUF/resolve/main/Qwen3-1.7B-Q5_K_M.gguf")
      1.1 2048 true;
    mkModelConfig (str "qwen2.5-vl-3b") (str "Qwen2.5-VL 3B")
      (str "Multimodal model that can see and understand images")
      (str "https://huggingface.co/unsloth/Qwen2.5-VL-3B-Instruct-GGUF/resolve/main/Qwen2.5-VL-3B-Instruct-Q4_K_M.gguf")
      1.93 4096 false;
    mkModelConfig (str "phi-3-mini") (str "Phi-3 Mini")
      (str "Microsoft's efficient model with good reasoning")
      (str "https://huggingface.co/unsloth/Phi-3-mini-GGUF/resolve/main/Phi-3-mini-Q5_K_M.gguf")
      0.8 2048 true;
    mkModelConfig (str "llama3-1b") (str "Llama3 1B")
      (str "Meta's lightweight Llama model")
      (str "https://huggingface.co/unsloth/Llama-3-1B-GGUF/resolve/main/Llama-3-1B-Q5_K_M.gguf")
      0.6 2048 false ].

(** [PARAMETER_LIMITS] *)
Definition maxModelSizeGB : float := 2.0.
Definition maxContextLength : float := 4096.

(** [FileSystem.documentDirectory + `model_${model.id}.gguf`] *)
Definition getModelPath (documentDirectory : jstring) (model : ModelConfig)
  : jstring :=
  documentDirectory ++ str "model_" ++ id model ++ str ".gguf".

Record validation : Type := mkValidation {
  valid : bool;
  message : option jstring
}.

Section Validation.

(** [`${x}`] for a number, [Number::toString]; the texts of the messages
    depend on it, the verdict does not. *)
Variable number_text : float -> jstring.

Definition validateModelSelection (model : ModelConfig) : validation :=
  if (maxModelSizeGB <? sizeGB model)%float then
    mkValidation false
      (Some (str "Model too large (" ++ number_text (sizeGB model) ++
             str "GB > " ++ number_text maxModelSizeGB ++ str "GB limit)"))
  else if (maxContextLength <? maxParams model)%float then
    mkValidation false
      (Some (str "Model exceeds context length limit (" ++
             number_text (maxParams model) ++ str " > " ++
             number_text maxContextLength ++ str ")"))
  else mkValidation true None.

(** The state of the screen with the selector; [alerts] are the calls of
    [Alert.alert], title and message. *)
Record State : Type := mkState {
  screen : Screen;
  selectedModel : ModelConfig;
  showModelSelector : bool;
  alerts : list (jstring * option jstring)
}.

(** [setError(null)] and [setContext(null)] *)
Definition clearError (s : Screen) : Screen :=
  mkScreen (context s) (loading s) None (fs s) (trace s).
Definition clearContext (s : Screen) : Screen :=
  mkScreen None (loading s) (error s) (fs s) (trace s).

Definition switchModel (env : Env) (documentDirectory : jstring)
    (newModel : ModelConfig) (st : State) : State :=
  let validation := validateModelSelection newModel in
  if negb (valid validation) then
    mkState (screen st) (selectedModel st) (showModelSelector st)
            (alerts st ++ [(str "Model Too Large", message validation)])
  else
    let s1 := clearContext (clearError (setLoading true (screen st))) in
    mkState (downloadModel env (url newModel)
                           (getModelPath documentDirectory newModel) s1)
            newModel false (alerts st).

End Validation.

(** How a run of [downloadModel] can end from a screen without context and
    error: not loading, and with a context or with an error message. *)
Definition provisioned (s : Screen) : Prop :=
  loading s = false /\
  ((exists ctx, context s = Some ctx /\ error s = None) \/
   (context s = None /\ exists m, error s = Some m)).

End Selector.


(* ------------------------------------------------------------------ *)
(** ** [ModelDownloader]: the model files *)

Module ModelFiles.
Import Chat.

Record ModelInfo : Type := mkModelInfo {
  id : jstring;
  name : jstring;
  size : float;                       (* in GB *)
  parameters : float;                 (* in billions *)
  description : jstring;
  huggingfaceRepo : jstring;
  modelFile : jstring;
  localPath : option jstring;
  isDownloaded : bool;
  downloadProgress : option float
}.

(** The calls to [expo-file-system]. *)
Inductive call : Type :=
| GetInfoAsync (fileUri : jstring)
| MakeDirectoryAsync (fileUri : jstring)
| DeleteAsync (fileUri : jstring)
| DownloadAsync (uri fileUri : jstring).

(** [FileInfo], as far as the program reads it; [size] is absent for a file
    that does not exist. *)
Record FileInfo : Type := mkFileInfo {
  exists_ : bool;
  fi_size : option float
}.

(** What the file system answers to a call, given the calls made before it:
    a rejection ([inl]) or the result.  The result of a download is its HTTP
    status, or nothing when [downloadAsync] resolves with [undefined]. *)
Record FileSystem : Type := mkFileSystem {
  getInfoAsync : list call -> jstring -> thrown + FileInfo;
  makeDirectoryAsync : list call -> jstring -> thrown + unit;
  deleteAsync : list call -> jstring -> thrown + unit;
  downloadAsync : list call -> jstring -> jstring -> thrown + option Z
}.

(** An asynchronous function: from the calls made so far to a rejection or a
    value, and the calls made by then. *)
Definition M (A : Type) : Type := list call -> (thrown + A) * list call.

Definition ret {A} (a : A) : M A := fun t => (inr a, t).
Definition throw {A} (e : thrown) : M A := fun t => (inl e, t).
Definition bind {A B} (m : M A) (f : A -> M B) : M B :=
  fun t => match m t with
           | (inl e, t') => (inl e, t')
           | (inr a, t') => f a t'
           end.
Definition try_catch {A} (m : M A) (handler : thrown -> M A) : M A :=
  fun t => match m t with
           | (inl e, t') => handler e t'
           | (inr a, t') => (inr a, t')
           end.

Notation "x <- m ;; f" := (bind m (fun x => f))
  (at level 61, m at next level, right associativity).

Section Files.

Variable FS : FileSystem.
Variable documentDirectory : jstring.

Definition getInfo (fileUri : jstring) : M FileInfo :=
  fun t => (getInfoAsync FS t fileUri, t ++ [GetInfoAsync fileUri]).
Definition makeDirectory (fileUri : jstring) : M unit :=
  fun t => (makeDirectoryAsync FS t fileUri, t ++ [MakeDirectoryAsync fileUri]).
Definition delete (fileUri : jstring) : M unit :=
  fun t => (deleteAsync FS t fileUri, t ++ [DeleteAsync fileUri]).
Definition download (uri fileUri : jstring) : M (option Z) :=
  fun t => (downloadAsync FS t uri fileUri, t ++ [DownloadAsync uri fileUri]).

(** [`${FileSystem.documentDirectory}models/`] *)
Definition MODELS_DIR : jstring := documentDirectory ++ str "models/".

Definition initialize : M unit :=
  try_catch
    (dirInfo <- getInfo MODELS_DIR ;;
     if negb (exists_ dirInfo) then makeDirectory MODELS_DIR else ret tt)
    (fun error => throw error).

#[warnings="-inexact-float"]
Definition getAvailableModels : list ModelInfo :=
  [ mkModelInfo (str "llama2-3b-q4") (str "Llama 2 3B (Q4)") 1.8 3
      (str "Small, fast model good for basic tasks")
      (str "TheBloke/Llama-2-3B-GGML") (str "llama-2-3b.ggmlv3.q4_0.bin")
      None false None;
    mkModelInfo (str "mistral-7b-q4") (str "Mistral 7B (Q4)") 4.1 7
      (str "Good balance of performance and speed")
      (str "TheBloke/Mistral-7B-Instruct-v0.2-GGML")
      (str "mistral-7b-instruct-v0.2.ggmlv3.q4_0.bin")
      None false None;
    mkModelInfo (str "phi-2-q4") (str "Phi-2 (Q4)") 1.6 2.7
      (str "Microsoft's efficient small model")
      (str "TheBloke/phi-2-GGML") (str "phi-2.ggmlv3.q4_0.bin")
      None false None;
    mkModelInfo (str "tinyllama-1b-q4") (str "TinyLlama 1.1B (Q4)") 0.7 1.1
      (str "Ultra-small model for basic tasks")
      (str "TheBloke/TinyLlama-1.1B-Chat-v1.0-GGML")
      (str "tinyllama-1.1b-chat-v1.0.ggmlv3.q4_0.bin")
      None false None ].

(** [{...model, localPath, isDownloaded: true}] *)
Definition downloaded_at (localPath : jstring) (model : ModelInfo) : ModelInfo :=
  mkModelInfo (id model) (name model) (size model) (parameters model)
              (description model) (huggingfaceRepo model) (modelFile model)
              (Some localPath) true (downloadProgress model).

(** The loop of [checkDownloadedModels] over the models that are left, with
    the array it has filled so far. *)
Fixpoint check_loop (models : list ModelInfo) (downloadedModels : list ModelInfo)
  : M (list ModelInfo) :=
  match models with
  | [] => ret downloadedModels
  | model :: rest =>
      let localPath := MODELS_DIR ++ id model ++ str "/" ++ modelFile model in
      fileInfo <- getInfo localPath ;;
      if exists_ fileInfo
      then check_loop rest (downloadedModels ++ [downloaded_at localPath model])
      else check_loop rest downloadedModels
  end.

Definition checkDownloadedModels : M (list ModelInfo) :=
  check_loop getAvailableModels [].

(** [result?.status === 200] *)
Definition status_is_200 (status : option Z) : bool :=
  match status with
  | Some code => (code =? 200)%Z
  | None => false
  end.

Definition download_failed (status : option Z) : thrown :=
  ErrorObject (str "Download failed with status: " ++
               match status with
               | Some code => dec_Z code
               | None => str "undefined"
               end).

(** [downloadModel(model, onProgress)]; what the progress callback passes on
    is [ModelDownloader.progress_callback]. *)
Definition downloadModel (model : ModelInfo) : M jstring :=
  let modelDir := MODELS_DIR ++ id model ++ str "/" in
  let localPath := modelDir ++ modelFile model in
  _ <- makeDirectory modelDir ;;
  let downloadUrl := str "https://huggingface.co/" ++ huggingfaceRepo model ++
                     str "/resolve/main/" ++ modelFile model in
  try_catch
    (result <- download downloadUrl localPath ;;
     if status_is_200 result then ret localPath
     else throw (download_failed result))
    (fun error => throw error).

(** [!model.localPath] *)
Definition no_localPath (model : ModelInfo) : bool :=
  match localPath model with
  | Some p => negb (truthy p)
  | None => true
  end.

Definition path_of (model : ModelInfo) : jstring :=
  match localPath model with Some p => p | None => [] end.

Definition deleteModel (model : ModelInfo) : M unit :=
  if no_localPath model then ret tt
  else try_catch (delete (path_of model)) (fun error => throw error).

(** [x || 0] on a number that may be missing. *)
Definition or_zero (x : option float) : float :=
  match x with
  | Some v => if (v =? 0)%float || PrimFloat.is_nan v then 0%float else v
  | None => 0%float
  end.

Definition getModelSize (model : ModelInfo) : M float :=
  if no_localPath model then ret 0%float
  else try_catch
         (fileInfo <- getInfo (path_of model) ;; ret (or_zero (fi_size fileInfo)))
         (fun error => ret 0%float).

End Files.

End ModelFiles.

(* ------------------------------------------------------------------ *)
(** ** [LocalInferenceEngine] and the chat screen that uses it *)

Module InferenceEngine.
Import Chat ModelFiles.

(** The fields of the engine; [model] holds the path of
    [{ name: 'llama-cpp-model', path: modelPath }]. *)
Record Engine : Type := mkEngine {
  model : option jstring;
  tokenizer : option unit;
  isInitialized : bool;
  currentModelPath : option jstring
}.

(** [new LocalInferenceEngine()] *)
Definition fresh : Engine := mkEngine None None false None.

Section Engine.

Variable FS : FileSystem.
Variable documentDirectory : jstring.

(** A method: from the engine and the calls made so far to a rejection or a
    value, the engine and the calls afterwards. *)
Definition method (A : Type) : Type :=
  Engine -> list call -> (thrown + A) * Engine * list call.

Definition initialize : method unit :=
  fun eng t =>
    if isInitialized eng then (inr tt, eng, t)
    else
      match ModelFiles.initialize FS documentDirectory t with
      | (inr _, t') =>
          (inr tt,
           mkEngine (model eng) (tokenizer eng) true (currentModelPath eng), t')
      | (inl error, t') => (inl error, eng, t')
      end.

Definition loadModel (modelPath : jstring) : method unit :=
  fun eng t =>
    match (if negb (isInitialized eng) then initialize eng t
           else (inr tt, eng, t)) with
    | (inl error, eng', t') => (inl error, eng', t')
    | (inr _, eng', t') =>
        (inr tt,
         mkEngine (Some modelPath) (tokenizer eng') (isInitialized eng')
                  (Some modelPath), t')
    end.

Definition NO_MODEL : jstring := str "No model loaded".

Definition placeholder (prompt : jstring) : jstring :=
  str "[llama.cpp placeholder] Response to: " ++ [34%N] ++ prompt ++ [34%N] ++
  [LF; LF] ++
  str "This is a placeholder response. Actual llama.cpp inference will be implemented next.".

Definition generateText (prompt : jstring) (eng : Engine) : thrown + jstring :=
  match model eng with
  | None => inl (ErrorObject NO_MODEL)
  | Some _ => inr (placeholder prompt)
  end.

Definition unloadModel (eng : Engine) : Engine :=
  mkEngine None None (isInitialized eng) (currentModelPath eng).

Definition isModelLoaded (eng : Engine) : bool :=
  match model eng with Some _ => true | None => false end.

End Engine.

(** The chat screen of [ChatScreen.tsx]. *)
Record Screen : Type := mkScreen {
  messages : list Message;
  inputText : jstring;
  isLoading : bool;
  isModelLoaded_flag : bool;
  alerts : list (jstring * jstring)
}.

(** [initializeEngine], run when the screen mounts. *)
Definition initializeEngine (FS : FileSystem) (documentDirectory : jstring)
    (s : Screen) (eng : Engine) (t : list call) : Screen * Engine * list call :=
  match initialize FS documentDirectory eng t with
  | (inr _, eng', t') =>
      (mkScreen (messages s) (inputText s) (isLoading s) true (alerts s), eng', t')
  | (inl _, eng', t') =>
      (mkScreen (messages s) (inputText s) (isLoading s) (isModelLoaded_flag s)
                (alerts s ++ [(str "Error",
                               str "Failed to initialize the local LLM engine")]),
       eng', t')
  end.

(** [sendMessage]; [now_user] and [now_reply] are the readings of
    [Date.now()], the stamps those of [new Date()]. *)
Definition sendMessage (eng : Engine) (now_user stamp_user now_reply stamp_reply : Z)
    (s : Screen) : Screen :=
  if negb (truthy (trim (inputText s))) || isLoading s then s
  else
    let userMessage := mkMessage (dec_Z now_user) (trim (inputText s)) true
                                 stamp_user in
    let msgs := messages s ++ [userMessage] in
    match generateText (text userMessage) eng with
    | inr response =>
        let assistantMessage :=
          mkMessage (dec_Z (now_reply + 1)) response false stamp_reply in
        mkScreen (msgs ++ [assistantMessage]) [] false (isModelLoaded_flag s)
                 (alerts s)
    | inl _ =>
        mkScreen msgs [] false (isModelLoaded_flag s)
                 (alerts s ++ [(str "Error", str "Failed to generate response")])
    end.

End InferenceEngine.


Module SampleFiles.
Import Chat ModelFiles.

Definition dir : jstring := str "file:///documents/".

(** A file system that holds the file of the third model and nothing else,
    creates directories, and answers every download with status 200. *)
Definition fs : FileSystem :=
  mkFileSystem
    (fun _ p =>
       inr (mkFileInfo
              (jeqb p (str "file:///documents/models/phi-2-q4/phi-2.ggmlv3.q4_0.bin"))
              None))
    (fun _ _ => inr tt)
    (fun _ _ => inr tt)
    (fun _ _ _ => inr (Some 200%Z)).

(** The same, but every download is answered with status 404. *)
Definition fs_404 : FileSystem :=
  mkFileSystem (getInfoAsync fs) (makeDirectoryAsync fs) (deleteAsync fs)
               (fun _ _ _ => inr (Some 404%Z)).

(** The same, but the probe of the second model is rejected. *)
Definition locked : jstring :=
  str "file:///documents/models/mistral-7b-q4/mistral-7b-instruct-v0.2.ggmlv3.q4_0.bin".
Definition fs_locked : FileSystem :=
  mkFileSystem
    (fun t p => if jeqb p locked then inl (ErrorObject (str "Permission denied"))
                else getInfoAsync fs t p)
    (makeDirectoryAsync fs) (deleteAsync fs) (downloadAsync fs).

End SampleFiles.

(* ------------------------------------------------------------------ *)
(** ** [Chat.tsx]: the system prompt of a model and the thinking text *)

Module ChatView.
Import LlamaConfig.

(** [String.prototype.replace] with a search string and a replacement string
    that holds no [$]: the first occurrence is replaced. *)
Fixpoint replace_first (searchValue replaceValue s : jstring) : jstring :=
  match lit_prefix false searchValue s with
  | Some (_, rest) => replaceValue ++ rest
  | None =>
      match s with
      | [] => []
      | c :: t => c :: replace_first searchValue replaceValue t
      end
  end.

Definition basePrompt : jstring :=
  str "You are a helpful AI assistant." ++ [LF; LF] ++
  str "CRITICAL RULES:" ++ [LF] ++
  str "- Only respond to what the user actually said, not what you think they might want" ++ [LF] ++
  str "- NEVER mention platform features, tools, or getting started guides unless the user specifically asks about them" ++ [LF; LF] ++
  str "You should be friendly and helpful, but never create problems or scenarios that don't exist. You are NOT a user asking questions - you are the assistant answering them.".

Definition ASSISTANT : jstring := str "You are a helpful AI assistant".

(** [getSystemPrompt(model)], which reads [model.id] only. *)
Definition getSystemPrompt (model_id : jstring) : jstring :=
  if jeqb model_id (str "qwen3-1.7b") then
    replace_first ASSISTANT (str "You are Qwen, a helpful AI assistant") basePrompt
  else if jeqb model_id (str "qwen2.5-vl-3b") then
    replace_first ASSISTANT
      (str "You are Qwen2.5-VL, a helpful AI assistant that can see and understand images")
      basePrompt
  else if jeqb model_id (str "phi-3-mini") then
    replace_first ASSISTANT (str "You are Phi-3, a helpful AI assistant") basePrompt
  else if jeqb model_id (str "llama3-1b") then
    replace_first ASSISTANT (str "You are Llama, a helpful AI assistant") basePrompt
  else basePrompt.

Definition DEFAULT_SYSTEM_PROMPT : jstring := getSystemPrompt (str "qwen3-1.7b").

(** [String.prototype.indexOf]: [None] for -1. *)
Fixpoint indexOf (searchString s : jstring) : option nat :=
  match lit_prefix false searchString s with
  | Some _ => Some 0
  | None =>
      match s with
      | [] => None
      | _ :: t => option_map S (indexOf searchString t)
      end
  end.

(** [/<\/?think>/g] *)
Definition re_think_tag : regex :=
  Seq (Lit (str "<")) (Seq (Alt (Lit (str "/")) (Lit [])) (Lit (str "think>"))).

(** A text without its thinking tags, read from left to right: where
    [</think>] or [<think>] starts, the tag is left out; [skip] is the number
    of characters of a tag still to leave out. *)
Fixpoint without_tags (skip : nat) (s : jstring) : jstring :=
  match s with
  | [] => []
  | c :: t =>
      match skip with
      | S k => without_tags k t
      | O =>
          if starts_with THINK_CLOSE s then without_tags 7 t
          else if starts_with THINK_OPEN s then without_tags 6 t
          else c :: without_tags 0 t
      end
  end.

(** What [renderTextWithThinking] returns: the whole text as markdown, or the
    text before the tag as markdown, when it is not empty, followed by the
    thinking content in the thinking style. *)
Inductive rendering : Type :=
| Markdown (text : jstring)
| Thinking (beforeThinking : option jstring) (thinkingContent : jstring).

Definition renderTextWithThinking (text : jstring) : rendering :=
  match indexOf THINK_OPEN text with
  | None => Markdown text
  | Some thinkIndex =>
      let beforeThinking := firstn thinkIndex text in
      let thinkingAndAfter := skipn thinkIndex text in
      let thinkingContent := replace false re_think_tag [] thinkingAndAfter in
      Thinking (if truthy beforeThinking then Some beforeThinking else None)
               thinkingContent
  end.

End ChatView.


(* ------------------------------------------------------------------ *)
(** ** The models screen: the simulated download *)

Module ModelsScreen.

Record AvailableModel : Type := mkAvailableModel {
  id : jstring;
  name : jstring;
  size : float;
  parameters : float;
  description : jstring;
  downloadUrl : jstring;
  isDownloaded : bool;
  downloadProgress : option Z
}.

Record State : Type := mkState {
  models : list AvailableModel;
  loading : bool;
  downloading : option jstring;
  alerts : list (jstring * jstring)
}.

(** [{ ...m, downloadProgress: progress }] *)
Definition with_progress (progress : Z) (m : AvailableModel) : AvailableModel :=
  mkAvailableModel (id m) (name m) (size m) (parameters m) (description m)
                   (downloadUrl m) (isDownloaded m) (Some progress).

(** [{ ...m, isDownloaded: true, downloadProgress: undefined }] *)
Definition downloaded (m : AvailableModel) : AvailableModel :=
  mkAvailableModel (id m) (name m) (size m) (parameters m) (description m)
                   (downloadUrl m) true None.

(** [{ ...m, isDownloaded: false }] *)
Definition not_downloaded (m : AvailableModel) : AvailableModel :=
  mkAvailableModel (id m) (name m) (size m) (parameters m) (description m)
                   (downloadUrl m) false (downloadProgress m).

(** [prev.map(m => m.id === model.id ? f m : m)] *)
Definition update_model (model : AvailableModel)
    (f : AvailableModel -> AvailableModel) (prev : list AvailableModel)
  : list AvailableModel :=
  map (fun m => if jeqb (id m) (id model) then f m else m) prev.

(** [for (let progress = 0; progress <= 100; progress += 10)]: the values
    [setModels] gives to the list in the rounds that are left, one after the
    other.  Eleven rounds are enough. *)
Fixpoint progress_loop (rounds : nat) (progress : Z) (model : AvailableModel)
    (prev : list AvailableModel) : list (list AvailableModel) :=
  match rounds with
  | O => []
  | S rounds' =>
      if (progress <=? 100)%Z
      then let next := update_model model (with_progress progress) prev in
           next :: progress_loop rounds' (progress + 10) model next
      else []
  end.

(** [if (downloading)] *)
Definition is_downloading (st : State) : bool :=
  match downloading st with
  | Some i => truthy i
  | None => false
  end.

(** The states the screen is in while [downloadModel] waits between two
    rounds: [downloading] holds the id and the list is the one of the
    round. *)
Definition downloadModel_rounds (model : AvailableModel) (st : State)
  : list State :=
  if is_downloading st then []
  else map (fun models' =>
              mkState models' (loading st) (Some (id model)) (alerts st))
           (progress_loop 11 0 model (models st)).

Definition downloadModel (model : AvailableModel) (st : State) : State :=
  if is_downloading st then st
  else
    let after_loop := last (progress_loop 11 0 model (models st)) (models st) in
    mkState (update_model model downloaded after_loop) (loading st) None
            (alerts st ++ [(str "Success",
                            name model ++ str " downloaded successfully!")]).

(** [deleteModel], once the user has confirmed it. *)
Definition deleteModel_confirmed (model : AvailableModel) (st : State) : State :=
  mkState (update_model model not_downloaded (models st)) (loading st)
          (downloading st)
          (alerts st ++ [(str "Success",
                          name model ++ str " deleted successfully!")]).

End ModelsScreen.


Module SampleModels.
Import ModelsScreen.

Definition tiny : AvailableModel :=
  mkAvailableModel (str "tinyllama-1b-q4") (str "TinyLlama 1.1B (Q4)") 0.5 1
    (str "Ultra-small model for basic tasks")
    (str "https://huggingface.co/TheBloke/TinyLlama-1.1B-Chat-v1.0-GGML/resolve/main/tinyllama-1.1b-chat-v1.0.ggmlv3.q4_0.bin")
    false None.

Definition llama : AvailableModel :=
  mkAvailableModel (str "llama2-3b-q4") (str "Llama 2 3B (Q4)") 1.5 3
    (str "Small, fast model good for basic tasks")
    (str "https://huggingface.co/TheBloke/Llama-2-3B-GGML/resolve/main/llama-2-3b.ggmlv3.q4_0.bin")
    false None.

(** The screen with two models, nothing downloading. *)
Definition idle : State := mkState [llama; tiny] false None [].

End SampleModels.


(* ------------------------------------------------------------------ *)
(** ** Runs of [downloadModel], call by call

    Each awaited call of a run ends in its own way: it resolves, it rejects,
    or it never settles.  A run makes each of its calls once at most, so one
    record holds the outcomes of a run.  The loader may accept a file in one
    call and reject it in the next, and the existence check may reject.  The
    screen is followed in its context, its loading flag and its error; the
    status line, which the progress callback writes too, is the matter of
    [DownloadResumable]. *)

Module Provisioning.

Inductive awaited (A : Type) : Type :=
| Resolved (a : A)
| Rejected (e : Chat.thrown)
| Unsettled.
Arguments Resolved {A} a.
Arguments Rejected {A} e.
Arguments Unsettled {A}.

Inductive call : Type :=
| ReadDirectoryAsync (fileUri : jstring)
| GetInfoAsync (fileUri : jstring)
| LoadModel (modelPath : jstring)
| DeleteAsync (fileUri : jstring)
| DownloadAsync (url fileUri : jstring).

Record Outcomes : Type := mkOutcomes {
  readDirectoryAsync : awaited unit;
  getInfoAsync : awaited bool;               (* [.exists] of the result *)
  loadExisting : awaited N;                  (* [loadModel(modelPath)] *)
  deleteAsync : awaited unit;
  downloadAsync : awaited (option jstring);  (* [res?.uri] *)
  loadDownloaded : awaited N                 (* [loadModel(res.uri)] *)
}.

Record Screen : Type := mkScreen {
  context : option N;
  loading : bool;
  error : option jstring;
  calls : list call           (* the calls made, oldest first *)
}.

(** Where an asynchronous function is: it has returned, it has thrown, or it
    waits for a call that does not settle. *)
Inductive result (A : Type) : Type :=
| Returns (a : A)
| Throws (e : Chat.thrown)
| Waits.
Arguments Returns {A} a.
Arguments Throws {A} e.
Arguments Waits {A}.

Definition M (A : Type) : Type := Screen -> result A * Screen.

Definition ret {A} (a : A) : M A := fun s => (Returns a, s).
Definition throw {A} (e : Chat.thrown) : M A := fun s => (Throws e, s).
Definition bind {A B} (m : M A) (f : A -> M B) : M B :=
  fun s => match m s with
           | (Returns a, s') => f a s'
           | (Throws e, s') => (Throws e, s')
           | (Waits, s') => (Waits, s')
           end.
Definition try_catch {A} (m : M A) (handler : Chat.thrown -> M A) : M A :=
  fun s => match m s with
           | (Throws e, s') => handler e s'
           | other => other
           end.

Notation "x <- m ;; f" := (bind m (fun x => f))
  (at level 61, m at next level, right associativity).

Definition await {A} (c : call) (outcome : awaited A) : M A :=
  fun s =>
    let s' := mkScreen (context s) (loading s) (error s) (calls s ++ [c]) in
    match outcome with
    | Resolved a => (Returns a, s')
    | Rejected e => (Throws e, s')
    | Unsettled => (Waits, s')
    end.

Definition setContext (c : N) : M unit :=
  fun s => (Returns tt, mkScreen (Some c) (loading s) (error s) (calls s)).
Definition setLoading (b : bool) : M unit :=
  fun s => (Returns tt, mkScreen (context s) b (error s) (calls s)).
Definition setError (m : jstring) : M unit :=
  fun s => (Returns tt, mkScreen (context s) (loading s) (Some m) (calls s)).

Definition DOWNLOAD_FAILED : jstring := str "Download failed - no URI returned".

(** The outer [catch] of every [downloadModel]. *)
Definition catch_all (e : Chat.thrown) : M unit :=
  _ <- setError (Chat.error_text e) ;;
  setLoading false.

(** The common tail: the download, the check of [res?.uri], the load of the
    downloaded file. *)
Definition download_and_load (o : Outcomes) (url target : jstring) : M unit :=
  uri <- await (DownloadAsync url target) (downloadAsync o) ;;
  match uri with
  | Some uri =>
      if truthy uri then
        context <- await (LoadModel uri) (loadDownloaded o) ;;
        _ <- setContext context ;;
        setLoading false
      else throw (Chat.ErrorObject DOWNLOAD_FAILED)
  | None => throw (Chat.ErrorObject DOWNLOAD_FAILED)
  end.

(** [downloadModel(model)] of the screen with the model selector; the inner
    [try] tells whether it has returned. *)
Definition downloadModel (o : Outcomes) (url modelPath : jstring) : M unit :=
  try_catch
    (isExists <- await (GetInfoAsync modelPath) (getInfoAsync o) ;;
     returned <-
       (if isExists : bool then
          try_catch
            (context <- await (LoadModel modelPath) (loadExisting o) ;;
             _ <- setContext context ;;
             _ <- setLoading false ;;
             ret true)
            (fun loadError =>
               _ <- try_catch (await (DeleteAsync modelPath) (deleteAsync o))
                              (fun deleteError => ret tt) ;;
               ret false)
        else ret false) ;;
     if returned : bool then ret tt else download_and_load o url modelPath)
    catch_all.

(** [FileSystem.documentDirectory + "model.gguf"], where the directory is a
    string or [null]. *)
Definition model_gguf (documentDirectory : option jstring) : jstring :=
  match documentDirectory with
  | Some docDir => docDir
  | None => str "null"
  end ++ str "model.gguf".

(** [downloadModel()] of the single-model screen: it lists the directory
    first, and a file that does not load is left in place. *)
Module Single.

Definition downloadModel (o : Outcomes) (documentDirectory : option jstring)
    (downloadLink : jstring) : M unit :=
  try_catch
    (let modelPath := model_gguf documentDirectory in
     _ <- try_catch
            (match documentDirectory with
             | Some docDir =>
                 if truthy docDir
                 then await (ReadDirectoryAsync docDir) (readDirectoryAsync o)
                 else ret tt
             | None => ret tt
             end)
            (fun e => ret tt) ;;
     isExists <- await (GetInfoAsync modelPath) (getInfoAsync o) ;;
     returned <-
       (if isExists : bool then
          try_catch
            (context <- await (LoadModel modelPath) (loadExisting o) ;;
             _ <- setContext context ;;
             _ <- setLoading false ;;
             ret true)
            (fun loadError => ret false)
        else ret false) ;;
     if returned : bool then ret tt
     else download_and_load o downloadLink (model_gguf documentDirectory))
    catch_all.

End Single.

(** [downloadModel()] of the earliest screen: a file that does not load ends
    the run. *)
Module Earliest.

Definition downloadModel (o : Outcomes) (documentDirectory : option jstring)
    (downloadLink : jstring) : M unit :=
  try_catch
    (isExists <- await (GetInfoAsync (model_gguf documentDirectory))
                       (getInfoAsync o) ;;
     if isExists : bool then
       context <- await (LoadModel (model_gguf documentDirectory))
                        (loadExisting o) ;;
       _ <- setContext context ;;
       setLoading false
     else download_and_load o downloadLink (model_gguf documentDirectory))
    catch_all.

End Earliest.

(** Every call of the record settles. *)
Definition settles {A} (a : awaited A) : bool :=
  match a with Unsettled => false | _ => true end.

Definition all_settle (o : Outcomes) : bool :=
  settles (readDirectoryAsync o) && settles (getInfoAsync o) &&
  settles (loadExisting o) && settles (deleteAsync o) &&
  settles (downloadAsync o) && settles (loadDownloaded o).

(** How a run that started on [s] has ended or where it waits. *)
Definition run_ends (s : Screen) (run : result unit * Screen) : Prop :=
  let s' := snd run in
  match fst run with
  | Throws _ => False
  | Waits =>
      context s' = context s /\ loading s' = loading s /\ error s' = error s
  | Returns _ =>
      loading s' = false /\
      ((exists ctx, context s' = Some ctx /\ error s' = error s) \/
       (exists e, error s' = Some (Chat.error_text e) /\ context s' = context s))
  end.

(** The outcomes when every call settles, the existence check and the
    loader answer by the files alone and a download names its target: the
    setting of [App.downloadModel]. *)
Definition answered (env : App.Env) (url path : jstring) (s : App.Screen)
  : Outcomes :=
  let load c := match App.initLlama env c with
                | Some ctx => Resolved ctx
                | None => Rejected (Chat.ErrorObject (App.load_error env))
                end in
  mkOutcomes
    (Resolved tt)
    (Resolved (match App.fs s path with Some _ => true | None => false end))
    (match App.fs s path with
     | Some c => load c
     | None => Rejected (Chat.ErrorObject (App.load_error env))
     end)
    (if App.deletable env path then Resolved tt else Rejected Chat.OtherValue)
    (match App.remote env url with
     | App.Fetched _ => Resolved (Some path)
     | App.NoResult => Resolved None
     | App.FetchThrows m => Rejected (Chat.ErrorObject m)
     end)
    (match App.remote env url with
     | App.Fetched c => load c
     | _ => Rejected (Chat.ErrorObject (App.load_error env))
     end).

Definition call_of (e : App.event) : call :=
  match e with
  | App.GetInfo p => GetInfoAsync p
  | App.LoadModel p => LoadModel p
  | App.DeleteFile p => DeleteAsync p
  | App.Download u p => DownloadAsync u p
  end.

Definition screen_of (s : App.Screen) : Screen :=
  mkScreen (App.context s) (App.loading s) (App.error s)
           (map call_of (App.trace s)).

End Provisioning.

Module SampleRuns.
Import Provisioning.

Definition fresh : Screen := mkScreen None true None [].

(** The file is there, the loader rejects it, the delete fails, the download
    resolves and the loader accepts the new file. *)
Definition reload : Outcomes :=
  mkOutcomes (Resolved tt) (Resolved true)
    (Rejected (Chat.ErrorObject (str "Failed to load model")))
    (Rejected Chat.OtherValue)
    (Resolved (Some (str "file:///documents/model_qwen3-1.7b.gguf")))
    (Resolved 7%N).

(** The existence check rejects with an error without a message. *)
Definition no_access : Outcomes :=
  mkOutcomes (Resolved tt) (Rejected (Chat.ErrorObject []))
    Unsettled Unsettled Unsettled Unsettled.

(** The download never settles. *)
Definition stalled : Outcomes :=
  mkOutcomes (Rejected Chat.OtherValue) (Resolved false)
    Unsettled Unsettled Unsettled Unsettled.

End SampleRuns.


(* ================================================================== *)
(** * Properties *)

(* ------------------------------------------------------------------ *)
(** ** Lists and strings *)

Section StringFacts.

Lemma dropWhile_idem (p : cu -> bool) (s : jstring) :
  dropWhile p (dropWhile p s) = dropWhile p s.
Proof.
  induction s as [|c t IH]; simpl; trivial.
  destruct (p c) eqn:E; trivial. simpl. now rewrite E.
Qed.

Lemma dropWhile_head (p : cu -> bool) (s : jstring) (c : cu) (t : jstring) :
  dropWhile p s = c :: t -> p c = false.
Proof.
  induction s as [|a s IH]; simpl; [discriminate|].
  destruct (p a) eqn:E; trivial. intros H. now inversion H; subst.
Qed.

Lemma dropWhile_fixed (p : cu -> bool) (c : cu) (t : jstring) :
  p c = false -> dropWhile p (c :: t) = c :: t.
Proof. intros H. simpl. now rewrite H. Qed.

Lemma trimEnd_nil : trimEnd [] = [].
Proof. reflexivity. Qed.

Lemma trimEnd_snoc (s : jstring) (c : cu) :
  trimEnd (s ++ [c]) = if is_ws c then trimEnd s else s ++ [c].
Proof.
  unfold trimEnd. rewrite rev_app_distr. simpl.
  destruct (is_ws c); trivial.
  simpl. now rewrite rev_involutive.
Qed.

Lemma trimEnd_idem (s : jstring) : trimEnd (trimEnd s) = trimEnd s.
Proof.
  unfold trimEnd. rewrite rev_involutive. now rewrite dropWhile_idem.
Qed.

(** Trimming at the end keeps a first character that is not white space. *)
Lemma trimEnd_cons (c : cu) (t : jstring) :
  is_ws c = false -> exists t', trimEnd (c :: t) = c :: t'.
Proof.
  intros Hc. induction t as [|x t IH] using rev_ind.
  - exists []. change [c] with ([] ++ [c]). rewrite trimEnd_snoc. now rewrite Hc.
  - change (c :: t ++ [x]) with ((c :: t) ++ [x]). rewrite trimEnd_snoc.
    destruct (is_ws x); [exact IH|]. now exists (t ++ [x]).
Qed.

Lemma trimStart_trimEnd (s : jstring) :
  trimStart (trimEnd (trimStart s)) = trimEnd (trimStart s).
Proof.
  unfold trimStart at 2 3.
  destruct (dropWhile is_ws s) as [|c t] eqn:E; [reflexivity|].
  apply dropWhile_head in E.
  destruct (trimEnd_cons c t E) as [t' Ht]. rewrite Ht.
  unfold trimStart. now apply dropWhile_fixed.
Qed.

Lemma trim_idem (s : jstring) : trim (trim s) = trim s.
Proof.
  unfold trim. rewrite trimStart_trimEnd. apply trimEnd_idem.
Qed.

Lemma truthy_true (s : jstring) : truthy s = true <-> s <> [].
Proof. destruct s; simpl; split; congruence. Qed.

End StringFacts.

(* ------------------------------------------------------------------ *)
(** ** The matcher *)

Section MatcherFacts.

Lemma lit_prefix_sound ic w : forall s m r,
  lit_prefix ic w s = Some (m, r) -> s = m ++ r /\ length m = length w.
Proof.
  induction w as [|a w IH]; simpl; intros s m r H.
  - inversion H; subst. now split.
  - destruct s as [|c t]; [discriminate|].
    destruct (chr_eqb ic a c); [|discriminate].
    destruct (lit_prefix ic w t) as [[m' r']|] eqn:E; [|discriminate].
    inversion H; subst. destruct (IH _ _ _ E) as [-> Hl].
    simpl. now rewrite Hl.
Qed.

Lemma lit_prefix_exact w : forall s m r,
  lit_prefix false w s = Some (m, r) -> m = w /\ s = w ++ r.
Proof.
  induction w as [|a w IH]; simpl; intros s m r H.
  - inversion H; subst. now split.
  - destruct s as [|c t]; [discriminate|].
    destruct (N.eqb_spec a c) as [->|]; [|discriminate].
    destruct (lit_prefix false w t) as [[m' r']|] eqn:E; [|discriminate].
    inversion H; subst. destruct (IH _ _ _ E) as [-> ->]. now split.
Qed.

Lemma lit_prefix_app w r : lit_prefix false w (w ++ r) = Some (w, r).
Proof.
  induction w as [|a w IH]; simpl; trivial.
  rewrite N.eqb_refl. now rewrite IH.
Qed.

Lemma star_lazy_sound p : forall s x,
  In x (star_lazy p s) -> s = fst x ++ snd x.
Proof.
  induction s as [|c t IH]; simpl; intros x H.
  - destruct H as [<-|[]]. reflexivity.
  - destruct H as [<-|H]; [reflexivity|].
    destruct (p c); [|contradiction].
    apply in_map_iff in H. destruct H as [y [<- Hy]].
    simpl. f_equal. now apply IH.
Qed.

Lemma star_greedy_sound p : forall s x,
  In x (star_greedy p s) -> s = fst x ++ snd x.
Proof.
  induction s as [|c t IH]; simpl; intros x H.
  - destruct H as [<-|[]]. reflexivity.
  - apply in_app_or in H. destruct H as [H|[<-|[]]]; [|reflexivity].
    destruct (p c); [|contradiction].
    apply in_map_iff in H. destruct H as [y [<- Hy]].
    simpl. f_equal. now apply IH.
Qed.

(** Every way a pattern matches splits the text into the match and the
    rest. *)
Lemma matches_sound ic r : forall bos s m,
  In m (matches ic r bos s) -> s = m_text m ++ m_rest m.
Proof.
  induction r as [| |w|p|p|p|r1 IH1 r2 IH2|r1 IH1 r2 IH2|r1 IH1];
    simpl; intros bos s m H.
  - destruct bos; [|contradiction]. destruct H as [<-|[]]. reflexivity.
  - destruct (is_nil s); [|contradiction]. destruct H as [<-|[]]. reflexivity.
  - destruct (lit_prefix ic w s) as [[m' r']|] eqn:E; [|contradiction].
    destruct H as [<-|[]]. now apply lit_prefix_sound in E.
  - destruct s as [|c t]; [contradiction|].
    destruct (p c); [|contradiction]. destruct H as [<-|[]]. reflexivity.
  - apply in_map_iff in H. destruct H as [x [<- Hx]].
    now apply star_lazy_sound in Hx.
  - apply in_map_iff in H. destruct H as [x [<- Hx]].
    now apply star_greedy_sound in Hx.
  - apply in_flat_map in H. destruct H as [m1 [H1 H]].
    apply in_map_iff in H. destruct H as [m2 [<- H2]]. simpl.
    apply IH1 in H1. apply IH2 in H2. rewrite H1, H2. now rewrite app_assoc.
  - apply in_app_or in H. destruct H as [H|H]; eauto.
  - apply in_map_iff in H. destruct H as [m1 [<- H1]]. simpl. eauto.
Qed.

Lemma match_here_sound ic r bos s m :
  match_here ic r bos s = Some m -> s = m_text m ++ m_rest m.
Proof.
  unfold match_here. intros H.
  destruct (matches ic r bos s) as [|m' l] eqn:E; [discriminate|].
  inversion H; subst. apply (matches_sound ic r bos s). rewrite E. now left.
Qed.

Lemma search_sound ic r : forall s bos pre m,
  search ic r bos s = Some (pre, m) -> s = pre ++ m_text m ++ m_rest m.
Proof.
  induction s as [|c t IH]; simpl; intros bos pre m H.
  - destruct (match_here ic r bos []) eqn:E; [|discriminate].
    inversion H; subst. now apply match_here_sound in E.
  - destruct (match_here ic r bos (c :: t)) eqn:E.
    + inversion H; subst. now apply match_here_sound in E.
    + destruct (search ic r false t) as [[pre' m']|] eqn:E'; [|discriminate].
      inversion H; subst. simpl. f_equal. now apply IH with (bos := false).
Qed.

(** More rounds than the text is long change nothing. *)
Lemma replace_loop_fuel ic r f : forall n1 n2 bos s,
  length s < n1 -> length s < n2 ->
  replace_loop n1 ic r f bos s = replace_loop n2 ic r f bos s.
Proof.
  induction n1 as [|n1 IH]; intros n2 bos s H1 H2; [lia|].
  destruct n2 as [|n2]; [lia|]. simpl.
  destruct (search ic r bos s) as [[pre m]|] eqn:E; trivial.
  apply search_sound in E.
  assert (L : length s = length pre + (length (m_text m) + length (m_rest m)))
    by (rewrite E at 1; now rewrite !length_app).
  do 2 f_equal.
  destruct (m_text m) as [|x tx] eqn:Et.
  - destruct (m_rest m) as [|c t] eqn:Er; trivial.
    f_equal. simpl in L. apply IH; lia.
  - simpl in L. apply IH; lia.
Qed.

Lemma replace_from_eq ic r f bos s :
  replace_from ic r f bos s =
  match search ic r bos s with
  | None => s
  | Some (pre, m) =>
      pre ++ f m ++
      match m_text m with
      | [] => match m_rest m with
              | [] => []
              | c :: t => c :: replace_from ic r f false t
              end
      | _ :: _ => replace_from ic r f false (m_rest m)
      end
  end.
Proof.
  unfold replace_from at 1. cbn [replace_loop].
  destruct (search ic r bos s) as [[pre m]|] eqn:E; trivial.
  apply search_sound in E.
  assert (L : length s = length pre + (length (m_text m) + length (m_rest m)))
    by (rewrite E at 1; now rewrite !length_app).
  do 2 f_equal.
  destruct (m_text m) as [|x tx] eqn:Et.
  - destruct (m_rest m) as [|c t] eqn:Er; trivial.
    f_equal. simpl in L. unfold replace_from. apply replace_loop_fuel; simpl; lia.
  - simpl in L. unfold replace_from. apply replace_loop_fuel; simpl; lia.
Qed.

Lemma replace_fun_from ic r f s : replace_fun ic r f s = replace_from ic r f true s.
Proof. reflexivity. Qed.

End MatcherFacts.

(* ------------------------------------------------------------------ *)
(** ** Prompt assembly *)

Section Prompt.
Import Chat.

Lemma jeqb_true (a b : jstring) : jeqb a b = true <-> a = b.
Proof.
  unfold jeqb. destruct (list_eq_dec N.eq_dec a b); split; congruence.
Qed.

Lemma jeqb_refl (a : jstring) : jeqb a a = true.
Proof. now apply jeqb_true. Qed.

(** A pattern that starts with [^] matches nowhere but at the start. *)
Lemma search_bos_later ic r : forall s, search ic (Seq Bos r) false s = None.
Proof.
  induction s as [|c t IH]; simpl; trivial. now rewrite IH.
Qed.

Lemma chr_eqb_lower (a c : cu) :
  (97 <= a <= 122)%N -> chr_eqb true a c = (lower c =? a)%N.
Proof.
  intros Ha. unfold chr_eqb, canonicalize, lower.
  assert (E : ((97 <=? a) && (a <=? 122))%N = true).
  { apply andb_true_iff. split; apply N.leb_le; lia. }
  rewrite E.
  destruct ((97 <=? c) && (c <=? 122))%N eqn:E1;
    destruct ((65 <=? c) && (c <=? 90))%N eqn:E2;
    rewrite ?andb_true_iff, ?andb_false_iff, ?N.leb_le, ?N.leb_gt in E1, E2;
    apply eq_true_iff_eq; rewrite !N.eqb_eq; lia.
Qed.

Lemma jeqb_cons (x y : cu) (a b : jstring) :
  jeqb (x :: a) (y :: b) = (x =? y)%N && jeqb a b.
Proof.
  apply eq_true_iff_eq. rewrite andb_true_iff, !jeqb_true, N.eqb_eq.
  split; [intros H; inversion H; now split | intros [-> ->]; reflexivity].
Qed.

Lemma whole_ci_spec w : lowercase_word w ->
  forall s, whole_ci w s = jeqb (map lower s) w.
Proof.
  unfold whole_ci. induction 1 as [|a w Ha Hw IH]; intros s.
  - simpl. destruct s; reflexivity.
  - destruct s as [|c t]; [reflexivity|].
    cbn [lit_prefix map]. rewrite (chr_eqb_lower _ _ Ha).
    rewrite jeqb_cons, <- IH.
    destruct (lower c =? a)%N; simpl; trivial.
    destruct (lit_prefix true w t) as [[m [|x r]]|]; trivial.
Qed.

Lemma greeting_words_lowercase : Forall lowercase_word greeting_words.
Proof.
  unfold greeting_words, lowercase_word.
  repeat constructor; vm_compute; discriminate.
Qed.

Lemma nonempty_map {A B} (f : A -> B) (l : list A) :
  nonempty (map f l) = nonempty l.
Proof. now destruct l. Qed.

Lemma nonempty_flat_map {A B} (f : A -> list B) (l : list A) :
  nonempty (flat_map f l) = existsb (fun x => nonempty (f x)) l.
Proof.
  induction l as [|x l IH]; simpl; trivial.
  destruct (f x); simpl; trivial.
Qed.

Lemma existsb_map {A B} (p : B -> bool) (g : A -> B) (l : list A) :
  existsb p (map g l) = existsb (fun x => p (g x)) l.
Proof. induction l as [|x l IH]; simpl; trivial. now rewrite IH. Qed.

Lemma existsb_pointwise {A} (p q : A -> bool) (l : list A) :
  (forall x, p x = q x) -> existsb p l = existsb q l.
Proof.
  intros H. induction l as [|x l IH]; simpl; trivial. now rewrite H, IH.
Qed.

Lemma test_nonempty_bos ic r s :
  test ic (Seq Bos r) s = nonempty (matches ic (Seq Bos r) true s).
Proof.
  unfold test.
  destruct s as [|c t]; cbn [search]; unfold match_here;
    destruct (matches ic (Seq Bos r) true _); simpl; trivial.
  now rewrite search_bos_later.
Qed.

(** A pattern [^A$] accepts a text when [A] can match all of it. *)
Lemma test_anchored ic A s :
  test ic (Seq Bos (Seq A Eos)) s =
  existsb (fun m => is_nil (m_rest m)) (matches ic A true s).
Proof.
  rewrite test_nonempty_bos. cbn [matches flat_map m_text m_rest is_nil andb].
  rewrite app_nil_r, nonempty_map, nonempty_flat_map.
  apply existsb_pointwise. intros m1. rewrite nonempty_map.
  now destruct (is_nil (m_rest m1)).
Qed.

(** The pattern of [isSimpleGreeting] accepts the texts that are one of the
    greeting words, case ignored. *)
Lemma test_greeting (s : jstring) :
  test true re_greeting s = existsb (fun w => whole_ci w s) greeting_words.
Proof.
  unfold re_greeting. rewrite test_anchored.
  cbn [matches]. rewrite existsb_map. cbn [m_rest].
  rewrite !existsb_app. cbn [greeting_words existsb]. unfold whole_ci.
  rewrite orb_false_r.
  repeat match goal with
  | |- context [lit_prefix true ?w s] =>
      destruct (lit_prefix true w s) as [[? [|? ?]]|]
  end; reflexivity.
Qed.

Lemma isSimpleGreeting_spec (message : jstring) :
  isSimpleGreeting message = greeting_spec message.
Proof.
  unfold isSimpleGreeting, greeting_spec. rewrite test_greeting.
  pose proof greeting_words_lowercase as L.
  induction L as [|w l Hw Hl IH]; simpl; trivial.
  rewrite IH. f_equal. now apply whole_ci_spec.
Qed.

End Prompt.

Section PromptClaims.
Import Chat.

Lemma fullPrompt_spec (systemPrompt : jstring) (messages : list Message)
    (message : jstring) :
  fullPrompt systemPrompt messages message =
  if greeting_spec message
  then systemPrompt ++ [LF; LF] ++ str "User: " ++ message
  else systemPrompt ++ [LF; LF] ++
       join [LF] (map format_message (slice_last 4 messages)) ++ [LF] ++
       str "User: " ++ message.
Proof.
  unfold fullPrompt. rewrite isSimpleGreeting_spec.
  now destruct (greeting_spec message).
Qed.

Lemma join_lines (sep : jstring) : forall l : list jstring,
  l <> [] -> join sep l ++ sep = concat (map (fun x => x ++ sep) l).
Proof.
  induction l as [|x l IH]; intros H; [congruence|].
  destruct l as [|y l].
  - cbn [join map concat]. now rewrite app_nil_r.
  - change (join sep (x :: y :: l)) with (x ++ sep ++ join sep (y :: l)).
    change (concat (map (fun x => x ++ sep) (x :: y :: l)))
      with ((x ++ sep) ++ concat (map (fun x => x ++ sep) (y :: l))).
    rewrite <- IH by discriminate. now rewrite <- !app_assoc.
Qed.

Lemma slice_last_short {A} (n : nat) (l : list A) :
  length l <= n -> slice_last n l = l.
Proof.
  intros H. unfold slice_last.
  replace (length l - n) with 0 by lia. reflexivity.
Qed.

Lemma slice_last_app {A} (older recent : list A) :
  slice_last (length recent) (older ++ recent) = recent.
Proof.
  unfold slice_last. rewrite length_app.
  replace (length older + length recent - length recent) with (length older + 0)
    by lia.
  rewrite skipn_app, Nat.add_0_r, skipn_all.
  replace (length older - length older) with 0 by lia. reflexivity.
Qed.

(** C1. A message whose trimmed text is, case ignored, one of the greeting
    words hey, hello, hi, sup, yo, greetings gets the prompt made of the
    system prompt, a blank line and the bare user line, whatever the prior
    messages are.  Every other message gets the prompt with the history: after
    the system prompt and the blank line come the lines of the prior messages,
    all of them when there are fewer than four and the last four otherwise,
    each followed by a newline, and then the user line; without prior
    messages a newline stands in their place. *)
Theorem C1_greeting_prompt (systemPrompt : jstring) (messages : list Message)
    (message : jstring) :
  let line := fun m : Message =>
    (if isUser m then str "User: " else str "Assistant: ") ++ text m in
  (greeting_spec message = true ->
   fullPrompt systemPrompt messages message =
     systemPrompt ++ [LF; LF] ++ str "User: " ++ message) /\
  (greeting_spec message = false ->
   (messages = [] ->
    fullPrompt systemPrompt messages message =
      systemPrompt ++ [LF; LF] ++ [LF] ++ str "User: " ++ message) /\
   (forall m1, messages = [m1] ->
    fullPrompt systemPrompt messages message =
      systemPrompt ++ [LF; LF] ++ line m1 ++ [LF] ++ str "User: " ++ message) /\
   (forall m1 m2, messages = [m1; m2] ->
    fullPrompt systemPrompt messages message =
      systemPrompt ++ [LF; LF] ++ line m1 ++ [LF] ++ line m2 ++ [LF] ++
      str "User: " ++ message) /\
   (forall m1 m2 m3, messages = [m1; m2; m3] ->
    fullPrompt systemPrompt messages message =
      systemPrompt ++ [LF; LF] ++ line m1 ++ [LF] ++ line m2 ++ [LF] ++
      line m3 ++ [LF] ++ str "User: " ++ message) /\
   (forall older m1 m2 m3 m4, messages = older ++ [m1; m2; m3; m4] ->
    fullPrompt systemPrompt messages message =
      systemPrompt ++ [LF; LF] ++ line m1 ++ [LF] ++ line m2 ++ [LF] ++
      line m3 ++ [LF] ++ line m4 ++ [LF] ++ str "User: " ++ message)).
Proof.
  intros line. rewrite fullPrompt_spec. split.
  - now intros ->.
  - intros ->.
    assert (L : forall m, format_message m = line m).
    { intros m. unfold format_message, line.
      destruct (isUser m); reflexivity. }
    split; [|split; [|split; [|split]]].
    + now intros ->.
    + intros m1 ->. cbn [slice_last length Nat.sub skipn map join].
      now rewrite L.
    + intros m1 m2 ->. cbn [slice_last length Nat.sub skipn map join].
      rewrite !L. now rewrite <- !app_assoc.
    + intros m1 m2 m3 ->. cbn [slice_last length Nat.sub skipn map join].
      rewrite !L. now rewrite <- !app_assoc.
    + intros older m1 m2 m3 m4 ->.
      change 4 with (length [m1; m2; m3; m4]).
      rewrite (slice_last_app older [m1; m2; m3; m4]).
      cbn [map join]. rewrite !L. now rewrite <- !app_assoc.
Qed.

Lemma slice_last_split {A} (n : nat) (l : list A) :
  l = firstn (length l - n) l ++ slice_last n l /\
  length (slice_last n l) = Nat.min n (length l).
Proof.
  unfold slice_last. split.
  - symmetry. apply firstn_skipn.
  - rewrite length_skipn. lia.
Qed.

(** C4. For a message that is not a greeting the prompt is the system
    prompt, a blank line, the last four prior messages at most, each as
    "User: text" or "Assistant: text" on a line of its own, and then the
    new "User: message" line right after the last of them; the messages
    before the last four have no part in it.  Without prior messages an
    empty line stands between the blank line and the user line. *)
Theorem C4_history_window (systemPrompt : jstring) (messages : list Message)
    (message : jstring) :
  greeting_spec message = false ->
  exists older recent,
    messages = older ++ recent /\
    length recent = Nat.min 4 (length messages) /\
    fullPrompt systemPrompt messages message =
      systemPrompt ++ [LF; LF] ++
      match recent with
      | [] => [LF]
      | _ :: _ =>
          concat (map (fun msg =>
                         (if isUser msg then str "User: " else str "Assistant: ")
                         ++ text msg ++ [LF]) recent)
      end ++
      str "User: " ++ message /\
    fullPrompt systemPrompt messages message =
      fullPrompt systemPrompt recent message.
Proof.
  intros H. exists (firstn (length messages - 4) messages), (slice_last 4 messages).
  destruct (slice_last_split 4 messages) as [H1 H2].
  split; [exact H1|]. split; [exact H2|]. split.
  - rewrite fullPrompt_spec, H. f_equal. f_equal.
    destruct (slice_last 4 messages) as [|m l] eqn:E; [reflexivity|].
    rewrite (app_assoc (join _ _)).
    rewrite join_lines by discriminate. rewrite map_map. f_equal. f_equal.
    apply map_ext. intros msg. unfold format_message.
    destruct (isUser msg); now rewrite <- !app_assoc.
  - rewrite !fullPrompt_spec, H.
    rewrite (slice_last_short 4 (slice_last 4 messages)); [reflexivity|].
    rewrite H2. lia.
Qed.

Lemma C4_history_window_witness :
  greeting_spec (str "and the laws?") = false /\
  fullPrompt (str "SYS") Sample.history (str "and the laws?") =
    str "SYS" ++ [LF; LF] ++
    str "User: what is a monad" ++ [LF] ++
    str "Assistant: A monad is a monoid." ++ [LF] ++
    str "User: in which category" ++ [LF] ++
    str "Assistant: Endofunctors." ++ [LF] ++
    str "User: and the laws?".
Proof.
  assert (G : greeting_spec (str "and the laws?") = false)
    by (vm_compute; reflexivity).
  split; [exact G|].
  destruct (C4_history_window (str "SYS") Sample.history (str "and the laws?") G)
    as [older [recent [H1 [H2 [H3 _]]]]].
  assert (R : recent = skipn 1 Sample.history).
  { assert (L : length older = 1)
      by (apply (f_equal (@length _)) in H1; rewrite length_app, H2 in H1;
          cbn in H1; lia).
    apply (f_equal (skipn 1)) in H1. rewrite <- L in H1 at 2.
    rewrite skipn_app, skipn_all, Nat.sub_diag in H1. cbn [skipn app] in H1.
    symmetry. exact H1. }
  rewrite H3, R. vm_compute. reflexivity.
Defined.

End PromptClaims.

(* ------------------------------------------------------------------ *)
(** ** Message ids *)

Section Ids.
Import Chat.

Lemma uint_chars_inj : forall u v, uint_chars u = uint_chars v -> u = v.
Proof.
  induction u as [|u IH|u IH|u IH|u IH|u IH|u IH|u IH|u IH|u IH|u IH];
    intros [|v|v|v|v|v|v|v|v|v|v] H; simpl in H;
    try discriminate; try reflexivity;
    inversion H as [H']; f_equal; now apply IH.
Qed.

Lemma uint_chars_digits : forall u, Forall (fun c => (48 <= c <= 57)%N) (uint_chars u).
Proof.
  induction u; simpl; constructor; trivial; lia.
Qed.

Lemma dec_N_inj (a b : N) : dec_N a = dec_N b -> a = b.
Proof.
  unfold dec_N. intros H. apply uint_chars_inj in H.
  now apply DecimalN.Unsigned.to_uint_inj.
Qed.

Lemma dec_N_no_underscore (n : N) : ~ In UNDERSCORE (dec_N n).
Proof.
  unfold dec_N. intros H.
  pose proof (uint_chars_digits (N.to_uint n)) as D.
  rewrite Forall_forall in D. apply D in H. unfold UNDERSCORE in H. lia.
Qed.

Lemma dec_Z_no_underscore (z : Z) : ~ In UNDERSCORE (dec_Z z).
Proof.
  unfold dec_Z. intros H.
  assert (D : forall u, ~ In UNDERSCORE (uint_chars u)).
  { intros u Hu. pose proof (uint_chars_digits u) as D.
    rewrite Forall_forall in D. apply D in Hu. unfold UNDERSCORE in Hu. lia. }
  destruct (Z.to_int z) as [u|u].
  - now apply (D u).
  - destruct H as [H|H]; [discriminate|now apply (D u)].
Qed.

(** Two texts cut at their last occurrence of a separator agree on what
    follows it. *)
Lemma last_separator (u : cu) : forall a a' b b',
  ~ In u b -> ~ In u b' -> a ++ u :: b = a' ++ u :: b' -> b = b'.
Proof.
  induction a as [|x a IH]; intros [|y a'] b b' Hb Hb' H; simpl in H.
  - now inversion H.
  - inversion H; subst. exfalso. apply Hb. apply in_or_app. right. now left.
  - inversion H; subst. exfalso. apply Hb'. apply in_or_app. right. now left.
  - inversion H; subst. now apply (IH a' b b').
Qed.

Lemma make_id_counter (t1 t2 : Z) (c1 c2 : N) :
  make_id t1 c1 = make_id t2 c2 -> c1 = c2.
Proof.
  unfold make_id. intros H. apply dec_N_inj.
  change (str "_") with [UNDERSCORE] in H.
  rewrite !app_assoc in H.
  rewrite <- (app_assoc _ [UNDERSCORE] (dec_N c1)) in H.
  rewrite <- (app_assoc _ [UNDERSCORE] (dec_N c2)) in H.
  simpl ([UNDERSCORE] ++ _) in H.
  eapply last_separator; [| |exact H]; apply dec_N_no_underscore.
Qed.

Lemma increment_below (c : N) :
  (c < COUNTER_LIMIT)%N -> increment c = (c + 1)%N.
Proof. intros H. unfold increment. apply N.ltb_lt in H. now rewrite H. Qed.

Lemma increment_limit : increment COUNTER_LIMIT = COUNTER_LIMIT.
Proof. vm_compute. reflexivity. Qed.

Lemma increment_ge (c : N) : (c <= increment c)%N.
Proof.
  unfold increment. destruct (c <? COUNTER_LIMIT)%N; [lia|].
  destruct ((c <? 2 * COUNTER_LIMIT) && N.odd (c / 2))%N; lia.
Qed.

(** The counter after [n] calls: it counts up to 2^53 and stays there. *)
Lemma counter_after_calls (n : N) :
  N.iter n increment 0%N = N.min n COUNTER_LIMIT.
Proof.
  induction n as [|n IH] using N.peano_ind; [reflexivity|].
  rewrite N.iter_succ, IH.
  destruct (N.lt_ge_cases n COUNTER_LIMIT) as [L|L].
  - rewrite (N.min_l n) by lia. rewrite increment_below by exact L.
    rewrite N.min_l by lia. lia.
  - rewrite (N.min_r n) by exact L. rewrite increment_limit.
    rewrite N.min_r by lia. reflexivity.
Qed.

Lemma generate_ids_later : forall clocks c i,
  (c + N.of_nat (length clocks) <= COUNTER_LIMIT)%N ->
  In i (generate_ids clocks c) -> exists now k, i = make_id now k /\ (c < k)%N.
Proof.
  induction clocks as [|now rest IH]; intros c i B H; [contradiction|].
  cbn [length] in B. rewrite Nat2N.inj_succ in B.
  cbn [generate_ids generateId] in H.
  rewrite increment_below in H by lia.
  destruct H as [<-|H].
  - exists now, (c + 1)%N. split; [reflexivity|lia].
  - apply IH in H; [|lia].
    destruct H as [t [k [-> Hk]]]. exists t, k. split; [reflexivity|lia].
Qed.

Lemma generate_ids_NoDup : forall clocks c,
  (c + N.of_nat (length clocks) <= COUNTER_LIMIT)%N ->
  NoDup (generate_ids clocks c).
Proof.
  induction clocks as [|now rest IH]; intros c B; [constructor|].
  cbn [length] in B. rewrite Nat2N.inj_succ in B.
  cbn [generate_ids generateId]. rewrite increment_below by lia.
  constructor.
  - intros H. apply generate_ids_later in H; [|lia].
    destruct H as [t [k [E Hk]]]. apply make_id_counter in E. lia.
  - apply IH. lia.
Qed.

Lemma findIndex_unique (sid : jstring) : forall (msgs : list Message) k m,
  NoDup (map id msgs) -> nth_error msgs k = Some m -> id m = sid ->
  findIndex (fun msg => jeqb (id msg) sid) msgs = Some k.
Proof.
  induction msgs as [|x msgs IH]; intros k m N H E.
  - destruct k; discriminate.
  - simpl in N. inversion N as [|? ? Hx N']; subst. destruct k as [|k]; simpl in *.
    + inversion H; subst. now rewrite jeqb_refl.
    + destruct (jeqb (id x) (id m)) eqn:J.
      * apply jeqb_true in J. exfalso. apply Hx. rewrite J.
        apply in_map. eapply nth_error_In; eauto.
      * now rewrite (IH k m N' H eq_refl).
Qed.

Lemma update_at_nth {A} (f : A -> A) : forall (l : list A) k x,
  nth_error l k = Some x ->
  update_at k f l = firstn k l ++ f x :: skipn (S k) l.
Proof.
  induction l as [|y l IH]; intros [|k] x H; simpl in *; try discriminate.
  - now inversion H.
  - f_equal. now apply IH.
Qed.

(** C10, as far as it holds.  Neither number in an id holds an underscore,
    so two ids with different counter values differ, whatever the clock says.
    Below 2^53 a call of [generateId] raises the counter by one, so the ids
    of a run of calls that ends at 2^53 at the latest are pairwise distinct,
    and in a message list whose ids come from such a run the update of the
    streaming message changes the one message that carries the id and no
    other.  The counter after [n] calls is [n] up to 2^53 and 2^53 from then
    on. *)
Theorem C10_generated_ids_distinct (clocks : list Z) (c0 : N) :
  (c0 + N.of_nat (length clocks) <= COUNTER_LIMIT)%N ->
  (forall t c, ~ In UNDERSCORE (dec_Z t) /\ ~ In UNDERSCORE (dec_N c)) /\
  (forall t1 t2 c1 c2, c1 <> c2 -> make_id t1 c1 <> make_id t2 c2) /\
  (forall now c, (c < COUNTER_LIMIT)%N ->
                 snd (generateId now c) = (c + 1)%N /\
                 fst (generateId now c) = make_id now (c + 1)) /\
  (forall n, N.iter n increment 0%N = N.min n COUNTER_LIMIT) /\
  NoDup (generate_ids clocks c0) /\
  (forall msgs k m f,
     map id msgs = generate_ids clocks c0 ->
     nth_error msgs k = Some m ->
     update_streaming (id m) f msgs =
       firstn k msgs ++ with_text f m :: skipn (S k) msgs).
Proof.
  intros B. split; [|split; [|split; [|split; [|split]]]].
  - intros t c. split; [apply dec_Z_no_underscore|apply dec_N_no_underscore].
  - intros t1 t2 c1 c2 Hne E. apply Hne. eapply make_id_counter; eauto.
  - intros now c Hc. unfold generateId. cbn [fst snd].
    now rewrite increment_below.
  - apply counter_after_calls.
  - now apply generate_ids_NoDup.
  - intros msgs k m f Hids Hk. unfold update_streaming.
    rewrite (findIndex_unique (id m) msgs k m); trivial.
    + now apply update_at_nth.
    + rewrite Hids. now apply generate_ids_NoDup.
Qed.

Lemma C10_generated_ids_distinct_witness :
  (0 + N.of_nat (length [1700000000000%Z; 1700000000000%Z]) <= COUNTER_LIMIT)%N /\
  map id [Sample.asked; Sample.partial]
    = generate_ids [1700000000000%Z; 1700000000000%Z] 0 /\
  nth_error [Sample.asked; Sample.partial] 1 = Some Sample.partial /\
  update_streaming (id Sample.partial) (fun t => t ++ str "lo")
                   [Sample.asked; Sample.partial] =
    [Sample.asked;
     mkMessage (make_id 1700000000000 2) (str "Hello") false 1700000000000].
Proof.
  assert (B : (0 + N.of_nat (length [1700000000000%Z; 1700000000000%Z])
               <= COUNTER_LIMIT)%N) by (vm_compute; discriminate).
  assert (H1 : map id [Sample.asked; Sample.partial]
               = generate_ids [1700000000000%Z; 1700000000000%Z] 0)
    by reflexivity.
  assert (H2 : nth_error [Sample.asked; Sample.partial] 1 = Some Sample.partial)
    by reflexivity.
  split; [exact B|]. split; [exact H1|]. split; [exact H2|].
  exact (proj2 (proj2 (proj2 (proj2 (proj2
           (C10_generated_ids_distinct [1700000000000%Z; 1700000000000%Z] 0 B)))))
           [Sample.asked; Sample.partial] 1 Sample.partial
           (fun t => t ++ str "lo") H1 H2).
Defined.

(** Ids that repeat: once the counter stands at 2^53, where it is after 2^53
    calls, the next call leaves it there, as [x + 1] on the binary64 value
    does, and two calls in the same millisecond return the same id. *)
Lemma C10_ids_repeat_at_limit :
  N.iter COUNTER_LIMIT increment 0%N = COUNTER_LIMIT /\
  (9007199254740992 + 1)%float = 9007199254740992%float /\
  generateId 1700000000000 COUNTER_LIMIT =
    (str "msg_1700000000000_9007199254740992", COUNTER_LIMIT) /\
  generate_ids [1700000000000%Z; 1700000000000%Z] COUNTER_LIMIT =
    [str "msg_1700000000000_9007199254740992";
     str "msg_1700000000000_9007199254740992"] /\
  ~ NoDup (generate_ids [1700000000000%Z; 1700000000000%Z] COUNTER_LIMIT).
Proof.
  split; [|split; [|split; [|split]]].
  - rewrite counter_after_calls. apply N.min_id.
  - vm_compute. reflexivity.
  - vm_compute. reflexivity.
  - vm_compute. reflexivity.
  - intros H. inversion H as [|x l Hx Hl]; subst. apply Hx. now left.
Qed.

End Ids.

(* ------------------------------------------------------------------ *)
(** ** The streaming message *)

Section Streaming.
Import Chat LlamaConfig.

Lemma findIndex_last {A} (p : A -> bool) : forall (prev : list A) (x : A),
  Forall (fun y => p y = false) prev -> p x = true ->
  findIndex p (prev ++ [x]) = Some (length prev).
Proof.
  induction prev as [|y prev IH]; intros x F Hx; simpl.
  - now rewrite Hx.
  - inversion F as [|? ? Hy F']; subst. rewrite Hy. now rewrite IH.
Qed.

Lemma update_at_last {A} (f : A -> A) : forall (prev : list A) (x : A),
  update_at (length prev) f (prev ++ [x]) = prev ++ [f x].
Proof.
  induction prev as [|y prev IH]; intros x; simpl; trivial. now rewrite IH.
Qed.

Lemma update_streaming_last sid f prev m :
  Forall (fun y => id y <> sid) prev -> id m = sid ->
  update_streaming sid f (prev ++ [m]) = prev ++ [with_text f m].
Proof.
  intros F E. unfold update_streaming.
  rewrite findIndex_last.
  - apply update_at_last.
  - eapply Forall_impl; [|exact F]. intros y Hy. simpl in Hy.
    destruct (jeqb (id y) sid) eqn:J; trivial. now apply jeqb_true in J.
  - now apply jeqb_true.
Qed.

(** Every token that arrives is appended to the streaming message. *)
Lemma stream_tokens sid prev b ts l e sp c : forall toks t0,
  Forall (fun y => id y <> sid) prev ->
  fold_left (onToken sid) toks (mkState (prev ++ [mkMessage sid t0 b ts]) l e sp c) =
  mkState (prev ++ [mkMessage sid (t0 ++ concat toks) b ts]) l e sp c.
Proof.
  induction toks as [|tok toks IH]; intros t0 F; simpl.
  - now rewrite app_nil_r.
  - unfold onToken at 2. destruct tok as [|x tok]; simpl truthy; cbv iota.
    + simpl. now apply IH.
    + unfold setMessages. cbn [messages isLoading error systemPrompt messageIdCounter].
      rewrite update_streaming_last; trivial.
      unfold with_text. cbn [id text isUser timestamp].
      rewrite IH; trivial. now rewrite <- app_assoc.
Qed.

Lemma ids_issued_fresh (st : State) (clock : Z) :
  ids_issued st -> (messageIdCounter st < COUNTER_LIMIT)%N ->
  Forall (fun m => id m <> make_id clock (increment (messageIdCounter st)))
         (messages st).
Proof.
  unfold ids_issued. intros H B. rewrite increment_below by exact B.
  eapply Forall_impl; [|exact H].
  intros m [now [c [E Hc]]] E'. rewrite E in E'.
  apply make_id_counter in E'. lia.
Qed.

Lemma trim_NO_RESPONSE : trim NO_RESPONSE = NO_RESPONSE.
Proof. reflexivity. Qed.

(** What [sendMessage] returns is never blank. *)
Lemma sendMessage_result_trimmed (t : option jstring) :
  sendMessage_result t <> [] /\
  trim (sendMessage_result t) = sendMessage_result t.
Proof.
  unfold sendMessage_result.
  set (input := match t with Some t0 => if truthy t0 then t0 else [] | None => [] end).
  destruct (truthy (cleanResponse input)) eqn:T.
  - split; [now apply truthy_true|]. unfold cleanResponse. apply trim_idem.
  - split; [discriminate|apply trim_NO_RESPONSE].
Qed.

Lemma response_accepted (t : option jstring) :
  truthy (sendMessage_result t) && truthy (trim (sendMessage_result t)) = true.
Proof.
  destruct (sendMessage_result_trimmed t) as [H1 H2].
  rewrite H2. apply truthy_true in H1. now rewrite H1.
Qed.

(** The state [createCompletion] reaches, spelled out. *)
Lemma createCompletion_eq context clock stamp rendered message st :
  Forall (fun m => id m <> make_id clock (increment (messageIdCounter st))) (messages st) ->
  let run := context (fullPrompt (systemPrompt st) rendered message) in
  let sid := make_id clock (increment (messageIdCounter st)) in
  createCompletion context clock stamp rendered message st =
  match outcome run with
  | Resolves t =>
      (Some (sendMessage_result t),
       mkState (messages st ++ [mkMessage sid (sendMessage_result t) false stamp])
               false None (systemPrompt st) (increment (messageIdCounter st)))
  | Rejects e =>
      (None,
       mkState (messages st ++ [mkMessage sid (concat (tokens run)) false stamp])
               false (Some (error_text e)) (systemPrompt st)
               (increment (messageIdCounter st)))
  end.
Proof.
  intros F run sid. unfold createCompletion, generateId.
  change (messageIdCounter (setError None (setIsLoading true st)))
    with (messageIdCounter st).
  fold run. fold sid.
  assert (E : fold_left (onToken sid) (tokens run)
                (setMessages (fun prev => prev ++ [mkMessage sid [] false stamp])
                   (setCounter (increment (messageIdCounter st))
                      (setError None (setIsLoading true st)))) =
              mkState (messages st ++ [mkMessage sid (concat (tokens run)) false stamp])
                      true None (systemPrompt st) (increment (messageIdCounter st))).
  { unfold setMessages, setCounter, setError, setIsLoading.
    cbn [messages isLoading error systemPrompt messageIdCounter].
    now rewrite stream_tokens. }
  rewrite E. clear E. destruct (outcome run) as [t|e].
  - rewrite response_accepted.
    unfold setMessages, setIsLoading.
    cbn [messages isLoading error systemPrompt messageIdCounter].
    rewrite update_streaming_last; trivial.
  - reflexivity.
Qed.

End Streaming.

Section CompletionClaims.
Import Chat LlamaConfig.

(** The ids stay issued ids along [createCompletion], so the id of the next
    streaming message is always fresh. *)
Lemma createCompletion_ids_issued context clock stamp rendered message st :
  ids_issued st -> (messageIdCounter st < COUNTER_LIMIT)%N ->
  ids_issued (snd (createCompletion context clock stamp rendered message st)).
Proof.
  intros H B. rewrite createCompletion_eq by now apply ids_issued_fresh.
  pose proof (increment_ge (messageIdCounter st)) as G0.
  assert (G : forall txt l e,
    ids_issued (mkState (messages st ++
                  [mkMessage (make_id clock (increment (messageIdCounter st))) txt
                             false stamp])
                  l e (systemPrompt st) (increment (messageIdCounter st)))).
  { intros txt l e. unfold ids_issued in *. cbn [messages messageIdCounter].
    apply Forall_app. split.
    - eapply Forall_impl; [|exact H]. intros m [now [c [E Hc]]].
      exists now, c. split; [exact E|lia].
    - constructor; [|constructor].
      exists clock, (increment (messageIdCounter st)).
      split; [reflexivity|lia]. }
  destruct (outcome _); cbn [snd]; apply G.
Qed.

(** ... and along [handleSend], and in the state with the welcome message;
    so in every state the component reaches before the counter is at its
    limit. *)
Lemma handleSend_ids_issued context clock_user stamp_user clock stamp inputText st :
  ids_issued st -> (messageIdCounter st + 2 <= COUNTER_LIMIT)%N ->
  ids_issued (handleSend context clock_user stamp_user clock stamp inputText st).
Proof.
  intros H B. unfold handleSend.
  destruct (negb (truthy (trim inputText)) || isLoading st); [exact H|].
  cbn [generateId]. rewrite increment_below by lia.
  apply createCompletion_ids_issued.
  - unfold ids_issued in *. unfold setMessages, setCounter.
    cbn [messages messageIdCounter]. apply Forall_app. split.
    + eapply Forall_impl; [|exact H]. intros m [now [c [E Hc]]].
      exists now, c. split; [exact E|lia].
    + constructor; [|constructor]. exists clock_user, (messageIdCounter st + 1)%N.
      split; [reflexivity|lia].
  - unfold setMessages, setCounter. cbn [messageIdCounter]. lia.
Qed.

Lemma welcome_ids_issued : ids_issued Sample.st0.
Proof.
  unfold ids_issued. repeat constructor.
  exists 1700000000000%Z, 1%N. split; [reflexivity|cbn; lia].
Qed.

Lemma error_setIsLoading b st : error (setIsLoading b st) = error st.
Proof. reflexivity. Qed.

Lemma error_setMessages f st : error (setMessages f st) = error st.
Proof. reflexivity. Qed.

Lemma error_onTokens sid : forall toks st,
  error (fold_left (onToken sid) toks st) = error st.
Proof.
  induction toks as [|x l IH]; intros st; simpl; trivial.
  rewrite IH. unfold onToken. now destruct (truthy x).
Qed.



(** C9. What [sendMessage] returns when the completion resolves is never
    empty and never blank: it is the trimmed cleaned text when that is not
    empty and the placeholder "No response generated" otherwise; so the test
    [response && response.trim()] of [createCompletion] always succeeds, the
    response is returned and no error is set. *)
Theorem C9_response_never_blank (msgResult_text : option jstring) :
  let cleaned := cleanResponse (match msgResult_text with
                                | Some x => x
                                | None => []
                                end) in
  let response := sendMessage_result msgResult_text in
  response = (if truthy cleaned then cleaned else str "No response generated") /\
  response <> [] /\
  trim response = response /\
  trim response <> [] /\
  truthy response && truthy (trim response) = true /\
  forall toks clock stamp rendered message st,
    let r := createCompletion (fun _ => mkCompletion toks (Resolves msgResult_text))
                              clock stamp rendered message st in
    fst r = Some response /\ error (snd r) = None.
Proof.
  intros cleaned response.
  destruct (sendMessage_result_trimmed msgResult_text) as [H1 H2].
  fold response in H1, H2.
  split; [|split; [exact H1|split; [exact H2|split; [now rewrite H2|split]]]].
  - subst response cleaned. unfold sendMessage_result.
    replace (match msgResult_text with
             | Some t0 => if truthy t0 then t0 else []
             | None => [] end)
      with (match msgResult_text with Some x => x | None => [] end)
      by (destruct msgResult_text as [[|? ?]|]; reflexivity).
    reflexivity.
  - apply response_accepted.
  - intros toks clock stamp rendered message st r. subst r response.
    unfold createCompletion, generateId. cbn [outcome tokens].
    rewrite (response_accepted msgResult_text).
    split; [reflexivity|].
    cbn [snd]. rewrite error_setIsLoading, error_setMessages, error_onTokens.
    reflexivity.
Qed.

End CompletionClaims.

(* ------------------------------------------------------------------ *)
(** ** Model provisioning *)

Section Provisioning.
Import App.

Lemma fs_write_same p c f : fs_write p c f p = Some c.
Proof. unfold fs_write. now rewrite jeqb_refl. Qed.

Lemma fs_remove_same p f : fs_remove p f p = None.
Proof. unfold fs_remove. now rewrite jeqb_refl. Qed.

(** The download step and what follows it. *)
Lemma download_and_load_eq env url path s :
  download_and_load env url path s =
  match remote env url with
  | FetchThrows m =>
      mkScreen (context s) false (Some m) (fs s) (trace s ++ [Download url path])
  | NoResult =>
      mkScreen (context s) false (Some DOWNLOAD_FAILED) (fs s)
               (trace s ++ [Download url path])
  | Fetched c =>
      mkScreen (match initLlama env c with Some ctx => Some ctx | None => context s end)
               false
               (match initLlama env c with
                | Some _ => error s
                | None => Some (load_error env)
                end)
               (fs_write path c (fs s))
               ((trace s ++ [Download url path]) ++ [LoadModel path])
  end.
Proof.
  unfold download_and_load. destruct (remote env url) as [c| |m]; trivial.
  unfold loadModel. cbn [fs setFs log]. rewrite fs_write_same.
  destruct (initLlama env c); reflexivity.
Qed.

Lemma downloadModel_failed_load env url path s c :
  fs s path = Some c -> initLlama env c = None ->
  downloadModel env url path s =
  download_and_load env url path
    (mkScreen (context s) (loading s) (error s)
              (if deletable env path then fs_remove path (fs s) else fs s)
              (trace s ++ [GetInfo path; LoadModel path; DeleteFile path])).
Proof.
  intros Hf Hl. unfold downloadModel, loadModel. cbn [log fs trace].
  rewrite Hf, Hl. f_equal.
  destruct (deletable env path); unfold setFs, log;
    cbn [context loading error fs trace]; now rewrite <- !app_assoc.
Qed.

Lemma Single_downloadModel_failed_load env url path s c :
  fs s path = Some c -> initLlama env c = None ->
  Single.downloadModel env url path s =
  download_and_load env url path
    (mkScreen (context s) (loading s) (error s) (fs s)
              (trace s ++ [GetInfo path; LoadModel path])).
Proof.
  intros Hf Hl. unfold Single.downloadModel, loadModel. cbn [log fs trace].
  rewrite Hf, Hl. f_equal. unfold log.
  cbn [context loading error fs trace]. now rewrite <- !app_assoc.
Qed.

(** C6, on the screen with the model selector: when the file is there and
    does not load, the calls are the existence check, the load, the delete,
    the download from the model's URL and, if the download returns a file,
    the load of that file, whose outcome is the outcome of the screen; the
    old file is gone before the download when the delete succeeds.  On the
    single-model screen the same situation leads to the download without any
    delete, and the old file is still in place when the download returns
    nothing. *)
Theorem C6_reload_after_failed_load (env : Env) (url path : jstring)
    (s : Screen) (c : content) :
  fs s path = Some c -> initLlama env c = None ->
  (let s' := downloadModel env url path s in
   match remote env url with
   | Fetched c' =>
       trace s' = trace s ++ [GetInfo path; LoadModel path; DeleteFile path;
                              Download url path; LoadModel path] /\
       fs s' path = Some c' /\
       match initLlama env c' with
       | Some ctx => context s' = Some ctx /\ error s' = error s
       | None => context s' = context s /\ error s' = Some (load_error env)
       end
   | _ =>
       trace s' = trace s ++ [GetInfo path; LoadModel path; DeleteFile path;
                              Download url path] /\
       fs s' path = (if deletable env path then None else Some c) /\
       error s' <> None
   end) /\
  (let s' := Single.downloadModel env url path s in
   ~ In (DeleteFile path) (skipn (length (trace s)) (trace s')) /\
   match remote env url with
   | Fetched c' =>
       trace s' = trace s ++ [GetInfo path; LoadModel path;
                              Download url path; LoadModel path] /\
       fs s' path = Some c'
   | _ =>
       trace s' = trace s ++ [GetInfo path; LoadModel path; Download url path] /\
       fs s' path = Some c
   end).
Proof.
  intros Hf Hl. split.
  - rewrite (downloadModel_failed_load env url path s c Hf Hl).
    rewrite download_and_load_eq. cbn [context loading error fs trace].
    destruct (remote env url) as [c'| |m]; cbn [context loading error fs trace].
    + rewrite <- !app_assoc. split; [reflexivity|].
      rewrite fs_write_same. split; [reflexivity|].
      destruct (initLlama env c'); now split.
    + rewrite <- !app_assoc. split; [reflexivity|].
      destruct (deletable env path); rewrite ?fs_remove_same, ?Hf; now split.
    + rewrite <- !app_assoc. split; [reflexivity|].
      destruct (deletable env path); rewrite ?fs_remove_same, ?Hf; now split.
  - rewrite (Single_downloadModel_failed_load env url path s c Hf Hl).
    rewrite download_and_load_eq. cbn [context loading error fs trace].
    assert (N : forall tail, ~ In (DeleteFile path) tail ->
              ~ In (DeleteFile path)
                  (skipn (length (trace s)) (trace s ++ tail))).
    { intros tail Ht. rewrite skipn_app, skipn_all, Nat.sub_diag. exact Ht. }
    destruct (remote env url) as [c'| |m]; cbn [context loading error fs trace];
      rewrite <- !app_assoc; cbn [app];
      (split; [apply N; cbn [In]; intuition discriminate|]);
      rewrite ?fs_write_same, ?Hf; now split.
Qed.

End Provisioning.

Section ProvisioningExamples.
Import App.

Lemma C6_reload_after_failed_load_witness :
  fs SampleApp.corrupt SampleApp.path = Some 0%N /\
  initLlama SampleApp.env 0%N = None /\
  trace (downloadModel SampleApp.env SampleApp.url SampleApp.path SampleApp.corrupt)
    = [GetInfo SampleApp.path; LoadModel SampleApp.path;
       DeleteFile SampleApp.path;
       Download SampleApp.url SampleApp.path; LoadModel SampleApp.path] /\
  context (downloadModel SampleApp.env SampleApp.url SampleApp.path SampleApp.corrupt)
    = Some 7%N.
Proof.
  assert (Hf : fs SampleApp.corrupt SampleApp.path = Some 0%N) by reflexivity.
  assert (Hl : initLlama SampleApp.env 0%N = None) by reflexivity.
  split; [exact Hf|]. split; [exact Hl|].
  pose proof (proj1 (C6_reload_after_failed_load SampleApp.env SampleApp.url
                       SampleApp.path SampleApp.corrupt 0%N Hf Hl)) as H.
  cbn beta zeta in H. change (remote SampleApp.env SampleApp.url) with (Fetched 7%N) in H.
  cbv beta iota in H.
  change (initLlama SampleApp.env 7%N) with (Some 7%N) in H. cbv beta iota in H.
  destruct H as [H1 [_ [H2 _]]]. split; [exact H1|exact H2].
Defined.

(** The single-model screen, with a file that does not load and a download
    that returns nothing: the delete is never called and the file is still
    there afterwards. *)
Lemma C6_single_screen_never_deletes :
  fs SampleApp.corrupt SampleApp.path = Some 0%N /\
  initLlama SampleApp.env_offline 0%N = None /\
  trace (Single.downloadModel SampleApp.env_offline SampleApp.url SampleApp.path
           SampleApp.corrupt)
    = [GetInfo SampleApp.path; LoadModel SampleApp.path;
       Download SampleApp.url SampleApp.path] /\
  ~ In (DeleteFile SampleApp.path)
       (trace (Single.downloadModel SampleApp.env_offline SampleApp.url
                 SampleApp.path SampleApp.corrupt)) /\
  fs (Single.downloadModel SampleApp.env_offline SampleApp.url SampleApp.path
        SampleApp.corrupt) SampleApp.path = Some 0%N.
Proof.
  repeat split; try reflexivity.
  vm_compute. intros [H|[H|[H|[]]]]; discriminate.
Qed.

End ProvisioningExamples.

(* ------------------------------------------------------------------ *)
(** ** Download progress *)

Section Progress.
Import ModelDownloader.




Import DownloadResumable.



End Progress.

(* ------------------------------------------------------------------ *)
(** ** One round of [replace] *)

Section ReplaceFacts.

Lemma matches_no_bos ic r : no_bos r = true ->
  forall b s, matches ic r b s = matches ic r false s.
Proof.
  induction r as [| |w|p|p|p|r1 IH1 r2 IH2|r1 IH1 r2 IH2|r1 IH1];
    simpl; intros H b s; try reflexivity; try discriminate.
  - apply andb_true_iff in H. destruct H as [H1 H2].
    rewrite (IH1 H1 b s). apply flat_map_ext. intros m1.
    now rewrite (IH2 H2 (b && is_nil (m_text m1))).
  - apply andb_true_iff in H. destruct H as [H1 H2].
    now rewrite (IH1 H1 b s), (IH2 H2 b s).
  - now rewrite (IH1 H b s).
Qed.

Lemma match_here_no_bos ic r b s : no_bos r = true ->
  match_here ic r b s = match_here ic r false s.
Proof. intros H. unfold match_here. now rewrite matches_no_bos. Qed.

Lemma search_no_bos ic r b s : no_bos r = true ->
  search ic r b s = search ic r false s.
Proof.
  intros H. destruct s as [|c t]; simpl; now rewrite (match_here_no_bos ic r b _ H).
Qed.

Lemma replace_from_no_bos ic r f b s : no_bos r = true ->
  replace_from ic r f b s = replace_from ic r f false s.
Proof.
  intros H. rewrite (replace_from_eq ic r f b), (replace_from_eq ic r f false).
  now rewrite (search_no_bos ic r b s H).
Qed.

Lemma hd_error_app {A} (l1 l2 : list A) :
  hd_error (l1 ++ l2) =
  match hd_error l1 with Some x => Some x | None => hd_error l2 end.
Proof. now destruct l1. Qed.

Lemma hd_error_map {A B} (g : A -> B) (l : list A) :
  hd_error (map g l) = option_map g (hd_error l).
Proof. now destruct l. Qed.

(** The scan at a character: either a match starts here, or the character is
    copied and the scan goes on. *)
Lemma replace_from_cons ic r f b c t :
  replace_from ic r f b (c :: t) =
  match match_here ic r b (c :: t) with
  | Some m =>
      f m ++
      match m_text m with
      | [] => match m_rest m with
              | [] => []
              | c' :: t' => c' :: replace_from ic r f false t'
              end
      | _ :: _ => replace_from ic r f false (m_rest m)
      end
  | None => c :: replace_from ic r f false t
  end.
Proof.
  rewrite replace_from_eq. cbn [search].
  destruct (match_here ic r b (c :: t)) as [m|]; [reflexivity|].
  rewrite (replace_from_eq ic r f false t).
  destruct (search ic r false t) as [[pre m]|]; reflexivity.
Qed.

Lemma replace_from_nil ic r f b :
  match_here ic r b [] = None -> replace_from ic r f b [] = [].
Proof.
  intros H. rewrite replace_from_eq. cbn [search]. now rewrite H.
Qed.

(** A text in which the pattern matches nowhere is left as it is. *)
Lemma replace_from_none ic r f b s :
  search ic r b s = None -> replace_from ic r f b s = s.
Proof. intros H. rewrite replace_from_eq. now rewrite H. Qed.

Lemma test_false_search ic r s :
  test ic r s = false -> search ic r true s = None.
Proof. unfold test. now destruct (search ic r true s). Qed.

End ReplaceFacts.

(* ------------------------------------------------------------------ *)
(** ** The pass [/[ \t]+/g] *)

Section HSpace.
Import LlamaConfig.

Lemma star_greedy_head p : forall s,
  hd_error (star_greedy p s) = Some (takeWhile p s, dropWhile p s).
Proof.
  induction s as [|c t IH]; simpl; trivial.
  destruct (p c); [|reflexivity].
  rewrite hd_error_app, hd_error_map, IH. reflexivity.
Qed.

(** The match of [C+] at a position: the longest run of the class. *)
Lemma match_here_plus p b c t :
  match_here false (PlusGreedy p) b (c :: t) =
  if p c then Some (MRes (c :: takeWhile p t) [] (dropWhile p t)) else None.
Proof.
  unfold match_here, PlusGreedy. cbn [matches flat_map].
  destruct (p c); [|reflexivity].
  cbn [flat_map m_text m_caps m_rest]. rewrite app_nil_r, !hd_error_map.
  now rewrite star_greedy_head.
Qed.

Lemma match_here_plus_nil p b : match_here false (PlusGreedy p) b [] = None.
Proof. reflexivity. Qed.

Lemma runs_to_nil p by_ : runs_to p by_ [] = [].
Proof. unfold runs_to. now apply replace_from_nil. Qed.

Lemma runs_to_cons p by_ c t :
  runs_to p by_ (c :: t) =
  if p c then by_ ++ runs_to p by_ (dropWhile p t) else c :: runs_to p by_ t.
Proof.
  unfold runs_to. rewrite replace_from_cons, match_here_plus.
  destruct (p c); reflexivity.
Qed.

Lemma collapse_hspace_runs s : collapse_hspace s = runs_to is_hspace [SP] s.
Proof.
  unfold collapse_hspace, replace, replace_fun, runs_to.
  now apply replace_from_no_bos.
Qed.

End HSpace.

Section HSpaceFacts.
Import LlamaConfig.

Lemma length_ind (P : jstring -> Prop) :
  (forall s, (forall t, length t < length s -> P t) -> P s) -> forall s, P s.
Proof.
  intros H s. remember (length s) as n eqn:E.
  revert s E. induction n as [n IH] using lt_wf_ind.
  intros s E. apply H. intros t Ht. apply (IH (length t)); [lia|reflexivity].
Qed.

Lemma dropWhile_length p : forall s, length (dropWhile p s) <= length s.
Proof.
  induction s as [|c t IH]; simpl; [lia|]. destruct (p c); simpl; lia.
Qed.

Lemma hspace_ws c : is_hspace c = true -> is_ws c = true /\ (c =? LF)%N = false.
Proof.
  unfold is_hspace. intros H. apply orb_true_iff in H.
  destruct H as [H|H]; apply N.eqb_eq in H; subst; now split.
Qed.

Lemma nonws_nonhspace c : is_ws c = false -> is_hspace c = false.
Proof.
  intros H. destruct (is_hspace c) eqn:E; trivial.
  apply hspace_ws in E. destruct E as [E _]. congruence.
Qed.

Lemma LF_ws : is_ws LF = true.
Proof. reflexivity. Qed.

Lemma eqb_LF_ws c : (c =? LF)%N = true -> is_ws c = true.
Proof. intros H. apply N.eqb_eq in H. now subst. Qed.

Lemma dropWhile_head_is p s : head_is p (dropWhile p s) = false.
Proof.
  induction s as [|c t IH]; simpl; trivial.
  destruct (p c) eqn:E; trivial.
Qed.

Lemma dropWhile_id p s : head_is p s = false -> dropWhile p s = s.
Proof. destruct s as [|c t]; simpl; trivial. now intros ->. Qed.

Lemma chs_nil : chs [] = [].
Proof. apply runs_to_nil. Qed.

Lemma chs_cons c t :
  chs (c :: t) =
  if is_hspace c then SP :: chs (dropWhile is_hspace t) else c :: chs t.
Proof. unfold chs. now rewrite runs_to_cons. Qed.

Lemma collapse_hspace_chs s : collapse_hspace s = chs s.
Proof. apply collapse_hspace_runs. Qed.

Lemma runs_to_head p by_ s : head_is p s = false ->
  head_is p (runs_to p by_ s) = false.
Proof.
  destruct s as [|c t]; intros H.
  - now rewrite runs_to_nil.
  - rewrite runs_to_cons. simpl in H. now rewrite H.
Qed.

(** After the pass every character of the class is a single space. *)
Lemma runs_to_normal p : p SP = true ->
  forall s, runs_normal p (runs_to p [SP] s) = true.
Proof.
  intros HSP. induction s as [s IH] using length_ind. destruct s as [|c t].
  - now rewrite runs_to_nil.
  - rewrite runs_to_cons. destruct (p c) eqn:E.
    + cbn [app runs_normal]. rewrite HSP.
      rewrite N.eqb_refl, runs_to_head by apply dropWhile_head_is.
      rewrite IH; [reflexivity|]. simpl. pose proof (dropWhile_length p t). lia.
    + cbn [runs_normal]. rewrite E. apply IH. simpl. lia.
Qed.

(** A text in which every character of the class is a single space is left
    as it is. *)
Lemma runs_to_fixed p : forall s, runs_normal p s = true -> runs_to p [SP] s = s.
Proof.
  induction s as [|c t IH]; intros H.
  - now rewrite runs_to_nil.
  - rewrite runs_to_cons. cbn [runs_normal] in H.
    apply andb_true_iff in H. destruct H as [H1 H2].
    destruct (p c).
    + apply andb_true_iff in H1. destruct H1 as [Hc Hh].
      apply N.eqb_eq in Hc. subst c. apply negb_true_iff in Hh.
      rewrite dropWhile_id by exact Hh. simpl. now rewrite IH.
    + now rewrite IH.
Qed.

Lemma chs_normal s : hs_normal (chs s) = true.
Proof. now apply runs_to_normal. Qed.

Lemma chs_fixed s : hs_normal s = true -> chs s = s.
Proof. apply runs_to_fixed. Qed.

Lemma lead_nl_dropWhile_hspace : forall s,
  lead_nl (dropWhile is_hspace s) = lead_nl s.
Proof.
  induction s as [|c t IH]; simpl; trivial.
  destruct (is_hspace c) eqn:E; [|reflexivity].
  destruct (hspace_ws c E) as [W L]. now rewrite W, L, IH.
Qed.

(** The pass keeps the number of LF in the leading white-space run. *)
Lemma lead_nl_chs : forall s, lead_nl (chs s) = lead_nl s.
Proof.
  induction s as [s IH] using length_ind. destruct s as [|c t].
  - now rewrite chs_nil.
  - rewrite chs_cons. destruct (is_hspace c) eqn:E.
    + destruct (hspace_ws c E) as [W L].
      cbn [lead_nl]. rewrite W, L. change (is_ws SP) with true.
      change (SP =? LF)%N with false. cbv iota.
      rewrite IH by (simpl; pose proof (dropWhile_length is_hspace t); lia).
      now rewrite lead_nl_dropWhile_hspace.
    + cbn [lead_nl]. rewrite IH by (simpl; lia). reflexivity.
Qed.

Lemma nl_normal_tail c t : nl_normal (c :: t) = true -> nl_normal t = true.
Proof. simpl. intros H. apply andb_true_iff in H. tauto. Qed.

Lemma nl_normal_dropWhile p : forall s,
  nl_normal s = true -> nl_normal (dropWhile p s) = true.
Proof.
  induction s as [|c t IH]; simpl; trivial. intros H.
  destruct (p c); [|exact H]. apply IH. apply andb_true_iff in H. tauto.
Qed.

Lemma nl_normal_chs : forall s, nl_normal s = true -> nl_normal (chs s) = true.
Proof.
  induction s as [s IH] using length_ind. destruct s as [|c t]; intros H.
  - now rewrite chs_nil.
  - rewrite chs_cons. destruct (is_hspace c) eqn:E.
    + cbn [nl_normal]. change (SP =? LF)%N with false. cbn [andb negb].
      apply IH.
      * simpl. pose proof (dropWhile_length is_hspace t). lia.
      * apply nl_normal_dropWhile. eapply nl_normal_tail; eauto.
    + cbn [nl_normal] in *. rewrite lead_nl_chs.
      apply andb_true_iff in H. destruct H as [H1 H2].
      rewrite H1. apply IH; [simpl; lia|exact H2].
Qed.

Lemma dropWhile_app_keep p : forall s y,
  head_is p y = false -> dropWhile p (s ++ y) = dropWhile p s ++ y.
Proof.
  induction s as [|c t IH]; intros y H; simpl.
  - now apply dropWhile_id.
  - destruct (p c); [now apply IH|reflexivity].
Qed.

(** The pass works on the two sides of a position independently when the
    right side does not start with a character of the class. *)
Lemma runs_to_app p by_ : forall s y : jstring, head_is p y = false ->
  runs_to p by_ (s ++ y) = runs_to p by_ s ++ runs_to p by_ y.
Proof.
  induction s as [s IH] using length_ind. intros y H. destruct s as [|c t].
  - now rewrite runs_to_nil.
  - cbn [app]. rewrite !runs_to_cons. destruct (p c).
    + rewrite dropWhile_app_keep by exact H.
      rewrite IH; [now rewrite app_assoc| |exact H].
      simpl. pose proof (dropWhile_length p t). lia.
    + rewrite IH; [reflexivity|simpl; lia|exact H].
Qed.

Lemma chs_app (s y : jstring) : head_is is_hspace y = false ->
  chs (s ++ y) = chs s ++ chs y.
Proof. apply runs_to_app. Qed.

(** A run of the class between two other characters becomes the
    replacement. *)
Lemma runs_to_run p by_ : forall (w : jstring) (x : cu) (y : jstring),
  w <> [] -> forallb p w = true -> p x = false ->
  runs_to p by_ (w ++ x :: y) = by_ ++ x :: runs_to p by_ y.
Proof.
  intros [|c w] x y Hw Hall Hx; [congruence|].
  cbn [forallb] in Hall. apply andb_true_iff in Hall. destruct Hall as [Hc Hall].
  cbn [app]. rewrite runs_to_cons, Hc.
  assert (D : dropWhile p (w ++ x :: y) = x :: y).
  { clear Hw Hc. induction w as [|d w IH]; simpl.
    - now rewrite Hx.
    - cbn [forallb] in Hall. apply andb_true_iff in Hall.
      destruct Hall as [Hd Hall]. rewrite Hd. now apply IH. }
  rewrite D, runs_to_cons, Hx. reflexivity.
Qed.

End HSpaceFacts.

(* ------------------------------------------------------------------ *)
(** ** Stars and literals in sequence *)

Section SequenceFacts.

Lemma mres_eta m : MRes (m_text m) (m_caps m) (m_rest m) = m.
Proof. now destruct m. Qed.

Lemma map_mres_eta (l : list mres) :
  map (fun m2 => MRes (m_text m2) (m_caps m2) (m_rest m2)) l = l.
Proof.
  induction l as [|m l IH]; simpl; trivial. now rewrite IH, mres_eta.
Qed.

Lemma seq_splits_cons ic R c : forall L,
  flat_map
    (fun m1 => map (fun m2 => MRes (m_text m1 ++ m_text m2)
                                   (m_caps m1 ++ m_caps m2) (m_rest m2))
                   (matches ic R false (m_rest m1)))
    (map of_split (map (cons_fst c) L)) =
  map (prepend c)
    (flat_map
       (fun m1 => map (fun m2 => MRes (m_text m1 ++ m_text m2)
                                      (m_caps m1 ++ m_caps m2) (m_rest m2))
                      (matches ic R false (m_rest m1)))
       (map of_split L)).
Proof.
  induction L as [|x L IH]; simpl; trivial.
  rewrite map_app, IH. f_equal. rewrite map_map. reflexivity.
Qed.

(** [C*R] at a character: first with the character taken by the star, then
    [R] right here. *)
Lemma matches_greedy_cons ic p R c t :
  matches ic (Seq (StarGreedy p) R) false (c :: t) =
  (if p c then map (prepend c) (matches ic (Seq (StarGreedy p) R) false t) else [])
  ++ matches ic R false (c :: t).
Proof.
  cbn [matches star_greedy andb]. rewrite map_app, flat_map_app. f_equal.
  - destruct (p c); [|reflexivity]. apply seq_splits_cons.
  - cbn [map flat_map of_split fst snd m_text m_caps m_rest andb].
    rewrite app_nil_r. cbn [app]. apply map_mres_eta.
Qed.

Lemma matches_greedy_nil ic p R :
  matches ic (Seq (StarGreedy p) R) false [] = matches ic R false [].
Proof.
  cbn [matches star_greedy app map flat_map of_split fst snd m_text m_caps m_rest andb].
  rewrite app_nil_r. apply map_mres_eta.
Qed.

(** [C*?R] at a character: first [R] right here, then with the character
    taken by the star. *)
Lemma matches_lazy_cons ic p R c t :
  matches ic (Seq (StarLazy p) R) false (c :: t) =
  matches ic R false (c :: t) ++
  (if p c then map (prepend c) (matches ic (Seq (StarLazy p) R) false t) else []).
Proof.
  cbn [matches star_lazy map flat_map of_split fst snd m_text m_caps m_rest andb app].
  rewrite map_mres_eta. f_equal.
  destruct (p c); [|reflexivity]. apply seq_splits_cons.
Qed.

Lemma matches_lazy_nil ic p R :
  matches ic (Seq (StarLazy p) R) false [] = matches ic R false [].
Proof.
  cbn [matches star_lazy app map flat_map of_split fst snd m_text m_caps m_rest andb].
  rewrite app_nil_r. apply map_mres_eta.
Qed.

(** A literal, then [R]. *)
Lemma matches_lit_seq ic w R s :
  matches ic (Seq (Lit w) R) false s =
  match lit_prefix ic w s with
  | Some (m, rest) => map (after_lit m) (matches ic R false rest)
  | None => []
  end.
Proof.
  cbn [matches]. destruct (lit_prefix ic w s) as [[m rest]|]; [|reflexivity].
  cbn [flat_map m_text m_caps m_rest andb app]. now rewrite app_nil_r.
Qed.

Lemma match_here_greedy_cons ic p R c t :
  match_here ic (Seq (StarGreedy p) R) false (c :: t) =
  match (if p c
         then option_map (prepend c) (match_here ic (Seq (StarGreedy p) R) false t)
         else None) with
  | Some m => Some m
  | None => match_here ic R false (c :: t)
  end.
Proof.
  unfold match_here. rewrite matches_greedy_cons, hd_error_app.
  destruct (p c); [now rewrite hd_error_map|reflexivity].
Qed.

Lemma match_here_lazy_cons ic p R c t :
  match_here ic (Seq (StarLazy p) R) false (c :: t) =
  match match_here ic R false (c :: t) with
  | Some m => Some m
  | None => if p c
            then option_map (prepend c) (match_here ic (Seq (StarLazy p) R) false t)
            else None
  end.
Proof.
  unfold match_here. rewrite matches_lazy_cons, hd_error_app.
  destruct (hd_error (matches ic R false (c :: t))); trivial.
  destruct (p c); [now rewrite hd_error_map|reflexivity].
Qed.

Lemma match_here_lit_seq ic w R s :
  match_here ic (Seq (Lit w) R) false s =
  match lit_prefix ic w s with
  | Some (m, rest) => option_map (after_lit m) (match_here ic R false rest)
  | None => None
  end.
Proof.
  unfold match_here. rewrite matches_lit_seq.
  destruct (lit_prefix ic w s) as [[m rest]|]; [now rewrite hd_error_map|reflexivity].
Qed.

Lemma match_here_lit ic w s :
  match_here ic (Lit w) false s =
  match lit_prefix ic w s with
  | Some (m, rest) => Some (MRes m [] rest)
  | None => None
  end.
Proof.
  unfold match_here. cbn [matches].
  now destruct (lit_prefix ic w s) as [[m rest]|].
Qed.

End SequenceFacts.

(* ------------------------------------------------------------------ *)
(** ** The pass [/\n\s*\n\s*\n/g] *)

Section Newlines.
Import LlamaConfig.

Local Abbreviation R3 := (Lit [LF]).
Local Abbreviation R2 := (Seq (StarGreedy is_ws) R3).
Local Abbreviation R1 := (Seq (Lit [LF]) R2).
Local Abbreviation R0 := (Seq (StarGreedy is_ws) R1).

Lemma lit_prefix_LF s :
  lit_prefix false [LF] s =
  match s with
  | c :: t => if (c =? LF)%N then Some ([c], t) else None
  | [] => None
  end.
Proof.
  destruct s as [|c t]; trivial. cbn [lit_prefix chr_eqb].
  rewrite (N.eqb_sym LF c). now destruct (c =? LF)%N.
Qed.

Lemma lead_nl_zero : forall s,
  lead_nl s = 0 -> take_nl s = [] /\ skip_nl s = s.
Proof.
  destruct s as [|c t]; intros H; [now split|].
  cbn [take_nl skip_nl]. rewrite H. rewrite andb_false_r. now split.
Qed.

Lemma take_skip_nl : forall s, take_nl s ++ skip_nl s = s.
Proof.
  induction s as [|c t IH]; trivial. cbn [take_nl skip_nl].
  destruct (is_ws c && (1 <=? lead_nl (c :: t))); simpl; [now rewrite IH|trivial].
Qed.

(** [\s*\n]: the white-space run through its last LF. *)
Lemma match_here_R2 : forall s,
  match_here false R2 false s =
  if 1 <=? lead_nl s then Some (MRes (take_nl s) [] (skip_nl s)) else None.
Proof.
  induction s as [|c t IH].
  - reflexivity.
  - rewrite match_here_greedy_cons, IH, match_here_lit, lit_prefix_LF.
    cbn [lead_nl take_nl skip_nl]. destruct (is_ws c) eqn:W.
    + destruct (1 <=? lead_nl t) eqn:L1.
      * apply Nat.leb_le in L1.
        assert (E : (1 <=? (if (c =? LF)%N then 1 else 0) + lead_nl t) = true)
          by (apply Nat.leb_le; lia).
        rewrite E. reflexivity.
      * apply Nat.leb_gt in L1. assert (Z0 : lead_nl t = 0) by lia.
        destruct (lead_nl_zero t Z0) as [Ht Hs]. rewrite Z0, Ht, Hs.
        cbn [option_map]. now destruct (c =? LF)%N.
    + destruct (c =? LF)%N eqn:E; [|reflexivity].
      apply eqb_LF_ws in E. congruence.
Qed.

(** [\n\s*\n] *)
Lemma match_here_R1 s :
  match_here false R1 false s =
  match s with
  | c :: t => if (c =? LF)%N && (1 <=? lead_nl t)
              then Some (MRes (c :: take_nl t) [] (skip_nl t)) else None
  | [] => None
  end.
Proof.
  rewrite match_here_lit_seq, lit_prefix_LF. destruct s as [|c t]; trivial.
  destruct (c =? LF)%N; [|reflexivity]. rewrite match_here_R2.
  now destruct (1 <=? lead_nl t).
Qed.

(** [\s*\n\s*\n]: the white-space run through its last LF, when it holds two
    LF at least. *)
Lemma match_here_R0 : forall s,
  match_here false R0 false s =
  if 2 <=? lead_nl s then Some (MRes (take_nl s) [] (skip_nl s)) else None.
Proof.
  induction s as [|c t IH].
  - reflexivity.
  - rewrite match_here_greedy_cons, IH, match_here_R1.
    cbn [lead_nl take_nl skip_nl]. destruct (is_ws c) eqn:W.
    + destruct (2 <=? lead_nl t) eqn:L2.
      * apply Nat.leb_le in L2.
        assert (E : (2 <=? (if (c =? LF)%N then 1 else 0) + lead_nl t) = true)
          by (apply Nat.leb_le; lia).
        assert (E1 : (1 <=? (if (c =? LF)%N then 1 else 0) + lead_nl t) = true)
          by (apply Nat.leb_le; lia).
        rewrite E, E1. reflexivity.
      * pose proof L2 as L2b. apply Nat.leb_gt in L2. cbn [option_map].
        destruct (c =? LF)%N; cbn [andb Nat.add].
        -- destruct (1 <=? lead_nl t) eqn:L1.
           ++ apply Nat.leb_le in L1.
              assert (E : (2 <=? S (lead_nl t)) = true) by (apply Nat.leb_le; lia).
              now rewrite E.
           ++ apply Nat.leb_gt in L1.
              assert (E : (2 <=? S (lead_nl t)) = false) by (apply Nat.leb_gt; lia).
              now rewrite E.
        -- now rewrite L2b.
    + destruct (c =? LF)%N eqn:E; [|reflexivity].
      apply eqb_LF_ws in E. congruence.
Qed.

(** The whole pattern at a position: an LF whose white-space run holds two
    more; the match ends with the last LF of the run. *)
Lemma match_here_newlines s :
  match_here false re_newlines false s =
  match s with
  | c :: t => if (c =? LF)%N && (2 <=? lead_nl t)
              then Some (MRes (c :: take_nl t) [] (skip_nl t)) else None
  | [] => None
  end.
Proof.
  unfold re_newlines. rewrite match_here_lit_seq, lit_prefix_LF.
  destruct s as [|c t]; trivial.
  destruct (c =? LF)%N; [|reflexivity]. rewrite match_here_R0.
  now destruct (2 <=? lead_nl t).
Qed.

Lemma cns_nil : cns [] = [].
Proof. unfold cns. now apply replace_from_nil. Qed.

Lemma cns_cons c t :
  cns (c :: t) =
  if (c =? LF)%N && (2 <=? lead_nl t)
  then LF :: LF :: cns (skip_nl t) else c :: cns t.
Proof.
  unfold cns. rewrite replace_from_cons, match_here_newlines.
  destruct ((c =? LF)%N && (2 <=? lead_nl t)); reflexivity.
Qed.

Lemma collapse_newlines_cns s : collapse_newlines s = cns s.
Proof.
  unfold collapse_newlines, replace, replace_fun, cns.
  now apply replace_from_no_bos.
Qed.

End Newlines.

Section NewlineFacts.
Import LlamaConfig.

Lemma skip_nl_length : forall s, length (skip_nl s) <= length s.
Proof.
  induction s as [|c t IH]; [simpl; lia|]. cbn [skip_nl].
  destruct (is_ws c && (1 <=? lead_nl (c :: t))); simpl; lia.
Qed.

Lemma lead_nl_skip : forall s, lead_nl (skip_nl s) = 0.
Proof.
  induction s as [|c t IH]; trivial. cbn [skip_nl].
  destruct (is_ws c) eqn:W; cbn [andb].
  - destruct (1 <=? lead_nl (c :: t)) eqn:L; [exact IH|].
    apply Nat.leb_gt in L. lia.
  - simpl. now rewrite W.
Qed.

(** The pass never adds an LF to the leading white-space run. *)
Lemma lead_nl_cns : forall s, lead_nl (cns s) <= lead_nl s.
Proof.
  induction s as [s IH] using length_ind. destruct s as [|c t].
  - rewrite cns_nil. simpl. lia.
  - rewrite cns_cons. destruct ((c =? LF)%N && (2 <=? lead_nl t)) eqn:C.
    + apply andb_true_iff in C. destruct C as [C1 C2].
      apply N.eqb_eq in C1. subst c. apply Nat.leb_le in C2.
      assert (H : lead_nl (cns (skip_nl t)) <= lead_nl (skip_nl t)).
      { apply IH. simpl. pose proof (skip_nl_length t). lia. }
      rewrite lead_nl_skip in H.
      change (lead_nl (LF :: LF :: cns (skip_nl t)))
        with (1 + (1 + lead_nl (cns (skip_nl t)))).
      change (lead_nl (LF :: t)) with (1 + lead_nl t). lia.
    + cbn [lead_nl]. destruct (is_ws c); [|lia].
      assert (H : lead_nl (cns t) <= lead_nl t) by (apply IH; simpl; lia). lia.
Qed.

(** After the pass no white-space run holds three LF. *)
Lemma cns_normal : forall s, nl_normal (cns s) = true.
Proof.
  induction s as [s IH] using length_ind. destruct s as [|c t].
  - now rewrite cns_nil.
  - rewrite cns_cons. destruct ((c =? LF)%N && (2 <=? lead_nl t)) eqn:C.
    + assert (L : length (skip_nl t) < length (c :: t))
        by (simpl; pose proof (skip_nl_length t); lia).
      pose proof (lead_nl_cns (skip_nl t)) as H. rewrite lead_nl_skip in H.
      assert (Z0 : lead_nl (cns (skip_nl t)) = 0) by lia.
      cbn [nl_normal]. rewrite (IH _ L).
      change (lead_nl (LF :: cns (skip_nl t)))
        with (1 + lead_nl (cns (skip_nl t))).
      rewrite Z0. reflexivity.
    + cbn [nl_normal]. rewrite IH by (simpl; lia). rewrite andb_true_r.
      apply negb_true_iff. apply andb_false_iff in C. apply andb_false_iff.
      destruct C as [C|C]; [now left|right].
      apply Nat.leb_gt in C. apply Nat.leb_gt. pose proof (lead_nl_cns t). lia.
Qed.

(** A text in which no white-space run holds three LF is left as it is. *)
Lemma cns_fixed : forall s, nl_normal s = true -> cns s = s.
Proof.
  induction s as [|c t IH]; intros H.
  - now rewrite cns_nil.
  - rewrite cns_cons. cbn [nl_normal] in H.
    apply andb_true_iff in H. destruct H as [H1 H2].
    apply negb_true_iff in H1. rewrite H1. now rewrite IH.
Qed.

Lemma lead_nl_app : forall s y : jstring, head_is is_ws y = false ->
  lead_nl (s ++ y) = lead_nl s.
Proof.
  induction s as [|c t IH]; intros y H.
  - destruct y as [|d y]; trivial. simpl in *. now rewrite H.
  - cbn [app lead_nl]. now rewrite IH.
Qed.

Lemma skip_nl_app : forall s y : jstring, head_is is_ws y = false ->
  skip_nl (s ++ y) = skip_nl s ++ y.
Proof.
  induction s as [|c t IH]; intros y H.
  - destruct y as [|d y]; trivial. cbn [app skip_nl]. simpl in H. now rewrite H.
  - change ((c :: t) ++ y) with (c :: (t ++ y)). cbn [skip_nl].
    change (c :: (t ++ y)) with ((c :: t) ++ y). rewrite lead_nl_app by exact H.
    destruct (is_ws c && (1 <=? lead_nl (c :: t))); [now apply IH|reflexivity].
Qed.

(** The pass works on the two sides of a position independently when the
    right side does not start with white space. *)
Lemma cns_app : forall s y : jstring, head_is is_ws y = false ->
  cns (s ++ y) = cns s ++ cns y.
Proof.
  induction s as [s IH] using length_ind. intros y H. destruct s as [|c t].
  - now rewrite cns_nil.
  - cbn [app]. rewrite !cns_cons, lead_nl_app by exact H.
    destruct ((c =? LF)%N && (2 <=? lead_nl t)).
    + rewrite skip_nl_app by exact H.
      rewrite IH; [reflexivity| |exact H].
      simpl. pose proof (skip_nl_length t). lia.
    + rewrite IH; [reflexivity|simpl; lia|exact H].
Qed.

End NewlineFacts.

(* ------------------------------------------------------------------ *)
(** ** The white-space passes together *)

Section Settled.
Import LlamaConfig.

Lemma lead_nl_le_app : forall s y : jstring, lead_nl s <= lead_nl (s ++ y).
Proof.
  induction s as [|c t IH]; intros y; [simpl; lia|].
  cbn [app lead_nl]. destruct (is_ws c); [|lia]. specialize (IH y). lia.
Qed.

Lemma nl_normal_snoc : forall (s : jstring) (c : cu),
  nl_normal (s ++ [c]) = true -> nl_normal s = true.
Proof.
  induction s as [|x s IH]; intros c H; trivial.
  cbn [app nl_normal] in *. apply andb_true_iff in H. destruct H as [H1 H2].
  rewrite (IH c H2), andb_true_r. apply negb_true_iff. apply negb_true_iff in H1.
  apply andb_false_iff in H1. apply andb_false_iff.
  destruct H1 as [H1|H1]; [now left|right].
  apply Nat.leb_gt in H1. apply Nat.leb_gt.
  pose proof (lead_nl_le_app s [c]). lia.
Qed.

Lemma runs_normal_snoc p : forall (s : jstring) (c : cu),
  runs_normal p (s ++ [c]) = true -> runs_normal p s = true.
Proof.
  induction s as [|x s IH]; intros c H; trivial.
  cbn [app runs_normal] in *. apply andb_true_iff in H. destruct H as [H1 H2].
  rewrite (IH c H2), andb_true_r.
  destruct (p x); trivial.
  apply andb_true_iff in H1. destruct H1 as [Hx Hh]. rewrite Hx.
  destruct s; [reflexivity|exact Hh].
Qed.

Lemma runs_normal_tail p c t :
  runs_normal p (c :: t) = true -> runs_normal p t = true.
Proof. simpl. intros H. apply andb_true_iff in H. tauto. Qed.

Lemma runs_normal_dropWhile p q : forall s,
  runs_normal p s = true -> runs_normal p (dropWhile q s) = true.
Proof.
  induction s as [|c t IH]; trivial. intros H. simpl.
  destruct (q c); [|exact H]. apply IH. eapply runs_normal_tail; eauto.
Qed.

Lemma trimEnd_keeps (P : jstring -> bool) :
  (forall s c, P (s ++ [c]) = true -> P s = true) ->
  forall s, P s = true -> P (trimEnd s) = true.
Proof.
  intros HP. induction s as [|c s IH] using rev_ind; intros H; trivial.
  rewrite trimEnd_snoc. destruct (is_ws c); [|exact H].
  apply IH. eapply HP; eauto.
Qed.

Lemma nl_normal_trim s : nl_normal s = true -> nl_normal (trim s) = true.
Proof.
  intros H. unfold trim. apply (trimEnd_keeps nl_normal nl_normal_snoc).
  now apply nl_normal_dropWhile.
Qed.

Lemma runs_normal_trim p s :
  runs_normal p s = true -> runs_normal p (trim s) = true.
Proof.
  intros H. unfold trim. apply (trimEnd_keeps (runs_normal p) (runs_normal_snoc p)).
  now apply runs_normal_dropWhile.
Qed.

Lemma hs_normal_trim s : hs_normal s = true -> hs_normal (trim s) = true.
Proof. apply runs_normal_trim. Qed.

(** The output of the three white-space passes is normal in both senses and
    trimmed ... *)
Lemma cleanResponse_shape (text : jstring) :
  nl_normal (cleanResponse text) = true /\
  hs_normal (cleanResponse text) = true /\
  trim (cleanResponse text) = cleanResponse text.
Proof.
  unfold cleanResponse. rewrite collapse_newlines_cns, collapse_hspace_chs.
  split; [|split].
  - apply nl_normal_trim, nl_normal_chs, cns_normal.
  - apply hs_normal_trim, chs_normal.
  - apply trim_idem.
Qed.

(** ... so the three passes leave it as it is. *)
Lemma whitespace_passes_fixed (text : jstring) :
  trim (collapse_hspace (collapse_newlines (cleanResponse text))) =
  cleanResponse text.
Proof.
  destruct (cleanResponse_shape text) as [H1 [H2 H3]].
  rewrite collapse_newlines_cns, (cns_fixed _ H1).
  rewrite collapse_hspace_chs, (chs_fixed _ H2). exact H3.
Qed.

Lemma replace_unmatched ic r by_ t :
  test ic r t = false -> replace ic r by_ t = t.
Proof.
  intros H. unfold replace, replace_fun.
  apply replace_from_none. now apply test_false_search.
Qed.

Lemma strip_markers_absent (t : jstring) :
  markers_absent t = true -> strip_markers t = t.
Proof.
  unfold markers_absent. intros H.
  repeat (apply andb_true_iff in H; destruct H as [H ?]).
  repeat match goal with
  | X : negb _ = true |- _ => apply negb_true_iff in X
  end.
  unfold strip_markers.
  assert (E : limitThinking t = t).
  { unfold limitThinking, replace_fun. apply replace_from_none.
    now apply test_false_search. }
  rewrite E. unfold strip_think, strip_redacted, strip_special,
    strip_end_of_sentence, strip_end.
  rewrite (replace_unmatched false re_think [] t) by assumption.
  rewrite (replace_unmatched false re_redacted [] t) by assumption.
  rewrite (replace_unmatched false re_special [] t) by assumption.
  rewrite (replace_unmatched true re_end_of_sentence [] t) by assumption.
  now apply replace_unmatched.
Qed.

End Settled.

Section Idempotence.
Import LlamaConfig.

Lemma Basic_collapse_ws_runs s : Basic.collapse_ws s = runs_to is_ws [SP] s.
Proof.
  unfold Basic.collapse_ws, Basic.re_ws, replace, replace_fun, runs_to.
  now apply replace_from_no_bos.
Qed.

Lemma Basic_whitespace_passes_fixed (text : jstring) :
  trim (Basic.collapse_ws (Basic.cleanResponse text)) = Basic.cleanResponse text.
Proof.
  assert (H : runs_normal is_ws (Basic.cleanResponse text) = true).
  { unfold Basic.cleanResponse. rewrite Basic_collapse_ws_runs.
    apply runs_normal_trim. now apply runs_to_normal. }
  rewrite Basic_collapse_ws_runs, (runs_to_fixed is_ws _ H).
  unfold Basic.cleanResponse. apply trim_idem.
Qed.

(** C3, as far as it holds: cleaning a cleaned text changes nothing when
    none of the marker patterns matches the cleaned text; this holds for the
    current [cleanResponse] and for the earlier one. *)
Theorem C3_idempotent_without_residual_markers (s : jstring) :
  (markers_absent (cleanResponse s) = true ->
   cleanResponse (cleanResponse s) = cleanResponse s) /\
  (Basic.markers_absent (Basic.cleanResponse s) = true ->
   Basic.cleanResponse (Basic.cleanResponse s) = Basic.cleanResponse s).
Proof.
  split; intros H.
  - unfold cleanResponse at 1. rewrite (strip_markers_absent _ H).
    apply whitespace_passes_fixed.
  - unfold Basic.cleanResponse at 1.
    unfold Basic.markers_absent in H.
    repeat (apply andb_true_iff in H; destruct H as [H ?]).
    repeat match goal with
    | X : negb _ = true |- _ => apply negb_true_iff in X
    end.
    unfold Basic.strip_markers, strip_think, strip_redacted, strip_special,
      strip_end_of_sentence, strip_end.
    set (t := Basic.cleanResponse s) in *.
    rewrite (replace_unmatched false re_think [] t) by assumption.
    rewrite (replace_unmatched false re_redacted [] t) by assumption.
    rewrite (replace_unmatched false re_special [] t) by assumption.
    rewrite (replace_unmatched true re_end_of_sentence [] t) by assumption.
    rewrite (replace_unmatched true re_end [] t) by assumption.
    apply Basic_whitespace_passes_fixed.
Qed.

Lemma C3_idempotent_without_residual_markers_witness :
  markers_absent (cleanResponse (str "Hi <think>plan</think> there <|im_end|>"))
    = true /\
  cleanResponse (cleanResponse (str "Hi <think>plan</think> there <|im_end|>"))
    = cleanResponse (str "Hi <think>plan</think> there <|im_end|>").
Proof.
  assert (H : markers_absent
                (cleanResponse (str "Hi <think>plan</think> there <|im_end|>"))
              = true) by (vm_compute; reflexivity).
  split; [exact H|].
  exact (proj1 (C3_idempotent_without_residual_markers
                  (str "Hi <think>plan</think> there <|im_end|>")) H).
Defined.

(** Cleaning twice is not cleaning once: the removal of [<|a|>] joins the
    text around it into the marker [<|b|>], which only a second cleaning
    removes. *)
Lemma C3_cleaning_twice_differs :
  cleanResponse (str "<<|a|>|b|>") = str "<|b|>" /\
  cleanResponse (cleanResponse (str "<<|a|>|b|>")) = [] /\
  cleanResponse (cleanResponse (str "<<|a|>|b|>"))
    <> cleanResponse (str "<<|a|>|b|>") /\
  Basic.cleanResponse (Basic.cleanResponse (str "<<|a|>|b|>"))
    <> Basic.cleanResponse (str "<<|a|>|b|>").
Proof.
  repeat split; try (vm_compute; reflexivity); vm_compute; discriminate.
Qed.

End Idempotence.

(* ------------------------------------------------------------------ *)
(** ** White-space runs between other text *)

Section Runs.
Import LlamaConfig.

Lemma lead_nl_repeat : forall n (y : jstring),
  lead_nl (repeat LF n ++ y) = n + lead_nl y.
Proof.
  induction n as [|n IH]; intros y; trivial.
  change (repeat LF (S n) ++ y) with (LF :: (repeat LF n ++ y)).
  change (lead_nl (LF :: (repeat LF n ++ y)))
    with (1 + lead_nl (repeat LF n ++ y)).
  rewrite IH. lia.
Qed.

Lemma lead_nl_nonws (y : jstring) : head_is is_ws y = false -> lead_nl y = 0.
Proof. destruct y as [|c t]; trivial. simpl. now intros ->. Qed.

Lemma skip_nl_repeat : forall n (y : jstring), head_is is_ws y = false ->
  skip_nl (repeat LF n ++ y) = y.
Proof.
  induction n as [|n IH]; intros y H.
  - apply (skip_nl_app [] y H).
  - change (repeat LF (S n) ++ y) with (LF :: (repeat LF n ++ y)).
    cbn [skip_nl].
    change (lead_nl (LF :: (repeat LF n ++ y)))
      with (1 + lead_nl (repeat LF n ++ y)).
    rewrite LF_ws. cbn [andb Nat.add Nat.leb]. now apply IH.
Qed.

Lemma cns_nonLF c t : (c =? LF)%N = false -> cns (c :: t) = c :: cns t.
Proof. intros H. rewrite cns_cons. now rewrite H. Qed.

Lemma nonws_nonLF c : is_ws c = false -> (c =? LF)%N = false.
Proof.
  intros H. destruct (c =? LF)%N eqn:E; trivial.
  apply eqb_LF_ws in E. congruence.
Qed.

(** Two or more LF before a character that is not white space become
    two. *)
Lemma cns_run n (y : jstring) : 2 <= n -> head_is is_ws y = false ->
  cns (repeat LF n ++ y) = LF :: LF :: cns y.
Proof.
  intros Hn H. pose proof (lead_nl_nonws y H) as Z0.
  destruct n as [|[|[|k]]]; try lia.
  - cbn [repeat app]. rewrite cns_cons.
    change (lead_nl (LF :: y)) with (1 + lead_nl y). rewrite Z0.
    cbn [Nat.add Nat.leb andb]. rewrite andb_false_r.
    rewrite cns_cons, Z0. cbn [Nat.leb]. now rewrite andb_false_r.
  - change (repeat LF (S (S (S k))) ++ y)
      with (LF :: (repeat LF (S (S k)) ++ y)).
    rewrite cns_cons, lead_nl_repeat, N.eqb_refl.
    cbn [Nat.add Nat.leb andb]. now rewrite skip_nl_repeat.
Qed.

Lemma cns_hspace_run : forall (h y : jstring), forallb is_hspace h = true ->
  cns (h ++ y) = h ++ cns y.
Proof.
  induction h as [|c h IH]; intros y H; trivial.
  cbn [forallb] in H. apply andb_true_iff in H. destruct H as [Hc H].
  cbn [app]. rewrite cns_nonLF by (now apply hspace_ws). now rewrite IH.
Qed.

Lemma chs_other c t : is_hspace c = false -> chs (c :: t) = c :: chs t.
Proof. intros H. rewrite chs_cons. now rewrite H. Qed.

Lemma trimStart_app_keep (a : jstring) (z : cu) (w : jstring) :
  is_ws z = false -> trimStart (a ++ z :: w) = trimStart a ++ z :: w.
Proof. intros H. unfold trimStart. apply dropWhile_app_keep. exact H. Qed.

Lemma trimEnd_app_keep (u : jstring) (y : cu) : forall b : jstring,
  is_ws y = false -> trimEnd (u ++ y :: b) = u ++ y :: trimEnd b.
Proof.
  intros b H. induction b as [|x b IH] using rev_ind.
  - rewrite trimEnd_nil. change (u ++ [y]) with (u ++ [y]).
    rewrite trimEnd_snoc. now rewrite H.
  - replace (u ++ y :: b ++ [x]) with ((u ++ y :: b) ++ [x])
      by (now rewrite <- app_assoc).
    rewrite !trimEnd_snoc. destruct (is_ws x); [exact IH|].
    now rewrite <- app_assoc.
Qed.

(** Trimming a text that has a character that is not white space on each
    side of its middle part. *)
Lemma trim_around (a : jstring) (z : cu) (m : jstring) (y : cu) (b : jstring) :
  is_ws z = false -> is_ws y = false ->
  trim (a ++ z :: m ++ y :: b) = trimStart a ++ z :: m ++ y :: trimEnd b.
Proof.
  intros Hz Hy. unfold trim. rewrite trimStart_app_keep by exact Hz.
  replace (trimStart a ++ z :: m ++ y :: b)
    with ((trimStart a ++ z :: m) ++ y :: b)
    by (rewrite <- app_assoc; reflexivity).
  rewrite trimEnd_app_keep by exact Hy. now rewrite <- app_assoc.
Qed.

(** The three white-space passes on a run of LF between two characters that
    are not white space ... *)
Lemma whitespace_passes_newline_run a z n y b :
  is_ws z = false -> is_ws y = false -> 2 <= n ->
  trim (chs (cns (a ++ z :: repeat LF n ++ y :: b))) =
  trimStart (chs (cns a)) ++ z :: LF :: LF :: y :: trimEnd (chs (cns b)).
Proof.
  intros Hz Hy Hn.
  rewrite cns_app by (simpl; exact Hz).
  rewrite (cns_nonLF z) by (now apply nonws_nonLF).
  rewrite cns_run by (trivial; simpl; exact Hy).
  rewrite (cns_nonLF y) by (now apply nonws_nonLF).
  rewrite chs_app by (simpl; now apply nonws_nonhspace).
  rewrite (chs_other z) by (now apply nonws_nonhspace).
  rewrite (chs_other LF), (chs_other LF) by reflexivity.
  rewrite (chs_other y) by (now apply nonws_nonhspace).
  apply (trim_around (chs (cns a)) z [LF; LF] y (chs (cns b)) Hz Hy).
Qed.

(** ... and on a run of spaces and tabs. *)
Lemma whitespace_passes_hspace_run a z h y b :
  is_ws z = false -> is_ws y = false -> h <> [] -> forallb is_hspace h = true ->
  trim (chs (cns (a ++ z :: h ++ y :: b))) =
  trimStart (chs (cns a)) ++ z :: SP :: y :: trimEnd (chs (cns b)).
Proof.
  intros Hz Hy Hh Hall.
  rewrite cns_app by (simpl; exact Hz).
  rewrite (cns_nonLF z) by (now apply nonws_nonLF).
  rewrite cns_hspace_run by exact Hall.
  rewrite (cns_nonLF y) by (now apply nonws_nonLF).
  rewrite chs_app by (simpl; now apply nonws_nonhspace).
  rewrite (chs_other z) by (now apply nonws_nonhspace).
  unfold chs at 2. rewrite runs_to_run; trivial; [|now apply nonws_nonhspace].
  fold (chs (cns b)).
  apply (trim_around (chs (cns a)) z [SP] y (chs (cns b)) Hz Hy).
Qed.

(** ... and on whatever stands between two characters that are not white
    space: the three parts are cleaned each on its own. *)
Lemma whitespace_passes_between a z W y b :
  is_ws z = false -> is_ws y = false ->
  trim (chs (cns (a ++ z :: W ++ y :: b))) =
  trimStart (chs (cns a)) ++ z :: chs (cns W) ++ y :: trimEnd (chs (cns b)).
Proof.
  intros Hz Hy.
  rewrite cns_app by (simpl; exact Hz).
  rewrite (cns_nonLF z) by (now apply nonws_nonLF).
  rewrite (cns_app W (y :: b)) by (simpl; exact Hy).
  rewrite (cns_nonLF y) by (now apply nonws_nonLF).
  rewrite chs_app by (simpl; now apply nonws_nonhspace).
  rewrite (chs_other z) by (now apply nonws_nonhspace).
  match goal with |- context [z :: chs (?u ++ ?w)] =>
    rewrite (chs_app u w) by (simpl; now apply nonws_nonhspace) end.
  rewrite (chs_other y) by (now apply nonws_nonhspace).
  apply (trim_around (chs (cns a)) z (chs (cns W)) y (chs (cns b)) Hz Hy).
Qed.

Lemma count_LF_cons c (t : jstring) :
  count_occ N.eq_dec (c :: t) LF =
  (if (c =? LF)%N then 1 else 0) + count_occ N.eq_dec t LF.
Proof.
  cbn [count_occ]. destruct (N.eq_dec c LF) as [->|E].
  - now rewrite N.eqb_refl.
  - apply N.eqb_neq in E. now rewrite E.
Qed.

Lemma lead_nl_le_count : forall s : jstring,
  lead_nl s <= count_occ N.eq_dec s LF.
Proof.
  induction s as [|c t IH]; [reflexivity|].
  rewrite count_LF_cons. cbn [lead_nl]. destruct (is_ws c); lia.
Qed.

Lemma lead_nl_ws_app : forall u v : jstring, forallb is_ws u = true ->
  lead_nl (u ++ v) = count_occ N.eq_dec u LF + lead_nl v.
Proof.
  induction u as [|c u IH]; intros v H; [reflexivity|].
  cbn [forallb] in H. apply andb_true_iff in H. destruct H as [Hc H].
  rewrite count_LF_cons. cbn [app lead_nl]. rewrite Hc, (IH v H). lia.
Qed.

(** A text with at most two newlines has nothing for the newline pass. *)
Lemma cns_few : forall s : jstring,
  count_occ N.eq_dec s LF <= 2 -> cns s = s.
Proof.
  intros s H. apply cns_fixed. induction s as [|c t IH]; [reflexivity|].
  rewrite count_LF_cons in H. cbn [nl_normal].
  rewrite IH by lia. rewrite andb_true_r.
  destruct (c =? LF)%N; [|reflexivity].
  pose proof (lead_nl_le_count t) as L. cbn [andb].
  destruct (2 <=? lead_nl t) eqn:E; [|reflexivity].
  apply Nat.leb_le in E. lia.
Qed.

Lemma cns_no_LF : forall h r : jstring, ~ In LF h -> cns (h ++ r) = h ++ cns r.
Proof.
  induction h as [|c h IH]; intros r H; [reflexivity|].
  cbn [app]. rewrite cns_nonLF.
  - rewrite IH; trivial. intros I. apply H. now right.
  - apply N.eqb_neq. intros ->. apply H. now left.
Qed.

Lemma count_no_LF (h : jstring) : ~ In LF h -> count_occ N.eq_dec h LF = 0.
Proof. apply count_occ_not_In. Qed.

Lemma skip_nl_ws_app : forall u v : jstring, forallb is_ws u = true ->
  1 <= lead_nl v -> skip_nl (u ++ v) = skip_nl v.
Proof.
  induction u as [|c u IH]; intros v H L; [reflexivity|].
  cbn [forallb] in H. apply andb_true_iff in H. destruct H as [Hc H].
  change ((c :: u) ++ v) with (c :: (u ++ v)). cbn [skip_nl].
  assert (E : (1 <=? lead_nl (c :: u ++ v)) = true).
  { apply Nat.leb_le. cbn [lead_nl]. rewrite Hc.
    rewrite (lead_nl_ws_app u v H). lia. }
  rewrite Hc, E. cbn [andb]. now apply IH.
Qed.

(** A white-space run with three or more newlines: the newline pass puts two
    newlines for what is between the first and the last newline of the run,
    both included. *)
Lemma cns_many (h1 mid h2 : jstring) :
  ~ In LF h1 -> forallb is_ws mid = true -> In LF mid -> ~ In LF h2 ->
  cns (h1 ++ LF :: mid ++ LF :: h2) = h1 ++ LF :: LF :: h2.
Proof.
  intros H1 Hm Hin H2. rewrite cns_no_LF by exact H1. f_equal.
  pose proof (lead_nl_le_count h2) as L2. rewrite (count_no_LF h2 H2) in L2.
  assert (Z2 : lead_nl (LF :: h2) = 1)
    by (change (lead_nl (LF :: h2)) with (1 + lead_nl h2); lia).
  rewrite cns_cons, N.eqb_refl, (lead_nl_ws_app mid (LF :: h2) Hm), Z2.
  assert (C : 1 <= count_occ N.eq_dec mid LF)
    by (apply (count_occ_In N.eq_dec) in Hin; lia).
  replace (2 <=? count_occ N.eq_dec mid LF + 1) with true
    by (symmetry; apply Nat.leb_le; lia).
  cbn [andb]. rewrite skip_nl_ws_app by (trivial; lia).
  cbn [skip_nl]. rewrite LF_ws, Z2. cbn [Nat.leb andb].
  assert (Z : lead_nl h2 = 0) by lia.
  rewrite (proj2 (lead_nl_zero h2 Z)).
  rewrite cns_few; [reflexivity|]. rewrite (count_no_LF h2 H2). lia.
Qed.

End Runs.

Section WhitespaceClaims.
Import LlamaConfig.

Lemma nl_normal_no_triple : forall s,
  nl_normal s = true -> occurs [LF; LF; LF] s = false.
Proof.
  induction s as [|c t IH]; intros H; trivial.
  cbn [occurs]. destruct (lit_prefix false [LF; LF; LF] (c :: t)) as [[m r]|] eqn:E.
  - apply lit_prefix_exact in E. destruct E as [_ E].
    inversion E; subst. cbn in H. discriminate.
  - apply IH. eapply nl_normal_tail; eauto.
Qed.

Lemma hs_normal_no_double : forall s,
  hs_normal s = true -> occurs [SP; SP] s = false /\ ~ In TAB s.
Proof.
  induction s as [|c t IH]; intros H; [split; [reflexivity|intros []]|].
  destruct (IH (runs_normal_tail is_hspace c t H)) as [IH1 IH2]. split.
  - cbn [occurs]. destruct (lit_prefix false [SP; SP] (c :: t)) as [[m r]|] eqn:E.
    + apply lit_prefix_exact in E. destruct E as [_ E].
      inversion E; subst. cbn in H. discriminate.
    + exact IH1.
  - intros [->|Hin]; [|now apply IH2]. cbn in H. discriminate.
Qed.

Lemma trim_ends s :
  head_is is_ws (trim s) = false /\ last_is is_ws (trim s) = false.
Proof.
  split.
  - unfold trim, trimStart. destruct (dropWhile is_ws s) as [|c t] eqn:E; trivial.
    apply dropWhile_head in E. destruct (trimEnd_cons c t E) as [t' Ht].
    rewrite Ht. exact E.
  - unfold last_is, trim, trimEnd. rewrite rev_involutive.
    apply dropWhile_head_is.
Qed.

(** C5, as far as it holds.  The white-space passes of the current
    [cleanResponse] work on the text the marker passes leave, which is the
    input when no marker pattern matches it.  The output never has three LF in
    a row, a tab, two spaces in a row, or white space at either end.  What
    stands in that text between two characters that are not white space is
    cleaned on its own, and so is the text on each side.  A run of two or more
    LF between two such characters becomes exactly two LF, so a double newline
    stays and a longer run collapses to it; a run of spaces and tabs becomes
    one space; a text with two LF at most keeps them; and a white-space run
    with three LF or more becomes what is before its first LF, two LF, and
    what is after its last LF, each with its spaces and tabs collapsed.  In
    the earlier [cleanResponse] every white-space run between two such
    characters becomes one space. *)
Theorem C5_whitespace_runs (s a b : jstring) (z y : cu) :
  is_ws z = false -> is_ws y = false ->
  (occurs [LF; LF; LF] (cleanResponse s) = false /\
   ~ In TAB (cleanResponse s) /\
   occurs [SP; SP] (cleanResponse s) = false /\
   head_is is_ws (cleanResponse s) = false /\
   last_is is_ws (cleanResponse s) = false) /\
  (forall n, 2 <= n ->
     strip_markers s = a ++ z :: repeat LF n ++ y :: b ->
     cleanResponse s =
       trimStart (collapse_hspace (collapse_newlines a)) ++
       z :: LF :: LF :: y :: trimEnd (collapse_hspace (collapse_newlines b))) /\
  (forall h, h <> [] -> forallb is_hspace h = true ->
     strip_markers s = a ++ z :: h ++ y :: b ->
     cleanResponse s =
       trimStart (collapse_hspace (collapse_newlines a)) ++
       z :: SP :: y :: trimEnd (collapse_hspace (collapse_newlines b))) /\
  (forall w, w <> [] -> forallb is_ws w = true ->
     Basic.strip_markers s = a ++ z :: w ++ y :: b ->
     Basic.cleanResponse s =
       trimStart (Basic.collapse_ws a) ++
       z :: SP :: y :: trimEnd (Basic.collapse_ws b)) /\
  (forall W,
     strip_markers s = a ++ z :: W ++ y :: b ->
     cleanResponse s =
       trimStart (collapse_hspace (collapse_newlines a)) ++
       z :: collapse_hspace (collapse_newlines W) ++
       y :: trimEnd (collapse_hspace (collapse_newlines b))) /\
  (forall W, count_occ N.eq_dec W LF <= 2 -> collapse_newlines W = W) /\
  (forall h1 mid h2,
     ~ In LF h1 -> forallb is_ws mid = true -> In LF mid -> ~ In LF h2 ->
     collapse_hspace (collapse_newlines (h1 ++ LF :: mid ++ LF :: h2)) =
       collapse_hspace h1 ++ LF :: LF :: collapse_hspace h2) /\
  (markers_absent s = true -> strip_markers s = s).
Proof.
  intros Hz Hy. split; [|split; [|split; [|split; [|split; [|split; [|split]]]]]].
  - destruct (cleanResponse_shape s) as [H1 [H2 H3]].
    destruct (hs_normal_no_double _ H2) as [H4 H5].
    split; [now apply nl_normal_no_triple|]. split; [exact H5|].
    split; [exact H4|]. rewrite <- H3. apply trim_ends.
  - intros n Hn E. unfold cleanResponse. rewrite E.
    rewrite !collapse_newlines_cns, !collapse_hspace_chs.
    now apply whitespace_passes_newline_run.
  - intros h Hh Hall E. unfold cleanResponse. rewrite E.
    rewrite !collapse_newlines_cns, !collapse_hspace_chs.
    now apply whitespace_passes_hspace_run.
  - intros w Hw Hall E. unfold Basic.cleanResponse. rewrite E.
    rewrite !Basic_collapse_ws_runs.
    rewrite runs_to_app by (simpl; exact Hz).
    rewrite (runs_to_cons is_ws [SP] z), Hz.
    rewrite runs_to_run by trivial.
    apply (trim_around (runs_to is_ws [SP] a) z [SP] y (runs_to is_ws [SP] b) Hz Hy).
  - intros W E. unfold cleanResponse. rewrite E.
    rewrite !collapse_newlines_cns, !collapse_hspace_chs.
    now apply whitespace_passes_between.
  - intros W H. rewrite collapse_newlines_cns. now apply cns_few.
  - intros h1 mid h2 H1 Hm Hin H2.
    rewrite collapse_newlines_cns, !collapse_hspace_chs.
    rewrite cns_many by assumption.
    rewrite chs_app by reflexivity.
    now rewrite (chs_other LF), (chs_other LF) by reflexivity.
  - apply strip_markers_absent.
Qed.

Lemma C5_whitespace_runs_witness :
  is_ws 46%N = false /\ is_ws 66%N = false /\ 2 <= 4 /\
  strip_markers (str " A." ++ repeat LF 4 ++ str "B <|im_end|>")
    = str " A" ++ 46%N :: repeat LF 4 ++ 66%N :: str " " /\
  cleanResponse (str " A." ++ repeat LF 4 ++ str "B <|im_end|>")
    = str "A." ++ [LF; LF] ++ str "B".
Proof.
  assert (Hz : is_ws 46%N = false) by reflexivity.
  assert (Hy : is_ws 66%N = false) by reflexivity.
  assert (Hn : 2 <= 4) by lia.
  assert (E : strip_markers (str " A." ++ repeat LF 4 ++ str "B <|im_end|>")
              = str " A" ++ 46%N :: repeat LF 4 ++ 66%N :: str " ")
    by (vm_compute; reflexivity).
  split; [exact Hz|]. split; [exact Hy|]. split; [exact Hn|]. split; [exact E|].
  rewrite (proj1 (proj2 (C5_whitespace_runs
             (str " A." ++ repeat LF 4 ++ str "B <|im_end|>")
             (str " A") (str " ") 46%N 66%N Hz Hy)) 4 Hn E).
  vm_compute. reflexivity.
Defined.

(** Runs that do not become two newlines, and a paragraph break that does not
    stay: three LF at the start are removed; a double newline before a marker
    at the end goes with the marker; two runs of three LF with a space
    between them become two LF together; the earlier [cleanResponse] turns a
    double newline into a space. *)
Lemma C5_runs_not_always_two :
  cleanResponse ([LF; LF; LF] ++ str "x") = str "x" /\
  cleanResponse (str "a" ++ [LF; LF] ++ str "<|x|>") = str "a" /\
  cleanResponse (str "a" ++ [LF; LF; LF; SP; LF; LF; LF] ++ str "b")
    = str "a" ++ [LF; LF] ++ str "b" /\
  cleanResponse (str "  x") = str "x" /\
  Basic.cleanResponse (str "a" ++ [LF; LF] ++ str "b") = str "a b".
Proof. repeat split; vm_compute; reflexivity. Qed.

End WhitespaceClaims.

(* ------------------------------------------------------------------ *)
(** ** The think passes *)

Section ThinkFacts.
Import LlamaConfig.

Lemma grp_splits_cons ic R c : forall L,
  flat_map
    (fun m1 => map (fun m2 => MRes (m_text m1 ++ m_text m2)
                                   (m_caps m1 ++ m_caps m2) (m_rest m2))
                   (matches ic R false (m_rest m1)))
    (map (fun m => MRes (m_text m) (m_text m :: m_caps m) (m_rest m))
         (map of_split (map (cons_fst c) L))) =
  map (prepend_captured c)
    (flat_map
       (fun m1 => map (fun m2 => MRes (m_text m1 ++ m_text m2)
                                      (m_caps m1 ++ m_caps m2) (m_rest m2))
                      (matches ic R false (m_rest m1)))
       (map (fun m => MRes (m_text m) (m_text m :: m_caps m) (m_rest m))
            (map of_split L))).
Proof.
  induction L as [|x L IH]; simpl; trivial.
  rewrite map_app, IH. f_equal. rewrite map_map. reflexivity.
Qed.

(** [(C*?)R] at a character: first [R] right here, then with the character
    taken by the star. *)
Lemma matches_grp_lazy_cons ic p R c t :
  matches ic (Seq (Grp (StarLazy p)) R) false (c :: t) =
  map capture_none (matches ic R false (c :: t)) ++
  (if p c
   then map (prepend_captured c) (matches ic (Seq (Grp (StarLazy p)) R) false t)
   else []).
Proof.
  cbn [matches star_lazy map flat_map of_split fst snd m_text m_caps m_rest andb app].
  f_equal. destruct (p c); [|reflexivity]. apply grp_splits_cons.
Qed.

Lemma matches_grp_lazy_nil ic p R :
  matches ic (Seq (Grp (StarLazy p)) R) false [] =
  map capture_none (matches ic R false []).
Proof.
  cbn [matches star_lazy map flat_map of_split fst snd m_text m_caps m_rest andb app].
  now rewrite app_nil_r.
Qed.

Lemma lit_prefix_app_none : forall w u v : jstring,
  length w <= length u -> lit_prefix false w u = None ->
  lit_prefix false w (u ++ v) = None.
Proof.
  induction w as [|a w IH]; intros u v L H; [discriminate|].
  destruct u as [|c u]; [simpl in L; lia|].
  cbn [app lit_prefix] in *. destruct (chr_eqb false a c); trivial.
  destruct (lit_prefix false w u) as [[m r]|] eqn:E; [discriminate|].
  rewrite (IH u v); trivial. simpl in L. lia.
Qed.

Lemma lit_prefix_app_some : forall w u v : jstring,
  lit_prefix false w u <> None -> lit_prefix false w (u ++ v) <> None.
Proof.
  induction w as [|a w IH]; intros u v H; [discriminate|].
  destruct u as [|c u]; [now elim H|].
  cbn [app lit_prefix] in *. destruct (chr_eqb false a c); trivial.
  specialize (IH u v).
  destruct (lit_prefix false w u) as [[m r]|]; [|now elim H].
  destruct (lit_prefix false w (u ++ v)) as [[m' r']|]; [discriminate|].
  now elim IH.
Qed.

(** Where [w] does not occur, it starts at no position. *)
Lemma occurs_false_suffix w : forall pre post : jstring,
  occurs w (pre ++ post) = false -> lit_prefix false w post = None.
Proof.
  induction pre as [|c pre IH]; intros post H.
  - destruct post as [|d post]; cbn [app occurs] in H;
      now destruct (lit_prefix false w _).
  - apply IH. cbn [app occurs] in H.
    now destruct (lit_prefix false w (c :: pre ++ post)).
Qed.

(** [w] does not start inside [q] when it does not occur in [q] followed by
    all of [w] but its last character. *)
Lemma no_start_inside (w q : jstring) (x : cu) (w' rest : jstring) :
  q <> [] -> length w = S (length w') ->
  lit_prefix false w (q ++ w') = None ->
  lit_prefix false w (q ++ w' ++ x :: rest) = None.
Proof.
  intros Hq L H. rewrite app_assoc. apply lit_prefix_app_none; trivial.
  rewrite length_app, L. destruct q; [congruence|simpl; lia].
Qed.

End ThinkFacts.

Section LazyUntil.

Lemma match_here_lazy_first ic p R s m :
  match_here ic R false s = Some m ->
  match_here ic (Seq (StarLazy p) R) false s = Some m.
Proof.
  intros H. destruct s as [|c t].
  - unfold match_here in *. now rewrite matches_lazy_nil.
  - now rewrite match_here_lazy_cons, H.
Qed.

Lemma match_here_grp_lazy_first ic p R s m :
  match_here ic R false s = Some m ->
  match_here ic (Seq (Grp (StarLazy p)) R) false s = Some (capture_none m).
Proof.
  unfold match_here. intros H. destruct s as [|c t].
  - now rewrite matches_grp_lazy_nil, hd_error_map, H.
  - now rewrite matches_grp_lazy_cons, hd_error_app, hd_error_map, H.
Qed.

Lemma match_here_grp_lazy_next ic p R c t :
  match_here ic R false (c :: t) = None -> p c = true ->
  match_here ic (Seq (Grp (StarLazy p)) R) false (c :: t) =
  option_map (prepend_captured c)
             (match_here ic (Seq (Grp (StarLazy p)) R) false t).
Proof.
  unfold match_here. intros H Hp.
  now rewrite matches_grp_lazy_cons, Hp, hd_error_app, !hd_error_map, H.
Qed.

Lemma occurs_false_tail w c (t : jstring) :
  occurs w (c :: t) = false -> occurs w t = false.
Proof.
  cbn [occurs]. now destruct (lit_prefix false w (c :: t)).
Qed.

Lemma occurs_false_here w (s : jstring) :
  occurs w s = false -> lit_prefix false w s = None.
Proof. apply (occurs_false_suffix w [] s). Qed.

Variables (w' : jstring) (x : cu).

(** [.*?w] with the [s] flag stops at the first [w]. *)
Lemma lazy_until : forall X post : jstring,
  occurs (w' ++ [x]) (X ++ w') = false ->
  match_here false (Seq (StarLazy any) (Lit (w' ++ [x]))) false
             (X ++ (w' ++ [x]) ++ post) =
  Some (MRes (X ++ w' ++ [x]) [] post).
Proof.
  induction X as [|c X IH]; intros post H.
  - apply match_here_lazy_first. rewrite match_here_lit.
    cbn [app]. now rewrite lit_prefix_app.
  - cbn [app]. rewrite match_here_lazy_cons, match_here_lit.
    assert (N : lit_prefix false (w' ++ [x]) (c :: X ++ (w' ++ [x]) ++ post) = None).
    { rewrite <- (app_assoc w' [x] post).
      apply (no_start_inside (w' ++ [x]) (c :: X) x w' post).
      - discriminate.
      - rewrite length_app. simpl. lia.
      - now apply occurs_false_here. }
    rewrite N. cbn [any]. rewrite IH by (eapply occurs_false_tail; eauto).
    reflexivity.
Qed.

(** [(.*?)w]: the same, and the capture is what the star took. *)
Lemma lazy_until_captured : forall X post : jstring,
  occurs (w' ++ [x]) (X ++ w') = false ->
  match_here false (Seq (Grp (StarLazy any)) (Lit (w' ++ [x]))) false
             (X ++ (w' ++ [x]) ++ post) =
  Some (MRes (X ++ w' ++ [x]) [X] post).
Proof.
  induction X as [|c X IH]; intros post H.
  - rewrite (match_here_grp_lazy_first false any (Lit (w' ++ [x])) _
               (MRes (w' ++ [x]) [] post)); [reflexivity|].
    rewrite match_here_lit. cbn [app]. now rewrite lit_prefix_app.
  - cbn [app]. rewrite match_here_grp_lazy_next; trivial.
    + rewrite IH by (eapply occurs_false_tail; eauto). reflexivity.
    + rewrite match_here_lit.
      assert (N : lit_prefix false (w' ++ [x]) (c :: X ++ (w' ++ [x]) ++ post) = None).
      { rewrite <- (app_assoc w' [x] post).
        apply (no_start_inside (w' ++ [x]) (c :: X) x w' post).
        - discriminate.
        - rewrite length_app. simpl. lia.
        - now apply occurs_false_here. }
      now rewrite N.
Qed.

End LazyUntil.

Section SpanSearch.

Lemma search_here ic r b s m :
  match_here ic r b s = Some m -> search ic r b s = Some ([], m).
Proof. intros H. destruct s; simpl; now rewrite H. Qed.

Lemma search_skip ic r b c t :
  match_here ic r b (c :: t) = None ->
  search ic r b (c :: t) =
  match search ic r false t with
  | Some (pre, m) => Some (c :: pre, m)
  | None => None
  end.
Proof. intros H. simpl. now rewrite H. Qed.

Variables (o' : jstring) (g : cu) (T : regex).

(** A pattern that starts with the literal [o] is found at the first [o]
    after which the rest of the pattern matches, when [o] starts nowhere
    before. *)
Lemma search_after_open : forall (pre rest : jstring) (m : mres),
  occurs (o' ++ [g]) (pre ++ o') = false ->
  match_here false T false rest = Some m ->
  search false (Seq (Lit (o' ++ [g])) T) false (pre ++ (o' ++ [g]) ++ rest) =
  Some (pre, after_lit (o' ++ [g]) m).
Proof.
  induction pre as [|c pre IH]; intros rest m H Hm.
  - apply search_here. rewrite match_here_lit_seq.
    cbn [app]. now rewrite lit_prefix_app, Hm.
  - cbn [app]. rewrite search_skip.
    + rewrite (IH rest m); trivial. eapply occurs_false_tail; eauto.
    + rewrite match_here_lit_seq.
      assert (N : lit_prefix false (o' ++ [g]) (c :: pre ++ (o' ++ [g]) ++ rest) = None).
      { rewrite <- (app_assoc o' [g] rest).
        apply (no_start_inside (o' ++ [g]) (c :: pre) g o' rest).
        - discriminate.
        - rewrite length_app. simpl. lia.
        - now apply occurs_false_here. }
      now rewrite N.
Qed.

End SpanSearch.

Section Occurrences.

Lemma occurs_cons w c (t : jstring) :
  occurs w t = true -> occurs w (c :: t) = true.
Proof.
  intros H. cbn [occurs]. now destruct (lit_prefix false w (c :: t)).
Qed.

Lemma occurs_of_prefix w (s : jstring) :
  lit_prefix false w s <> None -> occurs w s = true.
Proof.
  intros H. destruct s as [|c t]; cbn [occurs];
    destruct (lit_prefix false w _); congruence.
Qed.

Lemma occurs_app_l w : forall u v : jstring,
  occurs w u = true -> occurs w (u ++ v) = true.
Proof.
  induction u as [|c u IH]; intros v H.
  - apply occurs_of_prefix. apply lit_prefix_app_some.
    cbn [occurs] in H. destruct (lit_prefix false w []); congruence.
  - cbn [occurs] in H. destruct (lit_prefix false w (c :: u)) eqn:E.
    + apply occurs_of_prefix. apply lit_prefix_app_some. congruence.
    + cbn [app]. apply occurs_cons. now apply IH.
Qed.

Lemma occurs_firstn w n (u : jstring) :
  occurs w (firstn n u) = true -> occurs w u = true.
Proof.
  intros H. rewrite <- (firstn_skipn n u). now apply occurs_app_l.
Qed.

(** A literal that matches at the head of [u ++ d :: v] and does not contain
    [d] lies within [u]. *)
Lemma lit_prefix_within d : forall w u v : jstring,
  ~ In d w -> lit_prefix false w (u ++ d :: v) <> None ->
  lit_prefix false w u <> None.
Proof.
  induction w as [|a w IH]; intros u v Hd H; [discriminate|].
  destruct u as [|c u]; cbn [app lit_prefix chr_eqb] in *.
  - destruct (N.eqb_spec a d) as [->|]; [|now elim H].
    exfalso. apply Hd. now left.
  - destruct (a =? c)%N; [|now elim H].
    assert (Hd' : ~ In d w) by (intros Hin; apply Hd; now right).
    specialize (IH u v Hd').
    destruct (lit_prefix false w (u ++ d :: v)) as [[m r]|]; [|now elim H].
    destruct (lit_prefix false w u) as [[m' r']|]; [discriminate|].
    now elim IH.
Qed.

(** An occurrence of [w] does not straddle a character that is not in
    [w]. *)
Lemma occurs_sep d w : ~ In d w -> w <> [] -> forall u v : jstring,
  occurs w (u ++ d :: v) = true -> occurs w u = true \/ occurs w v = true.
Proof.
  intros Hd Hw. induction u as [|c u IH]; intros v H.
  - cbn [app occurs] in H. right.
    destruct (lit_prefix false w (d :: v)) eqn:E; [|exact H].
    exfalso. apply (lit_prefix_within d w [] v Hd); [cbn [app]; congruence|].
    destruct w; [congruence|reflexivity].
  - cbn [app occurs] in H.
    destruct (lit_prefix false w (c :: u ++ d :: v)) eqn:E.
    + left. apply occurs_of_prefix.
      apply (lit_prefix_within d w (c :: u) v Hd). cbn [app]. congruence.
    + destruct (IH v H) as [H1|H1]; [left; now apply occurs_cons|now right].
Qed.

End Occurrences.

Section ThinkSpans.
Import LlamaConfig.

Lemma replace_from_found ic r f b s pre m :
  search ic r b s = Some (pre, m) -> m_text m <> [] ->
  replace_from ic r f b s = pre ++ f m ++ replace_from ic r f false (m_rest m).
Proof.
  intros H Hm. rewrite replace_from_eq, H.
  destruct (m_text m); [congruence|reflexivity].
Qed.

Lemma THINK_OPEN_split : THINK_OPEN = str "<think" ++ [62%N].
Proof. reflexivity. Qed.

Lemma THINK_CLOSE_split : THINK_CLOSE = str "</think" ++ [62%N].
Proof. reflexivity. Qed.

(** The limit pass finds the span that starts at the first [<think>] and
    ends at the first [</think>] after it; its capture is the content. *)
Lemma search_think_capture (pre X post : jstring) :
  occurs THINK_OPEN (pre ++ str "<think") = false ->
  occurs THINK_CLOSE (X ++ str "</think") = false ->
  search false re_think_capture false
         (pre ++ THINK_OPEN ++ X ++ THINK_CLOSE ++ post) =
  Some (pre, MRes (THINK_OPEN ++ X ++ THINK_CLOSE) [X] post).
Proof.
  intros Ho Hc. unfold re_think_capture.
  rewrite THINK_OPEN_split, THINK_CLOSE_split in *.
  rewrite (search_after_open (str "<think") 62%N _ pre _
             (MRes (X ++ str "</think" ++ [62%N]) [X] post) Ho).
  - unfold after_lit. cbn [m_text m_caps m_rest]. reflexivity.
  - now apply lazy_until_captured.
Qed.

(** The strip pass finds the same span. *)
Lemma search_think (pre X post : jstring) :
  occurs THINK_OPEN (pre ++ str "<think") = false ->
  occurs THINK_CLOSE (X ++ str "</think") = false ->
  search false re_think false
         (pre ++ THINK_OPEN ++ X ++ THINK_CLOSE ++ post) =
  Some (pre, MRes (THINK_OPEN ++ X ++ THINK_CLOSE) [] post).
Proof.
  intros Ho Hc. unfold re_think.
  rewrite THINK_OPEN_split, THINK_CLOSE_split in *.
  rewrite (search_after_open (str "<think") 62%N _ pre _
             (MRes (X ++ str "</think" ++ [62%N]) [] post) Ho).
  - unfold after_lit. cbn [m_text m_caps m_rest]. reflexivity.
  - now apply lazy_until.
Qed.

(** The shortened content holds no [</think>] either. *)
Lemma shortened_no_close (X : jstring) :
  occurs THINK_CLOSE (X ++ str "</think") = false ->
  occurs THINK_CLOSE ((firstn 200 X ++ ELLIPSIS) ++ str "</think") = false.
Proof.
  intros H.
  destruct (occurs THINK_CLOSE ((firstn 200 X ++ ELLIPSIS) ++ str "</think"))
    eqn:E; trivial.
  exfalso.
  replace ((firstn 200 X ++ ELLIPSIS) ++ str "</think")
    with (firstn 200 X ++ 46%N :: (str ".." ++ str "</think")) in E
    by (rewrite <- app_assoc; reflexivity).
  apply (occurs_sep 46%N THINK_CLOSE) in E.
  - destruct E as [E|E]; [|vm_compute in E; discriminate].
    apply occurs_firstn in E. apply (occurs_app_l _ _ (str "</think")) in E.
    congruence.
  - vm_compute. intuition discriminate.
  - discriminate.
Qed.

End ThinkSpans.

Section ThinkClaims.
Import LlamaConfig.

Lemma limitThinking_from s :
  limitThinking s = replace_from false re_think_capture limit_callback false s.
Proof. unfold limitThinking, replace_fun. now apply replace_from_no_bos. Qed.

Lemma strip_think_from s :
  strip_think s = replace_from false re_think (fun _ => []) false s.
Proof. unfold strip_think, replace, replace_fun. now apply replace_from_no_bos. Qed.

Lemma limitThinking_span (pre X post : jstring) :
  occurs THINK_OPEN (pre ++ str "<think") = false ->
  occurs THINK_CLOSE (X ++ str "</think") = false ->
  limitThinking (pre ++ THINK_OPEN ++ X ++ THINK_CLOSE ++ post) =
  pre ++ THINK_OPEN ++
  (if 200 <? length X then firstn 200 X ++ ELLIPSIS else X) ++
  THINK_CLOSE ++ limitThinking post.
Proof.
  intros Ho Hc. rewrite !limitThinking_from.
  rewrite (replace_from_found _ _ _ _ _ _ _ (search_think_capture pre X post Ho Hc))
    by discriminate.
  cbn [m_rest]. f_equal. unfold limit_callback. cbn [m_caps m_text nth].
  destruct (200 <? length X); now rewrite <- !app_assoc.
Qed.

Lemma strip_think_span (pre X post : jstring) :
  occurs THINK_OPEN (pre ++ str "<think") = false ->
  occurs THINK_CLOSE (X ++ str "</think") = false ->
  strip_think (pre ++ THINK_OPEN ++ X ++ THINK_CLOSE ++ post) =
  pre ++ strip_think post.
Proof.
  intros Ho Hc. rewrite !strip_think_from.
  rewrite (replace_from_found _ _ _ _ _ _ _ (search_think pre X post Ho Hc))
    by discriminate.
  reflexivity.
Qed.

(** C2, as far as it holds.  For a text in which a span [<think>X</think>]
    is the first that the scan finds ([<think>] starts nowhere before it and
    [X] runs to the first [</think>]): the limit pass keeps the span when [X]
    has 200 code units at most and otherwise rewrites it to the tag around the
    first 200 code units of [X] and "..."; the strip pass then removes the
    span, tags and content, whichever form it has; and when no span is found
    in the rest of the text, the rest is kept as it is, so that only the
    passes after the think passes still work on the text without the
    span. *)
Theorem C2_found_think_span_removed (pre X post : jstring) :
  occurs THINK_OPEN (pre ++ str "<think") = false ->
  occurs THINK_CLOSE (X ++ str "</think") = false ->
  limitThinking (pre ++ THINK_OPEN ++ X ++ THINK_CLOSE ++ post) =
    pre ++ THINK_OPEN ++
    (if 200 <? length X then firstn 200 X ++ str "..." else X) ++
    THINK_CLOSE ++ limitThinking post /\
  strip_think (limitThinking (pre ++ THINK_OPEN ++ X ++ THINK_CLOSE ++ post)) =
    pre ++ strip_think (limitThinking post) /\
  (test false re_think_capture post = false ->
   test false re_think post = false ->
   cleanResponse (pre ++ THINK_OPEN ++ X ++ THINK_CLOSE ++ post) =
     trim (collapse_hspace (collapse_newlines
       (strip_end (strip_end_of_sentence (strip_special
         (strip_redacted (pre ++ post)))))))).
Proof.
  intros Ho Hc.
  assert (E2 : strip_think
                 (limitThinking (pre ++ THINK_OPEN ++ X ++ THINK_CLOSE ++ post)) =
               pre ++ strip_think (limitThinking post)).
  { rewrite (limitThinking_span pre X post Ho Hc).
    apply strip_think_span; trivial.
    destruct (200 <? length X); trivial. now apply shortened_no_close. }
  split; [now apply limitThinking_span|]. split; [exact E2|].
  intros T1 T2. unfold cleanResponse, strip_markers. rewrite E2.
  assert (L : limitThinking post = post).
  { unfold limitThinking, replace_fun. apply replace_from_none.
    now apply test_false_search. }
  rewrite L. unfold strip_think at 1. now rewrite replace_unmatched.
Qed.

Lemma C2_found_think_span_removed_witness :
  occurs THINK_OPEN (str "Sure. " ++ str "<think") = false /\
  occurs THINK_CLOSE (repeat 97%N 205 ++ str "</think") = false /\
  limitThinking (str "Sure. " ++ THINK_OPEN ++ repeat 97%N 205 ++ THINK_CLOSE
                 ++ str " Done") =
    str "Sure. " ++ THINK_OPEN ++ (repeat 97%N 200 ++ str "...") ++ THINK_CLOSE
    ++ str " Done" /\
  strip_think (limitThinking (str "Sure. " ++ THINK_OPEN ++ repeat 97%N 205
                              ++ THINK_CLOSE ++ str " Done")) =
    str "Sure.  Done".
Proof.
  assert (Ho : occurs THINK_OPEN (str "Sure. " ++ str "<think") = false)
    by (vm_compute; reflexivity).
  assert (Hc : occurs THINK_CLOSE (repeat 97%N 205 ++ str "</think") = false)
    by (vm_compute; reflexivity).
  split; [exact Ho|]. split; [exact Hc|].
  destruct (C2_found_think_span_removed (str "Sure. ") (repeat 97%N 205)
              (str " Done") Ho Hc) as [H1 [H2 _]].
  split.
  - eapply eq_trans; [exact H1|]. vm_compute. reflexivity.
  - eapply eq_trans; [exact H2|]. vm_compute. reflexivity.
Defined.

(** A think span in the output: the removal of the inner, empty span joins
    the text around it into a span, and the scan has already passed its
    start. *)
Lemma C2_think_span_in_output :
  cleanResponse (str "<thi<think></think>nk>x</think>") = str "<think>x</think>" /\
  test false re_think (cleanResponse (str "<thi<think></think>nk>x</think>"))
    = true.
Proof. split; vm_compute; reflexivity. Qed.

End ThinkClaims.

(* ------------------------------------------------------------------ *)
(** ** Worked inputs *)

Section Worked.
Import LlamaConfig Chat.

Example greeting_trimmed_mixed_case :
  isSimpleGreeting (SP :: str "HeLLo" ++ [LF]) = true.
Proof. vm_compute. reflexivity. Qed.

Example greeting_needs_whole_text : isSimpleGreeting (str "hi there") = false.
Proof. vm_compute. reflexivity. Qed.

Example lazy_star_stops_at_first_close :
  strip_think (str "a<think>b</think>c</think>d") = str "ac</think>d".
Proof. vm_compute. reflexivity. Qed.

Example dot_stops_at_newline :
  strip_special (str "<|a" ++ [LF] ++ str "b|>") = str "<|a" ++ [LF] ++ str "b|>".
Proof. vm_compute. reflexivity. Qed.

Example think_spans_newlines :
  strip_think (str "<think>a" ++ [LF] ++ str "b</think>c") = str "c".
Proof. vm_compute. reflexivity. Qed.

Example end_markers_ignore_case :
  cleanResponse (str "a<" ++ FWBAR :: str "xENDy" ++ FWBAR :: str ">b< " ++
                 FWBAR :: str "End_of_Sentence" ++ FWBAR :: str ">c") = str "abc".
Proof. vm_compute. reflexivity. Qed.

Example greedy_newlines_take_whole_run :
  collapse_newlines (str "a" ++ [LF; SP; LF; TAB; LF; LF; SP] ++ str "b")
  = str "a" ++ [LF; LF; SP] ++ str "b".
Proof. vm_compute. reflexivity. Qed.

Example cleaned_reply :
  cleanResponse (str "<think>plan</think>" ++ [LF; LF] ++ str "Hello,   world!"
                 ++ [LF; LF; LF; LF] ++ str "Bye.<|im_end|>" ++ [LF])
  = str "Hello, world!" ++ [LF; LF] ++ str "Bye.".
Proof. vm_compute. reflexivity. Qed.

Example id_of_third_call :
  generate_ids [1700000000000%Z; 1700000000000%Z; 1700000000001%Z] 0
  = [str "msg_1700000000000_1"; str "msg_1700000000000_2";
     str "msg_1700000000001_3"].
Proof. vm_compute. reflexivity. Qed.

(** [increment] against the addition of binary64, below, at and above 2^53. *)
Example increment_is_binary64_sum :
  Forall (fun c : N =>
            (of_uint63 (Uint63.of_Z (Z.of_N c)) + 1)%float =
            of_uint63 (Uint63.of_Z (Z.of_N (increment c))))
         [0; 41; 9007199254740990; 9007199254740991; 9007199254740992;
          9007199254740994; 9007199254740996; 18014398509481982;
          18014398509481984; 18014398509481988]%N.
Proof. repeat constructor. Qed.

(** [toFixed(1)] rounds the binary64 value, not the decimal text. *)
#[warnings="-inexact-float"]
Example toFixed1_rounds :
  map (toFixed1 (fun _ => []))
      [0.05; 0.25; 0.35; 99.95; 33.33333333333333; -0.04; 100]%float =
  [str "0.1"; str "0.3"; str "0.3"; str "100.0"; str "33.3"; str "-0.0";
   str "100.0"].
Proof. vm_compute. reflexivity. Qed.

End Worked.

(* ================================================================== *)
(** * Further properties of the clean-up *)

Section ReplaceLength.

Lemma search_match_here ic r : forall s b pre m,
  search ic r b s = Some (pre, m) ->
  exists b', match_here ic r b' (m_text m ++ m_rest m) = Some m.
Proof.
  induction s as [|c t IH]; simpl; intros b pre m H.
  - destruct (match_here ic r b []) eqn:E; [|discriminate].
    inversion H; subst. exists b.
    now rewrite <- (match_here_sound _ _ _ _ _ E).
  - destruct (match_here ic r b (c :: t)) eqn:E.
    + inversion H; subst. exists b.
      now rewrite <- (match_here_sound _ _ _ _ _ E).
    + destruct (search ic r false t) as [[pre' m']|] eqn:E'; [|discriminate].
      inversion H; subst. eapply IH; eauto.
Qed.

Variables (ic : bool) (r : regex) (f : mres -> jstring).

Hypothesis shorter : forall b s m,
  match_here ic r b s = Some m -> length (f m) <= length (m_text m).

(** A pass whose replacements are no longer than the matches never lengthens
    the text ... *)
Lemma replace_from_length : forall s b,
  length (replace_from ic r f b s) <= length s.
Proof.
  induction s as [s IH] using length_ind. intros b.
  rewrite replace_from_eq.
  destruct (search ic r b s) as [[pre m]|] eqn:E; [|lia].
  pose proof (search_sound _ _ _ _ _ _ E) as Hs.
  destruct (search_match_here _ _ _ _ _ _ E) as [b' Hm].
  apply shorter in Hm.
  assert (L : length s = length pre + (length (m_text m) + length (m_rest m)))
    by (rewrite Hs at 1; now rewrite !length_app).
  rewrite !length_app.
  destruct (m_text m) as [|x tx] eqn:Et.
  - destruct (m_rest m) as [|c t] eqn:Er; simpl in *; [lia|].
    assert (length (replace_from ic r f false t) <= length t)
      by (apply IH; lia). lia.
  - simpl in *.
    assert (length (replace_from ic r f false (m_rest m)) <= length (m_rest m))
      by (apply IH; lia). lia.
Qed.

(** ... and shortens it when the first replacement is shorter than its
    match. *)
Lemma replace_from_shrinks s b pre m :
  search ic r b s = Some (pre, m) -> length (f m) < length (m_text m) ->
  length (replace_from ic r f b s) < length s.
Proof.
  intros E Hlt. rewrite replace_from_eq, E.
  pose proof (search_sound _ _ _ _ _ _ E) as Hs.
  assert (L : length s = length pre + (length (m_text m) + length (m_rest m)))
    by (rewrite Hs at 1; now rewrite !length_app).
  rewrite !length_app.
  destruct (m_text m) as [|x tx] eqn:Et; [simpl in Hlt; lia|].
  pose proof (replace_from_length (m_rest m) false). simpl in *. lia.
Qed.

End ReplaceLength.

(* ------------------------------------------------------------------ *)
(** ** What the search for a span finds *)

Section SpanFound.

Lemma occurs_short w : forall u : jstring, length u < length w -> occurs w u = false.
Proof.
  induction u as [|c u IH]; intros L.
  - cbn [occurs]. destruct w; [simpl in L; lia|reflexivity].
  - cbn [occurs].
    destruct (lit_prefix false w (c :: u)) as [[m r]|] eqn:E.
    + apply lit_prefix_sound in E. destruct E as [E1 E2].
      apply (f_equal (@length _)) in E1. rewrite length_app in E1. lia.
    + apply IH. simpl in L. lia.
Qed.

Lemma occurs_mid w : forall a b : jstring, occurs w (a ++ w ++ b) = true.
Proof.
  induction a as [|c a IH]; intros b.
  - apply occurs_of_prefix. cbn [app]. now rewrite lit_prefix_app.
  - cbn [app]. apply occurs_cons. apply IH.
Qed.

Lemma lit_prefix_cut w (u v : jstring) :
  lit_prefix false w (u ++ v) = None -> lit_prefix false w u = None.
Proof.
  intros H. destruct (lit_prefix false w u) eqn:E; trivial.
  exfalso. apply (lit_prefix_app_some w u v); congruence.
Qed.

Variables (w' : jstring) (x : cu).
Local Abbreviation w := (w' ++ [x]).

(** A match of [.*?w] runs to the first [w] ... *)
Lemma lazy_found : forall (rest : jstring) (m : mres),
  match_here false (Seq (StarLazy any) (Lit w)) false rest = Some m ->
  exists X : jstring,
    rest = X ++ w ++ m_rest m /\ m_text m = X ++ w /\
    occurs w (X ++ w') = false.
Proof.
  induction rest as [|c t IH]; intros m H.
  - unfold match_here in H. rewrite matches_lazy_nil in H.
    cbn [matches lit_prefix] in H. destruct w' in H; discriminate.
  - rewrite match_here_lazy_cons, match_here_lit in H.
    destruct (lit_prefix false w (c :: t)) as [[m1 r]|] eqn:E.
    + inversion H; subst m. apply lit_prefix_exact in E. destruct E as [-> E].
      exists []. cbn [app m_rest m_text]. repeat split; trivial.
      apply occurs_short. rewrite length_app. simpl. lia.
    + cbn [any] in H.
      destruct (match_here false (Seq (StarLazy any) (Lit w)) false t)
        as [m'|] eqn:E'; [|discriminate].
      inversion H; subst m. destruct (IH m' eq_refl) as [X [H1 [H2 H3]]].
      exists (c :: X). cbn [prepend m_rest m_text app].
      rewrite <- H1, H2. repeat split; trivial.
      cbn [occurs].
      assert (N : lit_prefix false w (c :: X ++ w') = None).
      { apply (lit_prefix_cut w (c :: X ++ w') (x :: m_rest m')).
        cbn [app]. rewrite <- app_assoc. cbn [app].
        rewrite H1 in E. now rewrite <- app_assoc in E. }
      now rewrite N.
Qed.

(** ... and there is one wherever [w] occurs. *)
Lemma lazy_complete : forall rest : jstring,
  occurs w rest = true ->
  match_here false (Seq (StarLazy any) (Lit w)) false rest <> None.
Proof.
  induction rest as [|c t IH]; intros H.
  - cbn [occurs] in H. destruct (lit_prefix false w []) eqn:E; [|discriminate].
    destruct w' in E; discriminate.
  - rewrite match_here_lazy_cons, match_here_lit.
    cbn [occurs] in H.
    destruct (lit_prefix false w (c :: t)) as [[m1 r]|]; [discriminate|].
    cbn [any]. specialize (IH H).
    destruct (match_here false (Seq (StarLazy any) (Lit w)) false t);
      [discriminate|congruence].
Qed.

Variables (o' : jstring) (g : cu).
Local Abbreviation o := (o' ++ [g]).

(** The span that the search for [o.*?w] finds starts at the first [o] and
    runs to the first [w] after it. *)
Lemma span_found : forall (s pre : jstring) (m : mres),
  search false (Seq (Lit o) (Seq (StarLazy any) (Lit w))) false s
    = Some (pre, m) ->
  exists X : jstring,
    s = pre ++ o ++ X ++ w ++ m_rest m /\ m_text m = o ++ X ++ w /\
    occurs o (pre ++ o') = false /\ occurs w (X ++ w') = false.
Proof.
  induction s as [|c t IH]; intros pre m H.
  - cbn [search] in H. rewrite match_here_lit_seq in H.
    cbn [lit_prefix] in H. destruct o' in H; discriminate.
  - cbn [search] in H. rewrite match_here_lit_seq in H.
    destruct (lit_prefix false o (c :: t)) as [[m1 r]|] eqn:E.
    + apply lit_prefix_exact in E. destruct E as [-> E].
      destruct (match_here false (Seq (StarLazy any) (Lit w)) false r)
        as [m'|] eqn:E'.
      * cbn [option_map] in H. inversion H; subst pre m.
        destruct (lazy_found r m' E') as [X [H1 [H2 H3]]].
        exists X. cbn [after_lit m_rest m_text app].
        rewrite E, H2. rewrite H1 at 1. rewrite <- !app_assoc.
        repeat split; trivial.
        apply occurs_short. rewrite length_app. simpl. lia.
      * exfalso. cbn [option_map] in H.
        destruct (search false (Seq (Lit o) (Seq (StarLazy any) (Lit w))) false t)
          as [[pre' m'']|] eqn:E''; [|discriminate].
        destruct (IH pre' m'' eq_refl) as [X [H1 _]].
        apply (lazy_complete r); trivial.
        set (P := c :: pre' ++ o). set (Z := X ++ w ++ m_rest m'').
        assert (E3 : o ++ r = P ++ Z)
          by (rewrite <- E, H1; unfold P, Z; cbn [app]; now rewrite <- !app_assoc).
        assert (L : r = skipn (length o) P ++ Z).
        { assert (Hl : skipn (length o) (o ++ r) = r)
            by (rewrite skipn_app, skipn_all, Nat.sub_diag; reflexivity).
          rewrite <- Hl, E3, skipn_app.
          replace (length o - length P) with 0
            by (unfold P; cbn [length]; rewrite !length_app; lia).
          reflexivity. }
        rewrite L. unfold Z. rewrite app_assoc. apply occurs_mid.
    + destruct (search false (Seq (Lit o) (Seq (StarLazy any) (Lit w))) false t)
        as [[pre' m'']|] eqn:E''; [|discriminate].
      inversion H; subst pre m.
      destruct (IH pre' m'' eq_refl) as [X [H1 [H2 [H3 H4]]]].
      exists X. cbn [app]. rewrite <- H1. repeat split; trivial.
      cbn [occurs].
      assert (N : lit_prefix false o (c :: pre' ++ o') = None).
      { apply (lit_prefix_cut o (c :: pre' ++ o') (g :: X ++ w ++ m_rest m'')).
        cbn [app]. rewrite <- app_assoc. cbn [app].
        rewrite H1 in E. rewrite <- (app_assoc o' [g]) in E. exact E. }
      now rewrite N.
Qed.

End SpanFound.

(* ------------------------------------------------------------------ *)
(** ** The pass that shortens think spans *)

Section LimitPass.
Import LlamaConfig.

(** A match without its captures. *)
Local Abbreviation forget := (fun m : mres => MRes (m_text m) [] (m_rest m)).

Lemma forget_grp_lazy ic p w : forall s,
  map forget (matches ic (Seq (Grp (StarLazy p)) (Lit w)) false s) =
  map forget (matches ic (Seq (StarLazy p) (Lit w)) false s).
Proof.
  induction s as [|c t IH].
  - rewrite matches_grp_lazy_nil, matches_lazy_nil, map_map.
    apply map_ext. reflexivity.
  - rewrite matches_grp_lazy_cons, matches_lazy_cons, !map_app. f_equal.
    + rewrite map_map. apply map_ext. reflexivity.
    + destruct (p c); [|reflexivity].
      transitivity
        (map (prepend c)
             (map forget (matches ic (Seq (Grp (StarLazy p)) (Lit w)) false t))).
      * rewrite !map_map. apply map_ext. reflexivity.
      * rewrite IH, !map_map. apply map_ext. reflexivity.
Qed.

Lemma forget_think : forall s,
  map forget (matches false re_think_capture false s) =
  map forget (matches false re_think false s).
Proof.
  intros s. unfold re_think_capture, re_think. rewrite !matches_lit_seq.
  destruct (lit_prefix false THINK_OPEN s) as [[m r]|]; [|reflexivity].
  transitivity
    (map (after_lit m)
         (map forget (matches false (Seq (Grp (StarLazy any)) (Lit THINK_CLOSE))
                        false r))).
  - rewrite !map_map. apply map_ext. reflexivity.
  - rewrite forget_grp_lazy, !map_map. apply map_ext. reflexivity.
Qed.

Lemma search_think_none : forall s,
  search false re_think false s = None ->
  search false re_think_capture false s = None.
Proof.
  assert (M : forall s, match_here false re_think false s = None ->
                        match_here false re_think_capture false s = None).
  { intros s H. unfold match_here in *. pose proof (forget_think s) as F.
    destruct (matches false re_think false s); [|discriminate].
    now destruct (matches false re_think_capture false s). }
  induction s as [|c t IH]; cbn [search]; intros H.
  - destruct (match_here false re_think false []) eqn:E; [discriminate|].
    now rewrite (M _ E).
  - destruct (match_here false re_think false (c :: t)) eqn:E; [discriminate|].
    rewrite (M _ E).
    destruct (search false re_think false t) as [[pre m]|]; [discriminate|].
    now rewrite IH.
Qed.

Lemma think_span_found (s pre : jstring) (m : mres) :
  search false re_think false s = Some (pre, m) ->
  exists X : jstring,
    s = pre ++ THINK_OPEN ++ X ++ THINK_CLOSE ++ m_rest m /\
    m_text m = THINK_OPEN ++ X ++ THINK_CLOSE /\
    occurs THINK_OPEN (pre ++ str "<think") = false /\
    occurs THINK_CLOSE (X ++ str "</think") = false.
Proof.
  intros H.
  exact (span_found (str "</think") 62%N (str "<think") 62%N s pre m H).
Qed.

Lemma strip_limit : forall s, strip_think (limitThinking s) = strip_think s.
Proof.
  induction s as [s IH] using length_ind.
  destruct (search false re_think false s) as [[pre m]|] eqn:E.
  - destruct (think_span_found s pre m E) as [X [Hs [_ [Ho Hc]]]].
    rewrite Hs. rewrite (limitThinking_span pre X _ Ho Hc).
    rewrite (strip_think_span pre X _ Ho Hc).
    rewrite strip_think_span; trivial.
    + f_equal. apply IH. rewrite Hs, !length_app.
      assert (0 < length THINK_OPEN) by (simpl; lia). lia.
    + destruct (200 <? length X); trivial. now apply shortened_no_close.
  - f_equal. rewrite limitThinking_from. apply replace_from_none.
    now apply search_think_none.
Qed.

End LimitPass.

Section CleanLength.
Import LlamaConfig.

Lemma first_char_text ic r a b s m :
  first_char r = Some a -> In m (matches ic r b s) -> m_text m <> [].
Proof.
  intros F H.
  destruct r as [| |w|p|p|p|r1 r2|r1 r2|r1]; try discriminate.
  - destruct w as [|a' w]; [discriminate|]. cbn [matches lit_prefix] in H.
    destruct s as [|c t]; [contradiction|].
    destruct (chr_eqb ic a' c); [|contradiction].
    destruct (lit_prefix ic w t) as [[m1 r]|]; [|contradiction].
    destruct H as [<-|[]]. discriminate.
  - destruct r1 as [| |w|p|p|p|r11 r12|r11 r12|r11]; try discriminate.
    destruct w as [|a' w]; [discriminate|].
    cbn [matches lit_prefix] in H.
    destruct s as [|c t]; [contradiction|].
    destruct (chr_eqb ic a' c); [|contradiction].
    destruct (lit_prefix ic w t) as [[m1 r]|]; [|contradiction].
    cbn [flat_map m_text m_caps m_rest] in H. rewrite app_nil_r in H.
    apply in_map_iff in H. destruct H as [m2 [<- _]]. discriminate.
Qed.

Lemma first_char_none ic r a : first_char r = Some a ->
  forall s b, (forall c, In c s -> chr_eqb ic a c = false) ->
  search ic r b s = None.
Proof.
  intros F.
  assert (M : forall s b, (forall c, In c s -> chr_eqb ic a c = false) ->
                          match_here ic r b s = None).
  { intros s b H. unfold match_here.
    destruct r as [| |w|p|p|p|r1 r2|r1 r2|r1]; try discriminate.
    - destruct w as [|a' w]; [discriminate|]. inversion F; subst a'.
      cbn [matches lit_prefix]. destruct s as [|c t]; trivial.
      now rewrite (H c (or_introl eq_refl)).
    - destruct r1 as [| |w|p|p|p|r11 r12|r11 r12|r11]; try discriminate.
      destruct w as [|a' w]; [discriminate|]. inversion F; subst a'.
      cbn [matches lit_prefix]. destruct s as [|c t]; trivial.
      now rewrite (H c (or_introl eq_refl)). }
  induction s as [|c t IH]; intros b H; cbn [search]; rewrite (M _ _ H); trivial.
  rewrite IH; trivial. intros d Hd. apply H. now right.
Qed.

(** A pass that deletes the matches of a pattern never lengthens the text,
    and shortens it when the pattern, which starts with a literal, matches
    somewhere. *)
Lemma delete_length ic r s : length (replace ic r [] s) <= length s.
Proof.
  unfold replace, replace_fun. apply replace_from_length.
  intros; simpl; lia.
Qed.

Lemma delete_shrinks ic r a s :
  first_char r = Some a -> test ic r s = true ->
  length (replace ic r [] s) < length s.
Proof.
  intros F T. unfold test in T.
  destruct (search ic r true s) as [[pre m]|] eqn:E; [|discriminate].
  unfold replace, replace_fun.
  apply (replace_from_shrinks ic r (fun _ => [])
           (fun _ _ m0 _ => Nat.le_0_l (length (m_text m0))) s true pre m E).
  destruct (search_match_here _ _ _ _ _ _ E) as [b' Hm].
  unfold match_here in Hm.
  destruct (matches ic r b' (m_text m ++ m_rest m)) as [|m' l] eqn:El;
    [discriminate|].
  inversion Hm; subst m'.
  assert (N : m_text m <> []).
  { apply (first_char_text ic r a b' (m_text m ++ m_rest m) m F).
    rewrite El. now left. }
  destruct (m_text m); [congruence|simpl; lia].
Qed.

Lemma skip_nl_lead : forall s, length (skip_nl s) + lead_nl s <= length s.
Proof.
  induction s as [|c t IH]; [simpl; lia|].
  cbn [skip_nl lead_nl].
  destruct (is_ws c); cbn [andb].
  - destruct (c =? LF)%N; cbn [Nat.add].
    + cbn [Nat.leb length]. lia.
    + destruct (1 <=? lead_nl t) eqn:E; cbn [length].
      * lia.
      * apply Nat.leb_gt in E. lia.
  - cbn [length]. lia.
Qed.

Lemma cns_length : forall s, length (cns s) <= length s.
Proof.
  induction s as [s IH] using length_ind.
  destruct s as [|c t]; [now rewrite cns_nil|].
  rewrite cns_cons.
  destruct ((c =? LF)%N && (2 <=? lead_nl t)) eqn:E.
  - apply andb_true_iff in E. destruct E as [_ E]. apply Nat.leb_le in E.
    pose proof (skip_nl_lead t).
    assert (length (cns (skip_nl t)) <= length (skip_nl t))
      by (apply IH; simpl; lia).
    simpl. lia.
  - assert (length (cns t) <= length t) by (apply IH; simpl; lia).
    simpl. lia.
Qed.

Lemma runs_to_length p : forall s, length (runs_to p [SP] s) <= length s.
Proof.
  induction s as [s IH] using length_ind.
  destruct s as [|c t]; [now rewrite runs_to_nil|].
  rewrite runs_to_cons. pose proof (dropWhile_length p t).
  destruct (p c).
  - assert (length (runs_to p [SP] (dropWhile p t)) <= length (dropWhile p t))
      by (apply IH; simpl; lia).
    simpl. lia.
  - assert (length (runs_to p [SP] t) <= length t) by (apply IH; simpl; lia).
    simpl. lia.
Qed.

Lemma trim_length s : length (trim s) <= length s.
Proof.
  unfold trim, trimEnd, trimStart. rewrite length_rev.
  pose proof (dropWhile_length is_ws (rev (dropWhile is_ws s))).
  pose proof (dropWhile_length is_ws s). rewrite length_rev in *. lia.
Qed.

Lemma collapse_ws_runs s : Basic.collapse_ws s = runs_to is_ws [SP] s.
Proof.
  unfold Basic.collapse_ws, replace, replace_fun, runs_to.
  now apply replace_from_no_bos.
Qed.

Lemma Basic_strip_markers_length s : length (Basic.strip_markers s) <= length s.
Proof.
  unfold Basic.strip_markers, strip_end, strip_end_of_sentence, strip_special,
    strip_redacted, strip_think.
  repeat (eapply Nat.le_trans; [apply delete_length|]). lia.
Qed.

End CleanLength.

Section CleanFacts.
Import LlamaConfig.

Lemma Basic_strip_markers_absent (t : jstring) :
  Basic.markers_absent t = true -> Basic.strip_markers t = t.
Proof.
  unfold Basic.markers_absent. intros H.
  repeat (apply andb_true_iff in H; destruct H as [H ?]).
  repeat match goal with
  | X : negb _ = true |- _ => apply negb_true_iff in X
  end.
  unfold Basic.strip_markers, strip_end, strip_end_of_sentence, strip_special,
    strip_redacted, strip_think.
  rewrite (replace_unmatched false re_think) by assumption.
  rewrite (replace_unmatched false re_redacted) by assumption.
  rewrite (replace_unmatched false re_special) by assumption.
  rewrite (replace_unmatched true re_end_of_sentence) by assumption.
  rewrite (replace_unmatched true re_end) by assumption.
  reflexivity.
Qed.

Lemma strip_markers_Basic (text : jstring) :
  strip_markers text = Basic.strip_markers text.
Proof. unfold strip_markers, Basic.strip_markers. now rewrite strip_limit. Qed.

Lemma delete_fixed ic r a s :
  first_char r = Some a -> length s <= length (replace ic r [] s) ->
  test ic r s = false.
Proof.
  intros F L. destruct (test ic r s) eqn:T; trivial.
  pose proof (delete_shrinks ic r a s F T). lia.
Qed.

Lemma ws_range c : is_ws c = true -> (c < 14 \/ c = 32 \/ 160 <= c)%N.
Proof.
  unfold is_ws. intros H.
  repeat (apply orb_true_iff in H; destruct H as [H|H]);
    try (apply andb_true_iff in H; destruct H as [H1 H2];
         apply N.leb_le in H1; apply N.leb_le in H2);
    try apply N.eqb_eq in H.
  all: lia.
Qed.

Lemma ws_not_marker_start ic c :
  is_ws c = true ->
  chr_eqb ic 60%N c = false /\ chr_eqb false 82%N c = false.
Proof.
  intros H. apply ws_range in H.
  assert (R : canonicalize c = c).
  { unfold canonicalize.
    destruct (N.leb_spec 97 c) as [L|L]; [|reflexivity].
    destruct (N.leb_spec c 122) as [L'|L']; [lia|reflexivity]. }
  unfold chr_eqb. rewrite R. change (canonicalize 60%N) with 60%N.
  split; [destruct ic|]; apply N.eqb_neq; lia.
Qed.

Lemma ws_markers_absent (t : jstring) :
  forallb is_ws t = true -> Basic.markers_absent t = true.
Proof.
  intros H. rewrite forallb_forall in H.
  assert (N60 : forall ic c, In c t -> chr_eqb ic 60%N c = false)
    by (intros ic c Hc; now apply ws_not_marker_start, H).
  assert (N82 : forall c, In c t -> chr_eqb false 82%N c = false)
    by (intros c Hc; now apply (ws_not_marker_start false), H).
  unfold Basic.markers_absent, test.
  rewrite (first_char_none false re_think 60%N eq_refl t true (N60 false)).
  rewrite (first_char_none false re_redacted 82%N eq_refl t true N82).
  rewrite (first_char_none false re_special 60%N eq_refl t true (N60 false)).
  rewrite (first_char_none true re_end_of_sentence 60%N eq_refl t true (N60 true)).
  rewrite (first_char_none true re_end 60%N eq_refl t true (N60 true)).
  reflexivity.
Qed.

Lemma forallb_dropWhile (p q : cu -> bool) : forall s,
  forallb p s = true -> forallb p (dropWhile q s) = true.
Proof.
  induction s as [|c t IH]; simpl; trivial. intros H.
  destruct (q c); [|exact H].
  apply andb_true_iff in H. now apply IH.
Qed.

Lemma forallb_skip_nl (p : cu -> bool) : forall s,
  forallb p s = true -> forallb p (skip_nl s) = true.
Proof.
  induction s as [|c t IH]; trivial. intros H. cbn [skip_nl].
  destruct (is_ws c && (1 <=? lead_nl (c :: t))); [|exact H].
  cbn [forallb] in H. apply andb_true_iff in H. now apply IH.
Qed.

Lemma forallb_cns : forall s : jstring,
  forallb is_ws s = true -> forallb is_ws (cns s) = true.
Proof.
  induction s as [s IH] using length_ind. intros H.
  destruct s as [|c t]; [now rewrite cns_nil|].
  rewrite cns_cons. cbn [forallb] in H. apply andb_true_iff in H.
  destruct H as [Hc Ht].
  destruct ((c =? LF)%N && (2 <=? lead_nl t)).
  - cbn [forallb]. change (is_ws LF) with true. cbn [andb].
    apply IH; [|now apply forallb_skip_nl].
    pose proof (skip_nl_length t). simpl. lia.
  - cbn [forallb]. rewrite Hc. apply IH; trivial. simpl. lia.
Qed.

Lemma forallb_chs : forall s : jstring,
  forallb is_ws s = true -> forallb is_ws (chs s) = true.
Proof.
  induction s as [s IH] using length_ind. intros H.
  destruct s as [|c t]; [now rewrite chs_nil|].
  rewrite chs_cons. cbn [forallb] in H. apply andb_true_iff in H.
  destruct H as [Hc Ht].
  destruct (is_hspace c).
  - cbn [forallb]. change (is_ws SP) with true. cbn [andb].
    apply IH; [|now apply forallb_dropWhile].
    pose proof (dropWhile_length is_hspace t). simpl. lia.
  - cbn [forallb]. rewrite Hc. apply IH; trivial. simpl. lia.
Qed.

Lemma trim_all_ws : forall s, forallb is_ws s = true -> trim s = [].
Proof.
  intros s H. unfold trim, trimStart.
  assert (E : dropWhile is_ws s = []).
  { induction s as [|c t IH]; trivial. cbn [forallb] in H.
    apply andb_true_iff in H. destruct H as [Hc Ht].
    cbn [dropWhile]. rewrite Hc. now apply IH. }
  rewrite E. apply trimEnd_nil.
Qed.

(** X1.  The pass that shortens the content of think spans is not observable:
    the pass that removes think spans gives the same text with and without it
    on every input, so the marker passes of [cleanResponse] act as those of
    the earlier [cleanResponse] without the limit, and [cleanResponse] is the
    white-space passes on their result. *)
Theorem limit_pass_unobservable (text : jstring) :
  strip_think (limitThinking text) = strip_think text /\
  strip_markers text = Basic.strip_markers text /\
  cleanResponse text =
    trim (collapse_hspace (collapse_newlines (Basic.strip_markers text))).
Proof.
  split; [apply strip_limit|]. split; [apply strip_markers_Basic|].
  unfold cleanResponse. now rewrite strip_markers_Basic.
Qed.

(** X2.  [cleanResponse] never returns a text longer than its argument, in
    either version, although the limit pass alone can lengthen a text by two
    code units. *)
Theorem cleanResponse_never_longer (text : jstring) :
  length (cleanResponse text) <= length text /\
  length (Basic.cleanResponse text) <= length text /\
  length (limitThinking (THINK_OPEN ++ repeat 97%N 201 ++ THINK_CLOSE)) =
    length (THINK_OPEN ++ repeat 97%N 201 ++ THINK_CLOSE) + 2.
Proof.
  split; [|split].
  - unfold cleanResponse. rewrite strip_markers_Basic.
    rewrite collapse_newlines_cns, collapse_hspace_chs.
    eapply Nat.le_trans; [apply trim_length|].
    eapply Nat.le_trans; [apply runs_to_length|].
    eapply Nat.le_trans; [apply cns_length|].
    apply Basic_strip_markers_length.
  - unfold Basic.cleanResponse. rewrite collapse_ws_runs.
    eapply Nat.le_trans; [apply trim_length|].
    eapply Nat.le_trans; [apply runs_to_length|].
    apply Basic_strip_markers_length.
  - vm_compute. reflexivity.
Qed.

(** X3.  A completion that is missing, empty or made of white space only is
    answered with the placeholder "No response generated". *)
Theorem blank_completion_placeholder (text : jstring) :
  forallb is_ws text = true ->
  cleanResponse text = [] /\
  sendMessage_result (Some text) = NO_RESPONSE /\
  sendMessage_result None = NO_RESPONSE.
Proof.
  intros H.
  assert (E : cleanResponse text = []).
  { unfold cleanResponse. rewrite strip_markers_Basic.
    rewrite (Basic_strip_markers_absent text (ws_markers_absent text H)).
    rewrite collapse_newlines_cns, collapse_hspace_chs.
    apply trim_all_ws. now apply forallb_chs, forallb_cns. }
  split; [exact E|]. split; [|reflexivity].
  unfold sendMessage_result. destruct (truthy text).
  - now rewrite E.
  - reflexivity.
Qed.

Lemma blank_completion_placeholder_witness :
  forallb is_ws (str "  " ++ [LF; TAB; LF]) = true /\
  sendMessage_result (Some (str "  " ++ [LF; TAB; LF])) = NO_RESPONSE.
Proof.
  split; [reflexivity|].
  apply (blank_completion_placeholder (str "  " ++ [LF; TAB; LF])).
  reflexivity.
Defined.

(** X4.  The texts that [cleanResponse] returns unchanged are exactly those in
    which none of the five marker patterns matches, no newline is followed
    across white space by two more, every space or tab is a single space
    between other characters, and no white space is at either end. *)
Theorem cleanResponse_fixed_points (t : jstring) :
  cleanResponse t = t <->
  Basic.markers_absent t = true /\ nl_normal t = true /\
  hs_normal t = true /\ trim t = t.
Proof.
  split.
  - intros H. destruct (cleanResponse_shape t) as [S1 [S2 S3]].
    rewrite H in S1, S2, S3. split; [|now repeat split].
    assert (L : length t <= length (Basic.strip_markers t)).
    { rewrite <- H at 1. unfold cleanResponse. rewrite strip_markers_Basic.
      rewrite collapse_newlines_cns, collapse_hspace_chs.
      eapply Nat.le_trans; [apply trim_length|].
      eapply Nat.le_trans; [apply runs_to_length|]. apply cns_length. }
    unfold Basic.strip_markers, strip_end, strip_end_of_sentence,
      strip_special, strip_redacted, strip_think in L.
    assert (T1 : test false re_think t = false).
    { apply (delete_fixed _ _ 60%N); [reflexivity|].
      eapply Nat.le_trans; [exact L|].
      repeat first [apply Nat.le_refl
                   |eapply Nat.le_trans; [apply delete_length|]]. }
    rewrite (replace_unmatched _ _ _ _ T1) in L.
    assert (T2 : test false re_redacted t = false).
    { apply (delete_fixed _ _ 82%N); [reflexivity|].
      eapply Nat.le_trans; [exact L|].
      repeat first [apply Nat.le_refl
                   |eapply Nat.le_trans; [apply delete_length|]]. }
    rewrite (replace_unmatched _ _ _ _ T2) in L.
    assert (T3 : test false re_special t = false).
    { apply (delete_fixed _ _ 60%N); [reflexivity|].
      eapply Nat.le_trans; [exact L|].
      repeat first [apply Nat.le_refl
                   |eapply Nat.le_trans; [apply delete_length|]]. }
    rewrite (replace_unmatched _ _ _ _ T3) in L.
    assert (T4 : test true re_end_of_sentence t = false).
    { apply (delete_fixed _ _ 60%N); [reflexivity|].
      eapply Nat.le_trans; [exact L|].
      repeat first [apply Nat.le_refl
                   |eapply Nat.le_trans; [apply delete_length|]]. }
    rewrite (replace_unmatched _ _ _ _ T4) in L.
    assert (T5 : test true re_end t = false)
      by (apply (delete_fixed _ _ 60%N); [reflexivity|exact L]).
    unfold Basic.markers_absent. now rewrite T1, T2, T3, T4, T5.
  - intros [M [S1 [S2 S3]]]. unfold cleanResponse.
    rewrite strip_markers_Basic, (Basic_strip_markers_absent t M).
    rewrite collapse_newlines_cns, (cns_fixed _ S1).
    rewrite collapse_hspace_chs, (chs_fixed _ S2). exact S3.
Qed.

End CleanFacts.

(* ================================================================== *)
(** * Further properties of the chat *)

Section StreamingInvariants.
Import Chat LlamaConfig.

Lemma update_at_map {A B} (g : A -> B) (f : A -> A) :
  (forall x, g (f x) = g x) ->
  forall (l : list A) i, map g (update_at i f l) = map g l.
Proof.
  intros H. induction l as [|x l IH]; intros [|i]; simpl; trivial.
  - now rewrite H.
  - now rewrite IH.
Qed.

Lemma update_at_other {A} (f : A -> A) : forall (l : list A) i j,
  i <> j -> nth_error (update_at i f l) j = nth_error l j.
Proof.
  induction l as [|x l IH]; intros [|i] [|j] H; simpl; trivial.
  - congruence.
  - apply IH. congruence.
Qed.

Lemma findIndex_hit {A} (p : A -> bool) : forall (l : list A) i,
  findIndex p l = Some i -> exists x, nth_error l i = Some x /\ p x = true.
Proof.
  induction l as [|x l IH]; simpl; intros i H; [discriminate|].
  destruct (p x) eqn:E.
  - inversion H; subst. exists x. now split.
  - destruct (findIndex p l) as [k|]; [|discriminate].
    inversion H; subst. apply (IH k eq_refl).
Qed.

Lemma findIndex_miss {A} (p : A -> bool) : forall l : list A,
  Forall (fun x => p x = false) l -> findIndex p l = None.
Proof.
  induction l as [|x l IH]; simpl; intros H; trivial.
  inversion H; subst. rewrite H2. now rewrite IH.
Qed.

Lemma jeqb_false (a b : jstring) : a <> b -> jeqb a b = false.
Proof. unfold jeqb. now destruct (list_eq_dec N.eq_dec a b). Qed.

Lemma streaming_update_ids (sid : jstring) (f : jstring -> jstring)
    (prev : list Message) :
  length (update_streaming sid f prev) = length prev /\
  map id (update_streaming sid f prev) = map id prev /\
  map isUser (update_streaming sid f prev) = map isUser prev.
Proof.
  unfold update_streaming.
  destruct (findIndex (fun msg => jeqb (id msg) sid) prev) as [k|];
    [|now repeat split].
  assert (Hid : map id (update_at k (with_text f) prev) = map id prev)
    by (now apply update_at_map).
  split; [|split].
  - rewrite <- (length_map id), Hid. apply length_map.
  - exact Hid.
  - now apply update_at_map.
Qed.

Lemma onToken_ids (sid : jstring) : forall toks st,
  map id (messages (fold_left (onToken sid) toks st)) = map id (messages st).
Proof.
  induction toks as [|tok toks IH]; intros st; [reflexivity|].
  cbn [fold_left]. rewrite IH. unfold onToken.
  destruct (truthy tok); [|reflexivity].
  cbn [setMessages messages]. apply streaming_update_ids.
Qed.

(** The ids after [createCompletion], whether the new id is fresh or not. *)
Lemma createCompletion_ids context clock stamp rendered message st :
  map id (messages (snd (createCompletion context clock stamp rendered message st))) =
  map id (messages st) ++ [make_id clock (increment (messageIdCounter st))].
Proof.
  unfold createCompletion, generateId.
  change (messageIdCounter (setError None (setIsLoading true st)))
    with (messageIdCounter st).
  set (sid := make_id clock (increment (messageIdCounter st))).
  set (st2 := setMessages _ _).
  assert (F := onToken_ids sid (tokens (context (fullPrompt (systemPrompt st)
                                                  rendered message))) st2).
  assert (E2 : map id (messages st2) = map id (messages st) ++ [sid])
    by (unfold st2; cbn [setMessages setCounter setError setIsLoading messages];
        now rewrite map_app).
  destruct (outcome _) as [t|e].
  - rewrite response_accepted. cbn [snd setIsLoading setMessages messages].
    rewrite (proj1 (proj2 (streaming_update_ids _ _ _))). now rewrite F.
  - cbn [snd setIsLoading setError messages]. now rewrite F.
Qed.

(** X5.  The update of the streaming message, for a token and for the final
    text, keeps the list as it is but for one text: the messages keep their
    number, order, ids, senders and time stamps, a message with another id
    keeps its text, and when no message carries the id nothing changes. *)
Theorem streaming_update_keeps_list (sid : jstring) (f : jstring -> jstring)
    (prev : list Message) :
  length (update_streaming sid f prev) = length prev /\
  map id (update_streaming sid f prev) = map id prev /\
  map isUser (update_streaming sid f prev) = map isUser prev /\
  map timestamp (update_streaming sid f prev) = map timestamp prev /\
  (forall i m, nth_error prev i = Some m -> id m <> sid ->
               nth_error (update_streaming sid f prev) i = Some m) /\
  (Forall (fun m => id m <> sid) prev -> update_streaming sid f prev = prev).
Proof.
  unfold update_streaming.
  destruct (findIndex (fun msg => jeqb (id msg) sid) prev) as [k|] eqn:E.
  - assert (Hid : map id (update_at k (with_text f) prev) = map id prev)
      by (now apply update_at_map).
    split; [|split; [|split; [|split; [|split]]]].
    + rewrite <- (length_map id), Hid. apply length_map.
    + exact Hid.
    + now apply update_at_map.
    + now apply update_at_map.
    + intros i m Hi Hm. rewrite update_at_other; trivial.
      intros ->. destruct (findIndex_hit _ _ _ E) as [x [Hx J]].
      rewrite Hi in Hx. inversion Hx; subst x.
      apply jeqb_true in J. contradiction.
    + intros H. rewrite findIndex_miss in E; [discriminate|].
      eapply Forall_impl; [|exact H]. intros m Hm. now apply jeqb_false.
  - repeat split; trivial.
Qed.

Lemma NoDup_snoc {A} (l : list A) (x : A) :
  NoDup l -> ~ In x l -> NoDup (l ++ [x]).
Proof.
  induction l as [|y l IH]; simpl; intros N H.
  - constructor; [intros []|constructor].
  - inversion N; subst. constructor.
    + rewrite in_app_iff. intros [I|[->|[]]]; [contradiction|].
      apply H. now left.
    + apply IH; trivial. intros I. apply H. now right.
Qed.

Lemma issued_not_in (st : State) (clock : Z) (k : N) :
  ids_issued st -> (messageIdCounter st < k)%N ->
  ~ In (make_id clock k) (map id (messages st)).
Proof.
  intros H L I. apply in_map_iff in I. destruct I as [m [E Hm]].
  unfold ids_issued in H. rewrite Forall_forall in H.
  destruct (H m Hm) as [now [c [E' Hc]]].
  rewrite E' in E. apply make_id_counter in E. lia.
Qed.

(** The state after a send that is not refused. *)
Lemma handleSend_eq context clock_user stamp_user clock stamp inputText st :
  ids_issued st -> (messageIdCounter st + 2 <= COUNTER_LIMIT)%N ->
  trim inputText <> [] -> isLoading st = false ->
  let run := context (fullPrompt (systemPrompt st) (messages st) (trim inputText)) in
  handleSend context clock_user stamp_user clock stamp inputText st =
  mkState
    (messages st ++
     [mkMessage (make_id clock_user (messageIdCounter st + 1)) (trim inputText)
                true stamp_user;
      mkMessage (make_id clock (messageIdCounter st + 2))
                (match outcome run with
                 | Resolves t => sendMessage_result t
                 | Rejects _ => concat (tokens run)
                 end) false stamp])
    false
    (match outcome run with
     | Resolves _ => None
     | Rejects e => Some (error_text e)
     end)
    (systemPrompt st) (messageIdCounter st + 2).
Proof.
  intros Hi B Ht Hl run. unfold handleSend.
  apply truthy_true in Ht. rewrite Ht, Hl. cbn [negb orb generateId].
  rewrite increment_below by lia.
  cbn [text].
  set (u := mkMessage (make_id clock_user (messageIdCounter st + 1))
                      (trim inputText) true stamp_user).
  set (st1 := setMessages (fun prev => prev ++ [u])
                          (setCounter (messageIdCounter st + 1) st)).
  assert (F : Forall (fun m => id m <> make_id clock
                                  (increment (messageIdCounter st1)))
                     (messages st1)).
  { apply ids_issued_fresh.
    - unfold ids_issued, st1.
      cbn [messages messageIdCounter setMessages setCounter].
      apply Forall_app. split.
      + eapply Forall_impl; [|exact Hi]. intros m [now [c [E Hc]]].
        exists now, c. split; [exact E|lia].
      + constructor; [|constructor].
        exists clock_user, (messageIdCounter st + 1)%N.
        split; [reflexivity|lia].
    - unfold st1. cbn [messageIdCounter setMessages setCounter]. lia. }
  rewrite (createCompletion_eq context clock stamp (messages st) (trim inputText)
             st1 F).
  unfold st1. cbn [messages messageIdCounter systemPrompt setMessages setCounter].
  fold run.
  rewrite (increment_below (messageIdCounter st + 1)) by lia.
  replace (messageIdCounter st + 1 + 1)%N with (messageIdCounter st + 2)%N by lia.
  destruct (outcome run); cbn [snd]; now rewrite <- app_assoc.
Qed.

(** X6.  A send with an input that is empty or white space only, or while a
    completion is loading, changes nothing: no message is added, no id is
    used, no prompt is sent. *)
Theorem blank_or_busy_send_ignored context clock_user stamp_user clock stamp
    (inputText : jstring) (st : State) :
  forallb is_ws inputText = true \/ isLoading st = true ->
  handleSend context clock_user stamp_user clock stamp inputText st = st.
Proof.
  intros [H|H]; unfold handleSend.
  - now rewrite (trim_all_ws _ H).
  - rewrite H. now rewrite orb_true_r.
Qed.

Lemma blank_or_busy_send_ignored_witness :
  handleSend Sample.busy 1700000000400 1700000000401 1700000000402
             1700000000403 (str "   ") Sample.st0 = Sample.st0.
Proof.
  apply (blank_or_busy_send_ignored Sample.busy 1700000000400 1700000000401
           1700000000402 1700000000403 (str "   ") Sample.st0).
  left. reflexivity.
Defined.

(** X7.  A send that is not refused, while the counter of the ids is at
    least two below its limit of 2^53, adds two messages to the end of the
    list and nothing else: the user message with the trimmed input, and the
    reply to the prompt built from the list as it was before the send, so the
    new question is in the prompt once, as its last line.  The reply is the
    cleaned result when the completion resolves and the tokens received when
    it rejects; loading is off again and two ids were used. *)
Theorem send_appends_question_and_reply context clock_user stamp_user clock
    stamp (inputText : jstring) (st : State) :
  ids_issued st -> (messageIdCounter st + 2 <= COUNTER_LIMIT)%N ->
  trim inputText <> [] -> isLoading st = false ->
  let run := context (fullPrompt (systemPrompt st) (messages st) (trim inputText)) in
  let st' := handleSend context clock_user stamp_user clock stamp inputText st in
  messages st' =
    messages st ++
    [mkMessage (make_id clock_user (messageIdCounter st + 1)) (trim inputText)
               true stamp_user;
     mkMessage (make_id clock (messageIdCounter st + 2))
               (match outcome run with
                | Resolves t => sendMessage_result t
                | Rejects _ => concat (tokens run)
                end) false stamp] /\
  isLoading st' = false /\
  systemPrompt st' = systemPrompt st /\
  messageIdCounter st' = (messageIdCounter st + 2)%N /\
  (error st' = None <-> exists t, outcome run = Resolves t).
Proof.
  intros Hi B Ht Hl run st'. unfold st'.
  rewrite (handleSend_eq context clock_user stamp_user clock stamp inputText st
             Hi B Ht Hl).
  fold run. cbn [messages isLoading systemPrompt messageIdCounter error].
  repeat split; trivial.
  - destruct (outcome run) as [t|e]; [now exists t|discriminate].
  - intros [t E]. now rewrite E.
Qed.

Lemma send_appends_question_and_reply_witness :
  messages (handleSend Sample.busy 1700000000400 1700000000401 1700000000402
              1700000000403 (str " tell me a story ") Sample.st0) =
  [Sample.welcome;
   mkMessage (make_id 1700000000400 2) (str "tell me a story") true 1700000000401;
   mkMessage (make_id 1700000000402 3) (str "Hello") false 1700000000403].
Proof.
  apply (send_appends_question_and_reply Sample.busy 1700000000400 1700000000401
           1700000000402 1700000000403 (str " tell me a story ") Sample.st0).
  - exact welcome_ids_issued.
  - vm_compute. discriminate.
  - discriminate.
  - reflexivity.
Defined.

(** X8.  While the counter of the ids is below its limit of 2^53, the ids
    of the message list stay pairwise distinct: a send, refused or not, that
    starts at least two below the limit, and a completion on its own that
    starts below it, take a list with distinct issued ids to a list with
    distinct issued ids, whatever the clock reads.  At the limit this ends:
    a send in which both ids are made in the same millisecond gives the user
    message and the reply the same id. *)
Theorem message_ids_stay_distinct context clock_user stamp_user clock stamp
    (inputText : jstring) (rendered : list Message) (st : State) :
  ids_issued st -> NoDup (map id (messages st)) ->
  let sent := handleSend context clock_user stamp_user clock stamp inputText st in
  let completed :=
    snd (createCompletion context clock stamp rendered inputText st) in
  ((messageIdCounter st + 2 <= COUNTER_LIMIT)%N ->
   ids_issued sent /\ NoDup (map id (messages sent))) /\
  ((messageIdCounter st < COUNTER_LIMIT)%N ->
   ids_issued completed /\ NoDup (map id (messages completed))) /\
  (messageIdCounter st = COUNTER_LIMIT -> clock_user = clock ->
   trim inputText <> [] -> isLoading st = false ->
   ~ NoDup (map id (messages sent))).
Proof.
  intros Hi Hn sent completed. split; [|split].
  - intros B. split; [now apply handleSend_ids_issued|].
    unfold sent.
    destruct (negb (truthy (trim inputText)) || isLoading st) eqn:G.
    + unfold handleSend. now rewrite G.
    + apply orb_false_iff in G. destruct G as [G1 G2].
      apply negb_false_iff in G1. apply truthy_true in G1.
      rewrite (handleSend_eq context clock_user stamp_user clock stamp inputText
                 st Hi B G1 G2).
      cbn [messages].
      change [?a; ?b] with ([a] ++ [b]).
      rewrite app_assoc, !map_app. cbn [map id].
      apply NoDup_snoc; [apply NoDup_snoc; trivial|].
      * apply issued_not_in; trivial. lia.
      * rewrite in_app_iff. intros [I|[I|[]]].
        -- revert I. apply issued_not_in; trivial. lia.
        -- apply make_id_counter in I. lia.
  - intros B. split; [now apply createCompletion_ids_issued|].
    unfold completed.
    rewrite (createCompletion_eq context clock stamp rendered inputText st
               (ids_issued_fresh st clock Hi B)).
    rewrite increment_below by exact B.
    destruct (outcome _); cbn [snd messages]; rewrite map_app; cbn [map id];
      (apply NoDup_snoc; [trivial|apply issued_not_in; trivial; lia]).
  - intros E -> Ht Hl N. unfold sent, handleSend in N.
    apply truthy_true in Ht. rewrite Ht, Hl in N.
    cbn [negb orb generateId] in N. rewrite E, increment_limit in N.
    rewrite createCompletion_ids in N.
    cbn [setMessages setCounter messages messageIdCounter] in N.
    rewrite increment_limit, map_app in N. cbn [map id] in N.
    rewrite <- app_assoc in N. cbn [app] in N.
    apply NoDup_remove_2 in N. apply N.
    apply in_or_app. right. now left.
Qed.

Lemma message_ids_stay_distinct_witness :
  NoDup (map id (messages
    (handleSend Sample.busy 1700000000000 1700000000000 1700000000000
                1700000000000 (str "hi") Sample.st0))).
Proof.
  apply (message_ids_stay_distinct Sample.busy 1700000000000 1700000000000
           1700000000000 1700000000000 (str "hi") [] Sample.st0).
  - exact welcome_ids_issued.
  - repeat constructor. intros [].
  - vm_compute. discriminate.
Defined.

End StreamingInvariants.

(* ================================================================== *)
(** * Further properties of the provisioning *)

Section CallByCall.
Import Provisioning.

Local Ltac run_model :=
  unfold downloadModel, Single.downloadModel, Earliest.downloadModel,
    download_and_load, catch_all, try_catch, bind, await, ret, throw,
    setContext, setLoading, setError;
  cbn [context loading error calls fst snd readDirectoryAsync getInfoAsync
       loadExisting deleteAsync downloadAsync loadDownloaded].

Local Ltac by_cases :=
  repeat match goal with
  | |- context [match ?x with _ => _ end] =>
      match x with
      | context [match _ with _ => _ end] => fail 1
      | _ => destruct x eqn:?
      end; cbn [context loading error calls fst snd truthy]
  end.





Local Ltac ended :=
  first [ split; [reflexivity|];
          first [ left; eexists; split; reflexivity
                | right; eexists; split; reflexivity ]
        | repeat split ].

(** X9.  A run of [downloadModel], on each of the three screens, never
    rejects.  While a call it awaits does not settle, the run waits and
    context, loading and error are as they were when it started.  When every
    call settles the run returns.  A run that has returned has set loading to
    false, and it has either stored a context and left the error as it was,
    or stored an error text and left the context as it was; the text is the
    message of the Error that was thrown, which can be empty, or "Unknown
    error occurred" for another value. *)
Theorem provisioning_run_ends (o : Outcomes) (url path : jstring)
    (dir : option jstring) (s : Screen) :
  (run_ends s (downloadModel o url path s) /\
   run_ends s (Single.downloadModel o dir url s) /\
   run_ends s (Earliest.downloadModel o dir url s)) /\
  (all_settle o = true ->
   fst (downloadModel o url path s) = Returns tt /\
   fst (Single.downloadModel o dir url s) = Returns tt /\
   fst (Earliest.downloadModel o dir url s) = Returns tt) /\
  (getInfoAsync o = Unsettled ->
   downloadModel o url path s =
     (Waits, mkScreen (context s) (loading s) (error s)
                      (calls s ++ [GetInfoAsync path]))) /\
  (forall e, getInfoAsync o = Rejected e ->
   downloadModel o url path s =
     (Returns tt, mkScreen (context s) false (Some (Chat.error_text e))
                           (calls s ++ [GetInfoAsync path]))) /\
  (getInfoAsync o = Rejected (Chat.ErrorObject []) ->
   error (snd (downloadModel o url path s)) = Some []).
Proof.
  destruct o as [rd gi le de dl ld]. unfold run_ends, all_settle, settles.
  cbn [readDirectoryAsync getInfoAsync loadExisting deleteAsync downloadAsync
       loadDownloaded].
  split; [|split; [|split; [|split]]].
  - split; [|split]; run_model; by_cases; ended.
  - intros H.
    destruct rd, gi, le, de, dl, ld; try discriminate H; clear H;
      (split; [|split]); run_model; by_cases; reflexivity.
  - intros ->. reflexivity.
  - intros e ->. reflexivity.
  - intros ->. reflexivity.
Qed.


Lemma sample_runs :
  downloadModel SampleRuns.reload (str "https://hf.co/m.gguf")
    (str "file:///documents/model_qwen3-1.7b.gguf") SampleRuns.fresh =
  (Returns tt,
   mkScreen (Some 7%N) false None
     [GetInfoAsync (str "file:///documents/model_qwen3-1.7b.gguf");
      LoadModel (str "file:///documents/model_qwen3-1.7b.gguf");
      DeleteAsync (str "file:///documents/model_qwen3-1.7b.gguf");
      DownloadAsync (str "https://hf.co/m.gguf")
                    (str "file:///documents/model_qwen3-1.7b.gguf");
      LoadModel (str "file:///documents/model_qwen3-1.7b.gguf")]) /\
  Single.downloadModel SampleRuns.stalled None (str "https://hf.co/m.gguf")
    SampleRuns.fresh =
  (Waits,
   mkScreen None true None
     [GetInfoAsync (str "nullmodel.gguf");
      DownloadAsync (str "https://hf.co/m.gguf") (str "nullmodel.gguf")]) /\
  Earliest.downloadModel SampleRuns.no_access (Some (str "file:///documents/"))
    (str "https://hf.co/m.gguf") SampleRuns.fresh =
  (Returns tt,
   mkScreen None false (Some [])
     [GetInfoAsync (str "file:///documents/model.gguf")]).
Proof. repeat split; vm_compute; reflexivity. Qed.

(** With the outcomes of [answered], the run call by call is the run of
    [App.downloadModel]: it returns, with the same context, loading flag,
    error and calls. *)
Lemma answered_run_agrees (env : App.Env) (url path : jstring) (s : App.Screen) :
  truthy path = true ->
  downloadModel (answered env url path s) url path (screen_of s) =
    (Returns tt, screen_of (App.downloadModel env url path s)).
Proof.
  intros Hp. unfold App.downloadModel, App.loadModel.
  cbn [App.log App.fs App.trace].
  destruct (App.fs s path) as [c|] eqn:Hf;
    [destruct (App.initLlama env c) eqn:Hi;
       [|destruct (App.deletable env path) eqn:Hd]|];
    rewrite ?download_and_load_eq;
    destruct (App.remote env url) as [c'| |m] eqn:Hr;
    try destruct (App.initLlama env c') eqn:Hi';
    unfold answered, screen_of; run_model;
    rewrite ?Hf, ?Hi, ?Hd, ?Hr, ?Hi', ?Hp;
    cbn [context loading error calls fst snd readDirectoryAsync getInfoAsync
         loadExisting deleteAsync downloadAsync loadDownloaded];
    rewrite ?Hp;
    unfold App.setLoading, App.setContext, App.setError, App.setFs, App.log;
    cbn [App.context App.loading App.error App.fs App.trace];
    rewrite ?map_app; cbn [map call_of Chat.error_text]; reflexivity.
Qed.

End CallByCall.


Section ProvisioningRuns.
Import App Selector.

Local Ltac run_cases s path :=
  unfold App.downloadModel, Single.downloadModel, Earliest.downloadModel,
    loadModel;
  cbn [log fs trace];
  destruct (fs s path) eqn:?;
  rewrite ?download_and_load_eq;
  repeat match goal with
  | |- context [match initLlama ?e ?c with _ => _ end] =>
      destruct (initLlama e c) eqn:?
  | |- context [match remote ?e ?u with _ => _ end] =>
      destruct (remote e u) eqn:?
  | |- context [if deletable ?e ?p then _ else _] =>
      destruct (deletable e p) eqn:?
  end;
  unfold setLoading, setContext, setError, setFs, log;
  cbn [context loading error fs trace].

Local Ltac same_screen := rewrite <- ?app_assoc; cbn [app]; congruence.

Local Ltac find_call :=
  first [ apply in_or_app; right; left; reflexivity
        | apply in_or_app; left; find_call ].

Lemma selector_run_settles (env : Env) (url path : jstring) (s : Screen) :
  context s = None -> error s = None ->
  provisioned (App.downloadModel env url path s).
Proof.
  intros Hc He. unfold provisioned.
  run_cases s path; rewrite ?Hc, ?He; (split; [reflexivity|]);
    solve [ left; eexists; split; reflexivity
          | right; split; [reflexivity|eexists; reflexivity] ].
Qed.

(** X11.  The first run: when the file is absent and the download returns
    bytes that load, the calls are the existence check, the download from the
    model's URL to the model's path and the load of that path; the screen
    gets the context of those bytes and the path holds them.  The same on all
    three screens. *)
Theorem first_run_downloads_then_loads (env : Env) (url path : jstring)
    (s : Screen) (c : content) (ctx : N) :
  fs s path = None -> remote env url = Fetched c -> initLlama env c = Some ctx ->
  let s' := mkScreen (Some ctx) false (error s) (fs_write path c (fs s))
              (trace s ++ [GetInfo path; Download url path; LoadModel path]) in
  App.downloadModel env url path s = s' /\
  Single.downloadModel env url path s = s' /\
  Earliest.downloadModel env url path s = s'.
Proof.
  intros Hf Hr Hi s'. unfold s'.
  split; [|split]; run_cases s path; same_screen.
Qed.

Lemma first_run_downloads_then_loads_witness :
  App.downloadModel SampleApp.env SampleApp.url SampleApp.path
    (mkScreen None true None (fun _ => None) []) =
  mkScreen (Some 7%N) false None
    (fs_write SampleApp.path 7%N (fun _ => None))
    [GetInfo SampleApp.path; Download SampleApp.url SampleApp.path;
     LoadModel SampleApp.path].
Proof.
  apply (first_run_downloads_then_loads SampleApp.env SampleApp.url
           SampleApp.path (mkScreen None true None (fun _ => None) []) 7%N 7%N);
    reflexivity.
Defined.

(** X13.  On the earliest screen a file that is there and does not load ends
    the run: the error of the load is shown, nothing is downloaded and the
    file stays; only the two later screens go on to the download. *)
Theorem earliest_screen_stops_at_failed_load (env : Env) (url path : jstring)
    (s : Screen) (c : content) :
  fs s path = Some c -> initLlama env c = None ->
  Earliest.downloadModel env url path s =
    mkScreen (context s) false (Some (load_error env)) (fs s)
             (trace s ++ [GetInfo path; LoadModel path]) /\
  In (Download url path) (trace (Single.downloadModel env url path s)) /\
  In (Download url path) (trace (App.downloadModel env url path s)).
Proof.
  intros Hf Hi.
  split; [|split].
  - run_cases s path; same_screen.
  - run_cases s path; try congruence; find_call.
  - run_cases s path; try congruence; find_call.
Qed.

Lemma earliest_screen_stops_at_failed_load_witness :
  Earliest.downloadModel SampleApp.env SampleApp.url SampleApp.path
    SampleApp.corrupt =
  mkScreen None false (Some (str "Failed to load model")) (fs SampleApp.corrupt)
    [GetInfo SampleApp.path; LoadModel SampleApp.path].
Proof.
  assert (Hf : fs SampleApp.corrupt SampleApp.path = Some 0%N)
    by (vm_compute; reflexivity).
  destruct (earliest_screen_stops_at_failed_load SampleApp.env SampleApp.url
              SampleApp.path SampleApp.corrupt 0%N Hf eq_refl) as [H _].
  exact H.
Defined.

End ProvisioningRuns.

Section ModelSelector.
Import App Selector.

Variable number_text : float -> jstring.

(** X14.  [switchModel]: a model that fails the validation changes nothing
    but for one alert, which carries the message of the validation; no file
    is touched and the selection stays.  A model that passes becomes the
    selection, the selector closes, and the screen is the outcome of
    [downloadModel] for the model's URL and path, started without the
    previous context and error; so it ends not loading, with a context or an
    error of this run.  Every model of the list passes the validation. *)
Theorem switching_models (env : Env) (documentDirectory : jstring)
    (newModel : ModelConfig) (st : State) :
  let v := validateModelSelection number_text newModel in
  let st' := switchModel number_text env documentDirectory newModel st in
  (valid v = false ->
   st' = mkState (screen st) (selectedModel st) (showModelSelector st)
                 (alerts st ++ [(str "Model Too Large", message v)]) /\
   message v <> None) /\
  (valid v = true ->
   selectedModel st' = newModel /\ showModelSelector st' = false /\
   alerts st' = alerts st /\
   screen st' =
     App.downloadModel env (url newModel) (getModelPath documentDirectory newModel)
       (mkScreen None true None (fs (screen st)) (trace (screen st))) /\
   provisioned (screen st')) /\
  Forall (fun m => valid (validateModelSelection number_text m) = true)
         AVAILABLE_MODELS.
Proof.
  intros v st'. unfold st', switchModel. fold v. split; [|split].
  - intros Hv. rewrite Hv. cbn [negb]. split; [reflexivity|].
    unfold v, validateModelSelection in *.
    destruct (maxModelSizeGB <? sizeGB newModel)%float; [discriminate|].
    destruct (maxContextLength <? maxParams newModel)%float; discriminate.
  - intros Hv. rewrite Hv. cbn [negb selectedModel showModelSelector alerts screen].
    do 4 (split; [reflexivity|]).
    apply selector_run_settles; reflexivity.
  - unfold AVAILABLE_MODELS. repeat constructor.
Qed.

(** X15.  Each model has a file of its own: two models share the path of
    their file only when they share the id, and the paths of the models of
    the list are pairwise distinct. *)
Theorem model_files_are_separate (documentDirectory : jstring) :
  (forall m1 m2 : ModelConfig,
     getModelPath documentDirectory m1 = getModelPath documentDirectory m2 <->
     id m1 = id m2) /\
  NoDup (map (getModelPath documentDirectory) AVAILABLE_MODELS).
Proof.
  assert (I : forall m1 m2 : ModelConfig,
            getModelPath documentDirectory m1 = getModelPath documentDirectory m2 ->
            id m1 = id m2).
  { unfold getModelPath. intros m1 m2 H.
    apply app_inv_head in H. apply app_inv_head in H.
    now apply app_inv_tail in H. }
  split.
  - intros m1 m2. split; [apply I|].
    unfold getModelPath. now intros ->.
  - unfold AVAILABLE_MODELS. cbn [map].
    repeat (constructor;
            [cbn [In]; intros H;
             repeat (destruct H as [H|H]; [apply I in H; discriminate|]);
             exact H|]).
    constructor.
Qed.

End ModelSelector.

(* ================================================================== *)
(** * The model files and the inference engine *)

Section ModelFilesFacts.
Import Chat ModelFiles.

Variable FS : FileSystem.
Variable documentDirectory : jstring.

(** The path [checkDownloadedModels] probes for a model. *)
Local Abbreviation probed := (fun m : ModelInfo =>
  MODELS_DIR documentDirectory ++ id m ++ str "/" ++ modelFile m).

Lemma check_loop_answered (info : jstring -> FileInfo) :
  (forall t p, getInfoAsync FS t p = inr (info p)) ->
  forall models acc t,
    check_loop FS documentDirectory models acc t =
    (inr (acc ++ map (fun m => downloaded_at (probed m) m)
                     (filter (fun m => exists_ (info (probed m))) models)),
     t ++ map (fun m => GetInfoAsync (probed m)) models).
Proof.
  intros H. induction models as [|m rest IH]; intros acc t.
  - cbn [check_loop filter map]. unfold ret. now rewrite !app_nil_r.
  - cbn [check_loop filter map]. unfold bind, getInfo. rewrite H.
    destruct (exists_ (info (probed m))); rewrite IH; cbn [map];
      now rewrite <- !app_assoc.
Qed.

Lemma check_loop_rejected (e : thrown) (bad : jstring) :
  (forall t, getInfoAsync FS t bad = inl e) ->
  (forall t p, p <> bad -> exists fi, getInfoAsync FS t p = inr fi) ->
  forall models acc t,
    In bad (map probed models) ->
    fst (check_loop FS documentDirectory models acc t) = inl e.
Proof.
  intros Hbad Hok. induction models as [|m rest IH]; intros acc t Hin.
  - destruct Hin.
  - cbn [check_loop]. unfold bind, getInfo.
    destruct (list_eq_dec N.eq_dec (probed m) bad) as [E|E].
    + rewrite E, Hbad. reflexivity.
    + destruct (Hok t (probed m) E) as [fi ->].
      destruct Hin as [Hin|Hin]; [contradiction|].
      destruct (exists_ fi); now apply IH.
Qed.

(** X16.  [checkDownloadedModels], when the file system answers every
    probe: it returns the models of the list whose file exists, in the order
    of the list, each with [isDownloaded] set and with the probed path as
    [localPath], and it makes one [getInfoAsync] call per model of the list
    and no other call.  When the probe of one model is rejected, the check is
    rejected with that error and what was found before is lost. *)
Theorem check_lists_present_models (info : jstring -> FileInfo)
    (t : list call) :
  (forall t p, getInfoAsync FS t p = inr (info p)) ->
  let found := filter (fun m => exists_ (info (probed m))) getAvailableModels in
  checkDownloadedModels FS documentDirectory t =
    (inr (map (fun m => downloaded_at (probed m) m) found),
     t ++ map (fun m => GetInfoAsync (probed m)) getAvailableModels) /\
  (forall m, In m found <-> In m getAvailableModels /\ exists_ (info (probed m)) = true) /\
  (forall m, In m found ->
     isDownloaded (downloaded_at (probed m) m) = true /\
     localPath (downloaded_at (probed m) m) = Some (probed m) /\
     id (downloaded_at (probed m) m) = id m).
Proof.
  intros H found. split; [|split].
  - unfold checkDownloadedModels.
    now rewrite (check_loop_answered info H getAvailableModels [] t).
  - intros m. unfold found. apply filter_In.
  - intros m _. repeat split.
Qed.

End ModelFilesFacts.

Section ModelFilesRuns.
Import Chat ModelFiles.

#[warnings="-inexact-float"]
Lemma check_lists_present_models_witness :
  checkDownloadedModels SampleFiles.fs SampleFiles.dir [] =
  (inr [mkModelInfo (str "phi-2-q4") (str "Phi-2 (Q4)") 1.6 2.7
          (str "Microsoft's efficient small model")
          (str "TheBloke/phi-2-GGML") (str "phi-2.ggmlv3.q4_0.bin")
          (Some (str "file:///documents/models/phi-2-q4/phi-2.ggmlv3.q4_0.bin"))
          true None],
   map (fun m => GetInfoAsync (MODELS_DIR SampleFiles.dir ++ id m ++ str "/" ++
                               modelFile m))
       getAvailableModels).
Proof.
  destruct (check_lists_present_models SampleFiles.fs SampleFiles.dir
              (fun p => mkFileInfo
                 (jeqb p (str "file:///documents/models/phi-2-q4/phi-2.ggmlv3.q4_0.bin"))
                 None)
              [] (fun _ _ => eq_refl)) as [H _].
  eapply eq_trans; [exact H|]. vm_compute. reflexivity.
Defined.

Variable FS : FileSystem.
Variable documentDirectory : jstring.

Local Abbreviation probed := (fun m : ModelInfo =>
  MODELS_DIR documentDirectory ++ id m ++ str "/" ++ modelFile m).

(** X17.  One rejected probe rejects the whole check: when the file system
    rejects [getInfoAsync] for the file of a model of the list and answers
    the other probes, [checkDownloadedModels] is rejected with that error,
    and the models found before it are not returned. *)
Theorem check_rejected_by_one_probe (e : thrown) (bad : jstring) (t : list call) :
  (forall t, getInfoAsync FS t bad = inl e) ->
  (forall t p, p <> bad -> exists fi, getInfoAsync FS t p = inr fi) ->
  In bad (map probed getAvailableModels) ->
  fst (checkDownloadedModels FS documentDirectory t) = inl e.
Proof.
  intros Hbad Hok Hin. unfold checkDownloadedModels.
  now apply (check_loop_rejected FS documentDirectory e bad Hbad Hok).
Qed.

Lemma status_is_200_true status : status_is_200 status = true -> status = Some 200%Z.
Proof.
  destruct status as [z|]; [|discriminate]. simpl. intros H.
  apply Z.eqb_eq in H. now subst.
Qed.

(** What [downloadModel] does, by the answers of the file system. *)
Lemma downloadModel_eq (model : ModelInfo) (t : list call) :
  let modelDir := MODELS_DIR documentDirectory ++ id model ++ str "/" in
  let localPath := modelDir ++ modelFile model in
  let downloadUrl := str "https://huggingface.co/" ++ huggingfaceRepo model ++
                     str "/resolve/main/" ++ modelFile model in
  let t1 := t ++ [MakeDirectoryAsync modelDir] in
  let t2 := t1 ++ [DownloadAsync downloadUrl localPath] in
  downloadModel FS documentDirectory model t =
  match makeDirectoryAsync FS t modelDir with
  | inl e => (inl e, t1)
  | inr _ =>
      match downloadAsync FS t1 downloadUrl localPath with
      | inl e => (inl e, t2)
      | inr status =>
          (if status_is_200 status then inr localPath
           else inl (download_failed status), t2)
      end
  end.
Proof.
  intros modelDir localPath downloadUrl t1 t2.
  unfold downloadModel, bind, try_catch, makeDirectory, download, ret, throw.
  fold modelDir. fold localPath. fold downloadUrl. fold t1.
  destruct (makeDirectoryAsync FS t modelDir) as [e|[]]; [reflexivity|].
  fold t2.
  destruct (downloadAsync FS t1 downloadUrl localPath) as [e|status];
    [reflexivity|].
  now destruct (status_is_200 status).
Qed.

(** X18.  [downloadModel] resolves only with the path that
    [checkDownloadedModels] probes for the model, and only when the directory
    was made and the download resolved with status 200; every other answer,
    a status other than 200 and a missing result included, rejects it.  It
    makes the directory first and calls the download, of the model's file in
    the model's repository, only when that succeeded; it makes no other
    call, so a failed download is not cleaned up. *)
Theorem download_resolves_with_probed_path (model : ModelInfo) (t : list call) :
  let modelDir := MODELS_DIR documentDirectory ++ id model ++ str "/" in
  let downloadUrl := str "https://huggingface.co/" ++ huggingfaceRepo model ++
                     str "/resolve/main/" ++ modelFile model in
  let t1 := t ++ [MakeDirectoryAsync modelDir] in
  let run := downloadModel FS documentDirectory model t in
  (forall p, fst run = inr p <->
     p = probed model /\
     makeDirectoryAsync FS t modelDir = inr tt /\
     downloadAsync FS t1 downloadUrl (probed model) = inr (Some 200%Z)) /\
  (forall status, makeDirectoryAsync FS t modelDir = inr tt ->
     downloadAsync FS t1 downloadUrl (probed model) = inr status ->
     status <> Some 200%Z -> fst run = inl (download_failed status)) /\
  snd run =
    t1 ++ match makeDirectoryAsync FS t modelDir with
          | inr _ => [DownloadAsync downloadUrl (probed model)]
          | inl _ => []
          end.
Proof.
  intros modelDir downloadUrl t1 run. unfold run.
  rewrite downloadModel_eq. fold modelDir. fold downloadUrl. fold t1.
  assert (P : modelDir ++ modelFile model = probed model)
    by (unfold modelDir; now rewrite <- !app_assoc).
  rewrite P.
  destruct (makeDirectoryAsync FS t modelDir) as [e|[]].
  - cbn [fst snd]. split; [|split].
    + intros p. split; [discriminate|]. intros [_ [H _]]. discriminate.
    + discriminate.
    + now rewrite app_nil_r.
  - destruct (downloadAsync FS t1 downloadUrl (probed model)) as [e|status] eqn:D.
    + cbn [fst snd]. split; [|split]; trivial.
      * intros p. split; [discriminate|]. intros [_ [_ H]]. discriminate.
      * discriminate.
    + split; [|split].
      * intros p.
        destruct (status_is_200 status) eqn:E; cbn [fst].
        -- apply status_is_200_true in E. subst status.
           split; [intros H; inversion H; now repeat split|].
           intros [-> _]. reflexivity.
        -- split; [discriminate|]. intros [_ [_ H]].
           inversion H; subst. discriminate.
      * intros st _ H Hne. inversion H; subst st.
        destruct (status_is_200 status) eqn:E; [|reflexivity].
        apply status_is_200_true in E. contradiction.
      * now destruct (status_is_200 status).
Qed.

Lemma probed_nonempty (m : ModelInfo) : truthy (probed m) = true.
Proof.
  unfold MODELS_DIR. rewrite <- app_assoc.
  destruct documentDirectory; reflexivity.
Qed.

(** X19.  A model that [downloadModel] has resolved for is found again: when
    the file system then reports the returned path as existing,
    [checkDownloadedModels] lists the model with that path, because both
    functions build the same path for a model of the list. *)
Theorem downloaded_model_is_listed (info : jstring -> FileInfo)
    (model : ModelInfo) (t t' : list call) (p : jstring) :
  (forall t p, getInfoAsync FS t p = inr (info p)) ->
  In model getAvailableModels ->
  fst (downloadModel FS documentDirectory model t) = inr p ->
  exists_ (info p) = true ->
  exists listed,
    fst (checkDownloadedModels FS documentDirectory t') = inr listed /\
    In (downloaded_at p model) listed.
Proof.
  intros H Hin Hd He.
  assert (P : p = probed model).
  { rewrite downloadModel_eq in Hd.
    destruct (makeDirectoryAsync FS t _); [discriminate|].
    destruct (downloadAsync FS _ _ _) as [e|status]; [discriminate|].
    cbn [fst] in Hd. destruct (status_is_200 status); [|discriminate].
    inversion Hd. now rewrite <- !app_assoc. }
  subst p. unfold checkDownloadedModels.
  rewrite (check_loop_answered FS documentDirectory info H getAvailableModels [] t').
  eexists. split; [reflexivity|]. cbn [app].
  apply (in_map (fun m => downloaded_at (probed m) m)).
  apply filter_In. now split.
Qed.

(** X20.  Without a local path nothing is deleted and nothing is measured:
    [deleteModel] and [getModelSize] on a model whose [localPath] is missing
    or empty make no call to the file system, and the entries of
    [getAvailableModels] are such models.  On an entry that
    [checkDownloadedModels] returned, [deleteModel] makes the one call that
    deletes the probed file and is rejected exactly when that call is.
    [getModelSize] is never rejected. *)
Theorem no_local_path_no_call (model : ModelInfo) (t : list call) :
  (no_localPath model = true ->
   deleteModel FS model t = (inr tt, t) /\
   getModelSize FS model t = (inr 0%float, t)) /\
  (In model getAvailableModels -> no_localPath model = true) /\
  deleteModel FS (downloaded_at (probed model) model) t =
    (deleteAsync FS t (probed model), t ++ [DeleteAsync (probed model)]) /\
  (exists x, fst (getModelSize FS model t) = inr x).
Proof.
  split; [|split; [|split]].
  - intros H. unfold deleteModel, getModelSize. rewrite H. now split.
  - unfold getAvailableModels. cbn [In].
    intros [<-|[<-|[<-|[<-|[]]]]]; reflexivity.
  - unfold deleteModel, no_localPath, path_of. cbn [localPath downloaded_at].
    rewrite probed_nonempty. cbn [negb].
    unfold try_catch, delete, throw.
    now destruct (deleteAsync FS t (probed model)) as [e|[]].
  - unfold getModelSize. destruct (no_localPath model); [now eexists|].
    unfold try_catch, bind, getInfo, ret.
    destruct (getInfoAsync FS t (path_of model)); now eexists.
Qed.

End ModelFilesRuns.

Section ModelFilesExamples.
Import Chat ModelFiles.

Lemma check_rejected_by_one_probe_witness :
  fst (checkDownloadedModels SampleFiles.fs_locked SampleFiles.dir []) =
  inl (ErrorObject (str "Permission denied")).
Proof.
  apply (check_rejected_by_one_probe SampleFiles.fs_locked SampleFiles.dir
           (ErrorObject (str "Permission denied")) SampleFiles.locked []).
  - intros t. vm_compute. reflexivity.
  - intros t p Hp. cbn [getInfoAsync SampleFiles.fs_locked].
    rewrite (jeqb_false p SampleFiles.locked Hp). eexists. reflexivity.
  - vm_compute. right. left. reflexivity.
Defined.

#[warnings="-inexact-float"]
Lemma downloaded_model_is_listed_witness :
  exists listed,
    fst (checkDownloadedModels SampleFiles.fs SampleFiles.dir []) = inr listed /\
    In (downloaded_at
          (str "file:///documents/models/phi-2-q4/phi-2.ggmlv3.q4_0.bin")
          (mkModelInfo (str "phi-2-q4") (str "Phi-2 (Q4)") 1.6 2.7
             (str "Microsoft's efficient small model")
             (str "TheBloke/phi-2-GGML") (str "phi-2.ggmlv3.q4_0.bin")
             None false None))
       listed.
Proof.
  apply (downloaded_model_is_listed SampleFiles.fs SampleFiles.dir
           (fun p => mkFileInfo
              (jeqb p (str "file:///documents/models/phi-2-q4/phi-2.ggmlv3.q4_0.bin"))
              None)
           _ [] []).
  - intros t p. reflexivity.
  - vm_compute. right. right. left. reflexivity.
  - vm_compute. reflexivity.
  - vm_compute. reflexivity.
Defined.

(** A download that is answered with 404. *)
Example download_answered_404 :
  fst (downloadModel SampleFiles.fs_404 SampleFiles.dir
         (nth 3 getAvailableModels (mkModelInfo [] [] 0 0 [] [] [] None false None))
         []) =
  inl (ErrorObject (str "Download failed with status: 404")).
Proof. vm_compute. reflexivity. Qed.

End ModelFilesExamples.

Section EngineFacts.
Import Chat ModelFiles InferenceEngine.

Variable FS : FileSystem.
Variable documentDirectory : jstring.

Lemma initialize_done (eng : Engine) (t : list call) :
  isInitialized eng = true ->
  InferenceEngine.initialize FS documentDirectory eng t = (inr tt, eng, t).
Proof. intros H. unfold InferenceEngine.initialize. now rewrite H. Qed.

Lemma initialize_result (eng : Engine) (t : list call) :
  isInitialized eng = false ->
  InferenceEngine.initialize FS documentDirectory eng t =
  match ModelFiles.initialize FS documentDirectory t with
  | (inr _, t') =>
      (inr tt, mkEngine (model eng) (tokenizer eng) true (currentModelPath eng), t')
  | (inl error, t') => (inl error, eng, t')
  end.
Proof. intros H. unfold InferenceEngine.initialize. now rewrite H. Qed.

(** X21.  The engine is initialised once.  After [initialize] or [loadModel]
    has resolved, the engine is initialised and every later [initialize] and
    [loadModel] makes no call to the file system; [loadModel] then always
    resolves.  A rejected [initialize] or [loadModel] leaves the engine as it
    was, model included, so the next call tries the initialisation again. *)
Theorem engine_initializes_once (eng : Engine) (t : list call)
    (modelPath : jstring) :
  let i := InferenceEngine.initialize FS documentDirectory eng t in
  let l := loadModel FS documentDirectory modelPath eng t in
  (forall r eng' t', (i = (inr r, eng', t') \/ l = (inr r, eng', t')) ->
     isInitialized eng' = true /\
     forall t'' path,
       InferenceEngine.initialize FS documentDirectory eng' t'' = (inr tt, eng', t'') /\
       loadModel FS documentDirectory path eng' t'' =
         (inr tt, mkEngine (Some path) (tokenizer eng') true (Some path), t'')) /\
  (forall e eng' t', (i = (inl e, eng', t') \/ l = (inl e, eng', t')) ->
     eng' = eng /\ isInitialized eng = false) /\
  (isInitialized eng = true -> snd i = t /\ snd l = t).
Proof.
  intros i l.
  assert (D : forall eng', isInitialized eng' = true ->
            forall t'' path,
              InferenceEngine.initialize FS documentDirectory eng' t'' =
                (inr tt, eng', t'') /\
              loadModel FS documentDirectory path eng' t'' =
                (inr tt, mkEngine (Some path) (tokenizer eng') true (Some path), t'')).
  { intros eng' H t'' path. split; [now apply initialize_done|].
    unfold loadModel. rewrite H. cbn [negb]. now rewrite H. }
  unfold i, l, loadModel.
  destruct (isInitialized eng) eqn:I.
  - rewrite (initialize_done eng t I). cbn [negb]. split; [|split].
    + intros r eng' t' [H|H]; inversion H; subst; cbn [isInitialized];
        (split; [trivial|]); apply D; trivial.
    + intros e eng' t' [H|H]; discriminate.
    + intros _. now split.
  - rewrite (initialize_result eng t I). cbn [negb].
    destruct (ModelFiles.initialize FS documentDirectory t) as [[e|[]] t1].
    + split; [|split].
      * intros r eng' t' [H|H]; discriminate.
      * intros e' eng' t' [H|H]; inversion H; now subst.
      * discriminate.
    + split; [|split].
      * intros r eng' t' [H|H]; inversion H; subst; cbn [isInitialized];
          (split; [trivial|]); apply D; trivial.
      * intros e' eng' t' [H|H]; discriminate.
      * discriminate.
Qed.

(** X22.  [generateText] needs a loaded model: it resolves exactly when
    [isModelLoaded] holds, and then with the placeholder text around the
    prompt; otherwise it is rejected with "No model loaded".  It resolves
    after every [loadModel] that resolved, is rejected after [unloadModel],
    and is rejected on a new engine however often that was initialised. *)
Theorem generate_needs_loaded_model (eng : Engine) (prompt : jstring) :
  generateText prompt eng =
    (if isModelLoaded eng then inr (placeholder prompt)
     else inl (ErrorObject (str "No model loaded"))) /\
  (forall path t r eng' t',
     loadModel FS documentDirectory path eng t = (inr r, eng', t') ->
     isModelLoaded eng' = true /\ currentModelPath eng' = Some path) /\
  isModelLoaded (unloadModel eng) = false /\
  (forall t r eng' t',
     InferenceEngine.initialize FS documentDirectory eng t = (r, eng', t') ->
     isModelLoaded eng' = isModelLoaded eng).
Proof.
  split; [|split; [|split]].
  - unfold generateText, isModelLoaded. now destruct (model eng).
  - intros path t r eng' t' H. unfold loadModel in H.
    destruct (if negb (isInitialized eng)
              then InferenceEngine.initialize FS documentDirectory eng t
              else (inr tt, eng, t)) as [[[e|[]] eng1] t1];
      inversion H; subst. now split.
  - reflexivity.
  - intros t r eng' t' H. unfold InferenceEngine.initialize in H.
    destruct (isInitialized eng).
    + now inversion H.
    + destruct (ModelFiles.initialize FS documentDirectory t) as [[e|[]] t1];
        now inversion H.
Qed.

(** X23.  The chat screen answers only when the engine holds a model.  A
    send with a non-blank input while nothing is loading appends the user
    message with the trimmed input, clears the input and ends not loading;
    with a model in the engine the placeholder reply to that text follows,
    and without one there is no reply and one alert "Failed to generate
    response".  The screen itself only initialises the engine, which loads
    no model, although it then sets its flag [isModelLoaded]. *)
Theorem chat_screen_needs_loaded_engine (eng : Engine)
    (now_user stamp_user now_reply stamp_reply : Z) (s : Screen) :
  trim (inputText s) <> [] -> isLoading s = false ->
  let userMessage := mkMessage (dec_Z now_user) (trim (inputText s)) true
                               stamp_user in
  sendMessage eng now_user stamp_user now_reply stamp_reply s =
    (if isModelLoaded eng
     then mkScreen (messages s ++
                    [userMessage;
                     mkMessage (dec_Z (now_reply + 1))
                               (placeholder (trim (inputText s))) false stamp_reply])
                   [] false (isModelLoaded_flag s) (alerts s)
     else mkScreen (messages s ++ [userMessage]) [] false (isModelLoaded_flag s)
                   (alerts s ++ [(str "Error", str "Failed to generate response")])) /\
  (forall t,
     let '(s', eng', t') := initializeEngine FS documentDirectory s fresh t in
     isModelLoaded eng' = false /\
     (isInitialized eng' = true -> isModelLoaded_flag s' = true)).
Proof.
  intros Ht Hl userMessage. split.
  - unfold sendMessage. apply truthy_true in Ht. rewrite Ht, Hl.
    cbn [negb orb text]. unfold generateText, isModelLoaded.
    destruct (model eng); [|reflexivity].
    now rewrite <- app_assoc.
  - intros t. unfold initializeEngine, InferenceEngine.initialize.
    cbn [isInitialized fresh].
    destruct (ModelFiles.initialize FS documentDirectory t) as [[e|[]] t1];
      cbn [isModelLoaded model isInitialized isModelLoaded_flag]; split;
      trivial; discriminate.
Qed.

End EngineFacts.

Section EngineExamples.
Import Chat ModelFiles InferenceEngine.

Lemma chat_screen_needs_loaded_engine_witness :
  sendMessage fresh 1700000000500 1700000000501 1700000000502 1700000000503
    (mkScreen [] (str " hello ") false true []) =
  mkScreen [mkMessage (str "1700000000500") (str "hello") true 1700000000501]
           [] false true [(str "Error", str "Failed to generate response")].
Proof.
  assert (Ht : trim (inputText (mkScreen [] (str " hello ") false true [])) <> [])
    by (vm_compute; discriminate).
  destruct (chat_screen_needs_loaded_engine SampleFiles.fs SampleFiles.dir fresh
              1700000000500 1700000000501 1700000000502 1700000000503
              (mkScreen [] (str " hello ") false true []) Ht eq_refl) as [H _].
  eapply eq_trans; [exact H|]. vm_compute. reflexivity.
Defined.

End EngineExamples.

(* ================================================================== *)
(** * The system prompt and the thinking text *)

Section ChatViewFacts.
Import LlamaConfig ChatView.

Lemma indexOf_eq w (s : jstring) :
  indexOf w s =
  match lit_prefix false w s with
  | Some _ => Some 0
  | None => match s with
            | [] => None
            | _ :: t => option_map S (indexOf w t)
            end
  end.
Proof. now destruct s. Qed.

Lemma indexOf_first (w' : jstring) (g : cu) : forall pre rest : jstring,
  occurs (w' ++ [g]) (pre ++ w') = false ->
  indexOf (w' ++ [g]) (pre ++ (w' ++ [g]) ++ rest) = Some (length pre).
Proof.
  induction pre as [|c pre IH]; intros rest H.
  - cbn [app length]. now rewrite indexOf_eq, lit_prefix_app.
  - cbn [app].
    assert (N : lit_prefix false (w' ++ [g]) (c :: pre ++ (w' ++ [g]) ++ rest) = None).
    { rewrite <- (app_assoc w' [g] rest).
      apply (no_start_inside (w' ++ [g]) (c :: pre) g w' rest).
      - discriminate.
      - rewrite length_app. simpl. lia.
      - now apply occurs_false_here. }
    cbn [indexOf]. rewrite N.
    rewrite IH by (eapply occurs_false_tail; eauto). reflexivity.
Qed.

Lemma indexOf_none w : forall s : jstring,
  occurs w s = false <-> indexOf w s = None.
Proof.
  induction s as [|c t IH]; cbn [occurs indexOf].
  - destruct (lit_prefix false w []); split; congruence.
  - destruct (lit_prefix false w (c :: t)); [split; discriminate|].
    rewrite IH. destruct (indexOf w t); split; cbn; congruence.
Qed.

Lemma think_tag_from s :
  replace false re_think_tag [] s =
  replace_from false re_think_tag (fun _ => []) false s.
Proof. unfold replace, replace_fun. now apply replace_from_no_bos. Qed.

Lemma think_tag_skip : forall X s : jstring,
  ~ In 60%N X ->
  replace_from false re_think_tag (fun _ => []) false (X ++ s) =
  X ++ replace_from false re_think_tag (fun _ => []) false s.
Proof.
  induction X as [|c X IH]; intros s H; [reflexivity|].
  cbn [app]. rewrite replace_from_cons.
  assert (M : match_here false re_think_tag false (c :: X ++ s) = None).
  { unfold re_think_tag. rewrite match_here_lit_seq.
    change (str "<") with [60%N]. cbn [lit_prefix chr_eqb].
    destruct (N.eqb_spec 60 c) as [E|E]; [|reflexivity].
    exfalso. apply H. now left. }
  rewrite M. f_equal. apply IH. intros I. apply H. now right.
Qed.

Lemma think_tag_none : forall X : jstring,
  ~ In 60%N X ->
  replace_from false re_think_tag (fun _ => []) false X = X.
Proof.
  intros X H. rewrite <- (app_nil_r X) at 1. rewrite think_tag_skip; trivial.
  now rewrite app_nil_r.
Qed.

Lemma think_tag_open s :
  replace_from false re_think_tag (fun _ => []) false (THINK_OPEN ++ s) =
  replace_from false re_think_tag (fun _ => []) false s.
Proof.
  change (THINK_OPEN ++ s) with (60%N :: (str "think>" ++ s)).
  rewrite replace_from_cons.
  change (match_here false re_think_tag false (60%N :: str "think>" ++ s))
    with (Some (MRes THINK_OPEN [] s)).
  reflexivity.
Qed.

Lemma think_tag_close s :
  replace_from false re_think_tag (fun _ => []) false (THINK_CLOSE ++ s) =
  replace_from false re_think_tag (fun _ => []) false s.
Proof.
  change (THINK_CLOSE ++ s) with (60%N :: (str "/think>" ++ s)).
  rewrite replace_from_cons.
  change (match_here false re_think_tag false (60%N :: str "/think>" ++ s))
    with (Some (MRes THINK_CLOSE [] s)).
  reflexivity.
Qed.

Lemma starts_with_split : forall w s : jstring,
  starts_with w s = true -> s = w ++ skipn (length w) s.
Proof.
  induction w as [|a w IH]; intros s H; [reflexivity|].
  destruct s as [|c t]; [discriminate|].
  cbn [starts_with] in H. apply andb_true_iff in H. destruct H as [E H].
  apply N.eqb_eq in E. subst c. cbn [length skipn app]. f_equal. now apply IH.
Qed.

Lemma lit_prefix_starts : forall w s : jstring,
  lit_prefix false w s =
  if starts_with w s then Some (w, skipn (length w) s) else None.
Proof.
  induction w as [|a w IH]; intros s; [reflexivity|].
  destruct s as [|c t]; [reflexivity|].
  cbn [lit_prefix starts_with chr_eqb length skipn]. rewrite IH.
  destruct (N.eqb_spec a c) as [->|]; [|reflexivity].
  cbn [andb]. now destruct (starts_with w t).
Qed.

(** The tag pattern at one position: the closing tag, the opening tag, or no
    match. *)
Lemma think_tag_here (s : jstring) :
  match_here false re_think_tag false s =
  if starts_with THINK_CLOSE s then Some (MRes THINK_CLOSE [] (skipn 8 s))
  else if starts_with THINK_OPEN s then Some (MRes THINK_OPEN [] (skipn 7 s))
  else None.
Proof.
  destruct (starts_with THINK_CLOSE s) eqn:C.
  { rewrite (starts_with_split _ _ C) at 1. reflexivity. }
  destruct (starts_with THINK_OPEN s) eqn:O.
  { rewrite (starts_with_split _ _ O) at 1. reflexivity. }
  unfold re_think_tag. rewrite match_here_lit_seq, lit_prefix_starts.
  destruct s as [|c t]; [reflexivity|].
  change (str "<") with [60%N]. cbn [starts_with].
  destruct (N.eqb_spec 60 c) as [<-|]; [|reflexivity].
  cbn [andb length skipn]. unfold match_here. cbn [matches].
  rewrite !lit_prefix_starts.
  change (starts_with THINK_CLOSE (60%N :: t))
    with (starts_with (str "/think>") t) in C.
  change (starts_with THINK_OPEN (60%N :: t))
    with (starts_with (str "think>") t) in O.
  cbn [starts_with length skipn]. 
  destruct t as [|d t]; [reflexivity|].
  change (str "/") with [47%N]. cbn [starts_with].
  destruct (N.eqb_spec 47 d) as [<-|].
  - cbn [andb flat_map map app m_text m_rest m_caps is_nil length skipn].
    rewrite !lit_prefix_starts.
    change (starts_with (str "/think>") (47%N :: t))
      with (starts_with (str "think>") t) in C.
    rewrite C. reflexivity.
  - cbn [andb flat_map map app m_text m_rest m_caps is_nil length skipn].
    rewrite !lit_prefix_starts, O. reflexivity.
Qed.

Lemma without_tags_skip : forall u s : jstring,
  without_tags (length u) (u ++ s) = without_tags 0 s.
Proof.
  induction u as [|c u IH]; intros s; [reflexivity|].
  cbn [length app without_tags]. apply IH.
Qed.

(** Taking the tags out with the pattern is [without_tags]. *)
Lemma think_tags_removed : forall s : jstring,
  replace false re_think_tag [] s = without_tags 0 s.
Proof.
  intros s. rewrite think_tag_from. revert s.
  apply (length_ind (fun s : jstring =>
    replace_from false re_think_tag (fun _ => []) false s = without_tags 0 s)).
  intros s IH. destruct s as [|c t]; [reflexivity|].
  rewrite replace_from_cons, think_tag_here. cbn [without_tags].
  destruct (starts_with THINK_CLOSE (c :: t)) eqn:C.
  { pose proof (starts_with_split _ _ C) as E.
    cbn [m_text m_rest app]. change (length THINK_CLOSE) with 8 in E.
    rewrite IH by (rewrite length_skipn; cbn [length]; lia).
    cbn [skipn] in *. remember (skipn 7 t) as r eqn:Hr. clear Hr.
    injection E as _ E. rewrite E.
    apply eq_sym, (without_tags_skip (str "/think>")). }
  destruct (starts_with THINK_OPEN (c :: t)) eqn:O.
  { pose proof (starts_with_split _ _ O) as E.
    cbn [m_text m_rest app]. change (length THINK_OPEN) with 7 in E.
    rewrite IH by (rewrite length_skipn; cbn [length]; lia).
    cbn [skipn] in *. remember (skipn 6 t) as r eqn:Hr. clear Hr.
    injection E as _ E. rewrite E.
    apply eq_sym, (without_tags_skip (str "think>")). }
  f_equal. apply IH. cbn. lia.
Qed.

(** A text in which [<think>] occurs splits at its first occurrence. *)
Lemma first_think_tag : forall text : jstring,
  occurs THINK_OPEN text = true ->
  exists pre rest, text = pre ++ THINK_OPEN ++ rest /\
                   occurs THINK_OPEN (pre ++ str "<think") = false.
Proof.
  induction text as [|c t IH]; [discriminate|]. intros H.
  cbn [occurs] in H.
  destruct (lit_prefix false THINK_OPEN (c :: t)) as [[m r]|] eqn:E.
  - destruct (lit_prefix_exact _ _ _ _ E) as [_ ->].
    exists [], r. split; reflexivity.
  - destruct (IH H) as [pre [rest [-> Hn]]].
    exists (c :: pre), rest. split; [reflexivity|].
    cbn [app occurs]. rewrite Hn.
    destruct (lit_prefix false THINK_OPEN (c :: pre ++ str "<think")) eqn:F;
      [|reflexivity].
    exfalso.
    apply (lit_prefix_app_some THINK_OPEN (c :: pre ++ str "<think")
             (62%N :: rest)); [congruence|].
    cbn [app]. rewrite <- app_assoc. exact E.
Qed.

(** X24.  [renderTextWithThinking] splits the text at the first [<think>]:
    what is before it is rendered as markdown, and only when it is not
    empty; everything after it is rendered as thinking with every [<think>]
    and [</think>] taken out, however many there are, the text after
    [</think>] included.  A text without [<think>] is rendered as markdown
    as a whole, and every other text splits in that way. *)
Theorem thinking_starts_at_first_tag (pre rest : jstring) :
  occurs THINK_OPEN (pre ++ str "<think") = false ->
  let before := if truthy pre then Some pre else None in
  renderTextWithThinking (pre ++ THINK_OPEN ++ rest) =
    Thinking before (without_tags 0 rest) /\
  (forall s, replace false re_think_tag [] s = without_tags 0 s) /\
  (forall X post, ~ In 60%N X -> ~ In 60%N post ->
     without_tags 0 X = X /\
     without_tags 0 (X ++ THINK_CLOSE ++ post) = X ++ post) /\
  (forall text, occurs THINK_OPEN text = false <->
                renderTextWithThinking text = Markdown text) /\
  (forall text, occurs THINK_OPEN text = true ->
     exists pre' rest', text = pre' ++ THINK_OPEN ++ rest' /\
                        occurs THINK_OPEN (pre' ++ str "<think") = false).
Proof.
  intros Ho before. split; [|split; [|split; [|split]]].
  - unfold renderTextWithThinking.
    rewrite THINK_OPEN_split in *.
    match goal with
    | |- context [indexOf ?w ?s] =>
        assert (I : indexOf w s = Some (length pre))
          by (apply (indexOf_first (str "<think") 62%N pre rest); exact Ho);
        rewrite I
    end.
    rewrite firstn_app, firstn_all, Nat.sub_diag, app_nil_r.
    rewrite skipn_app, skipn_all, Nat.sub_diag. cbn [skipn app].
    rewrite think_tag_from. rewrite <- THINK_OPEN_split.
    change (60%N :: 116%N :: 104%N :: 105%N :: 110%N :: 107%N :: 62%N :: rest)
      with (THINK_OPEN ++ rest).
    rewrite think_tag_open, <- think_tag_from. now rewrite think_tags_removed.
  - apply think_tags_removed.
  - intros X post HX Hp. rewrite <- !think_tags_removed, !think_tag_from.
    split; [now apply think_tag_none|].
    rewrite think_tag_skip by assumption.
    rewrite think_tag_close. now rewrite think_tag_none.
  - intros text. rewrite indexOf_none. unfold renderTextWithThinking.
    destruct (indexOf THINK_OPEN text); split; congruence.
  - apply first_think_tag.
Qed.

Lemma thinking_starts_at_first_tag_witness :
  renderTextWithThinking
    (str "Sure. <think>hmm</think>Yes.<think>more</think><think>") =
  Thinking (Some (str "Sure. ")) (str "hmmYes.more").
Proof.
  assert (H : occurs THINK_OPEN (str "Sure. " ++ str "<think") = false)
    by (vm_compute; reflexivity).
  destruct (thinking_starts_at_first_tag (str "Sure. ")
              (str "hmm</think>Yes.<think>more</think><think>") H) as [E _].
  eapply eq_trans; [exact E|]. vm_compute. reflexivity.
Defined.

(** X25.  The system prompt of every model is the base prompt with only its
    opening changed: for each model id it is an opening that starts with "You
    are " followed by the base prompt from its 31st character on, so the
    rules are the same for all models; for an id that is none of the four
    known ones it is the base prompt itself.  The four models of the selector
    get four different prompts, none of them the base prompt. *)
Theorem system_prompt_keeps_rules (model_id : jstring) :
  (exists opening,
     getSystemPrompt model_id = opening ++ skipn 30 basePrompt /\
     firstn 8 opening = str "You are " /\
     occurs (str "a helpful AI assistant") opening = true) /\
  (~ In model_id (map Selector.id Selector.AVAILABLE_MODELS) ->
   getSystemPrompt model_id = basePrompt) /\
  NoDup (basePrompt ::
         map (fun m => getSystemPrompt (Selector.id m)) Selector.AVAILABLE_MODELS).
Proof.
  split; [|split].
  - unfold getSystemPrompt.
    destruct (jeqb model_id (str "qwen3-1.7b"));
      [|destruct (jeqb model_id (str "qwen2.5-vl-3b"));
        [|destruct (jeqb model_id (str "phi-3-mini"));
          [|destruct (jeqb model_id (str "llama3-1b"))]]].
    + exists (str "You are Qwen, a helpful AI assistant").
      repeat split; vm_compute; reflexivity.
    + exists (str "You are Qwen2.5-VL, a helpful AI assistant that can see and understand images").
      repeat split; vm_compute; reflexivity.
    + exists (str "You are Phi-3, a helpful AI assistant").
      repeat split; vm_compute; reflexivity.
    + exists (str "You are Llama, a helpful AI assistant").
      repeat split; vm_compute; reflexivity.
    + exists (str "You are a helpful AI assistant").
      repeat split; vm_compute; reflexivity.
  - intros H. unfold getSystemPrompt.
    destruct (jeqb model_id (str "qwen3-1.7b")) eqn:J1;
      [apply jeqb_true in J1; exfalso; apply H; rewrite J1; vm_compute; tauto|].
    destruct (jeqb model_id (str "qwen2.5-vl-3b")) eqn:J2;
      [apply jeqb_true in J2; exfalso; apply H; rewrite J2; vm_compute; tauto|].
    destruct (jeqb model_id (str "phi-3-mini")) eqn:J3;
      [apply jeqb_true in J3; exfalso; apply H; rewrite J3; vm_compute; tauto|].
    destruct (jeqb model_id (str "llama3-1b")) eqn:J4;
      [apply jeqb_true in J4; exfalso; apply H; rewrite J4; vm_compute; tauto|].
    reflexivity.
  - repeat (constructor;
            [cbn [In map]; intros H;
             repeat (destruct H as [H|H];
                     [apply (f_equal (fun l => nth 12 l 0%N)) in H;
                      vm_compute in H; discriminate|]);
             exact H|]).
    constructor.
Qed.

End ChatViewFacts.

(* ================================================================== *)
(** * The models screen *)

Section ModelsScreenFacts.
Import ModelsScreen.

Lemma update_model_twice model f g prev :
  (forall m, id (g m) = id m) ->
  update_model model f (update_model model g prev) =
  update_model model (fun m => f (g m)) prev.
Proof.
  intros H. unfold update_model. rewrite map_map. apply map_ext. intros m.
  destruct (jeqb (id m) (id model)) eqn:E; [|now rewrite E].
  now rewrite H, E.
Qed.

Lemma progress_overwritten model p q prev :
  update_model model (with_progress q) (update_model model (with_progress p) prev)
  = update_model model (with_progress q) prev.
Proof.
  rewrite update_model_twice by reflexivity. reflexivity.
Qed.

(** The eleven rounds: each one writes its value over the one before. *)
Lemma progress_loop_rounds model prev :
  progress_loop 11 0 model prev =
  map (fun p => update_model model (with_progress p) prev)
      [0; 10; 20; 30; 40; 50; 60; 70; 80; 90; 100]%Z.
Proof.
  cbn [progress_loop Z.leb Z.compare Pos.compare Pos.compare_cont Z.add
       Pos.add Pos.succ Pos.add_carry map].
  now rewrite !progress_overwritten.
Qed.

(** X26.  The simulated download of the models screen.  While a download is
    running, a request for another is ignored.  Otherwise the screen goes
    through eleven rounds: in the round of the value p, for p = 0, 10, ...,
    100, the id of the requested model is the one that is downloading, every
    model of the list with that id carries the progress p and is otherwise
    as before the download, and every other model is as before.  Afterwards
    the models with that id are marked as downloaded and carry no progress,
    every other model is as before, no download is running and one alert
    tells of the success.  On a list of models that are not downloaded and
    carry no progress, the download followed by the confirmed delete gives
    the list back. *)
Theorem simulated_download_marks_model (model : AvailableModel) (st : State) :
  is_downloading st = false ->
  let st' := downloadModel model st in
  let change (f : AvailableModel -> AvailableModel) :=
    map (fun m => if jeqb (id m) (id model) then f m else m) (models st) in
  models st' =
    change (fun m => mkAvailableModel (id m) (name m) (size m) (parameters m)
                       (description m) (downloadUrl m) true None) /\
  downloading st' = None /\
  alerts st' =
    alerts st ++ [(str "Success", name model ++ str " downloaded successfully!")] /\
  downloadModel_rounds model st =
    map (fun p =>
           mkState
             (change (fun m => mkAvailableModel (id m) (name m) (size m)
                                 (parameters m) (description m) (downloadUrl m)
                                 (isDownloaded m) (Some p)))
             (loading st) (Some (id model)) (alerts st))
        [0; 10; 20; 30; 40; 50; 60; 70; 80; 90; 100]%Z /\
  (forall busy, is_downloading busy = true ->
     downloadModel model busy = busy /\ downloadModel_rounds model busy = []) /\
  (Forall (fun m => isDownloaded m = false /\ downloadProgress m = None)
          (models st) ->
   models (deleteModel_confirmed model st') = models st).
Proof.
  intros H st' change.
  unfold st', downloadModel, downloadModel_rounds. rewrite H.
  cbn [models downloading alerts]. rewrite progress_loop_rounds.
  cbn [map last]. rewrite update_model_twice by reflexivity.
  split; [reflexivity|]. split; [reflexivity|]. split; [reflexivity|].
  split; [reflexivity|]. split.
  - intros busy Hb. now rewrite Hb.
  - intros F. unfold deleteModel_confirmed. cbn [models].
    rewrite update_model_twice by reflexivity.
    unfold update_model. rewrite <- (map_id (models st)) at 2.
    apply map_ext_in. intros m Hm.
    destruct (jeqb (id m) (id model)); trivial.
    rewrite Forall_forall in F. destruct (F m Hm) as [F1 F2].
    destruct m. cbn in *. now subst.
Qed.

End ModelsScreenFacts.

Section ModelsScreenExamples.
Import ModelsScreen.

Lemma simulated_download_marks_model_witness :
  models (downloadModel SampleModels.tiny SampleModels.idle) =
  [SampleModels.llama; downloaded SampleModels.tiny] /\
  map (fun round => map downloadProgress (models round))
      (downloadModel_rounds SampleModels.tiny SampleModels.idle) =
  map (fun p => [None; Some p]) [0; 10; 20; 30; 40; 50; 60; 70; 80; 90; 100]%Z.
Proof.
  destruct (simulated_download_marks_model SampleModels.tiny SampleModels.idle
              eq_refl) as [H [_ [_ [R _]]]].
  split.
  - eapply eq_trans; [exact H|]. vm_compute. reflexivity.
  - rewrite R. vm_compute. reflexivity.
Defined.

End ModelsScreenExamples.
